(** * generate_package.py: patch resolution and simulated application

  A shallow embedding of [scripts/generate_package.py] and the proofs of
  the properties its specification states about it.

  Conventions.
  - A Python [str] is a Rocq [string]; a character is a code point below
    256.  The character classes the script uses are ASCII classes, the
    white space and line boundaries are Python's restricted to that range.
  - A Python [int] is a [Z], a [list] is a [list], a [set] of strings is a
    [gset string], a [dict] from strings to strings is a [gmap string string].
  - Everything outside the script (the repositories git works on, the
    temporary index, the files it reads) is one abstract state [Ext] that
    the external commands transform.
  - The file system [write_patches] works on is modelled concretely: a map
    from the absolute paths that exist to regular files and directories,
    with the errors of the system calls behind [pathlib] and [shutil] on
    Linux (missing and wrong kinds of files, names over [NAME_MAX] and
    paths over [PATH_MAX] bytes, NUL in a path), without symbolic links
    and permissions. *)

From Stdlib Require Import ZArith NArith Strings.String Strings.Ascii.
From Stdlib Require Import Numbers.DecimalString Numbers.DecimalN Lists.List Lia.
From stdpp Require Import base option list strings gmap.

Local Open Scope string_scope.
Local Open Scope list_scope.

(** ** Python's string operations *)

Module PyStr.

Definition code (c : ascii) : N := N_of_ascii c.

Definition between (lo hi : N) (c : ascii) : bool :=
  ((lo <=? code c) && (code c <=? hi))%N.

(** [c.isspace()] on the code points below 256. *)
Definition isspace (c : ascii) : bool :=
  between 9 13 c || between 28 32 c || (code c =? 133)%N || (code c =? 160)%N.

(** The line boundaries of [str.splitlines] below 256: LF, VT, FF, CR,
    FS, GS, RS and NEL. *)
Definition is_linebreak (c : ascii) : bool :=
  between 10 13 c || between 28 30 c || (code c =? 133)%N.

Definition is_digit (c : ascii) : bool := between 48 57 c.
Definition is_upper (c : ascii) : bool := between 65 90 c.
Definition is_lower (c : ascii) : bool := between 97 122 c.

Definition eqc (a b : ascii) : bool := Ascii.eqb a b.

Fixpoint mem_char (c : ascii) (s : string) : bool :=
  match s with
  | "" => false
  | String a r => eqc a c || mem_char c r
  end.

Fixpoint all_chars (p : ascii → bool) (s : string) : bool :=
  match s with
  | "" => true
  | String a r => p a && all_chars p r
  end.

Definition is_empty (s : string) : bool :=
  match s with "" => true | _ => false end.

Fixpoint drop (n : nat) (s : string) : string :=
  match n, s with
  | O, _ => s
  | S n', String _ r => drop n' r
  | S _, "" => ""
  end.

(** [s[:n]] *)
Fixpoint take (n : nat) (s : string) : string :=
  match n, s with
  | S n', String a r => String a (take n' r)
  | _, _ => ""
  end.

Fixpoint lstrip_by (p : ascii → bool) (s : string) : string :=
  match s with
  | "" => ""
  | String a r => if p a then lstrip_by p r else s
  end.

Fixpoint rstrip_by (p : ascii → bool) (s : string) : string :=
  match s with
  | "" => ""
  | String a r =>
      match rstrip_by p r with
      | "" => if p a then "" else String a ""
      | r' => String a r'
      end
  end.

(** [s.strip()] and [s.strip(chars)]. *)
Definition strip_by (p : ascii → bool) (s : string) : string :=
  rstrip_by p (lstrip_by p s).
Definition strip (s : string) : string := strip_by isspace s.
Definition strip_chars (chars s : string) : string :=
  strip_by (fun c => mem_char c chars) s.

(** [s.splitlines()]: [cur] is the line being read, [after_cr] tells that
    the previous character was a carriage return, whose line feed belongs
    to the same boundary. *)
Fixpoint splitlines_go (cur : string) (after_cr : bool) (s : string) : list string :=
  match s with
  | "" => if is_empty cur then [] else [cur]
  | String a r =>
      if after_cr && eqc a "010" then splitlines_go cur false r
      else if is_linebreak a then cur :: splitlines_go "" (eqc a "013") r
      else splitlines_go (cur +:+ String a "") false r
  end.
Definition splitlines (s : string) : list string := splitlines_go "" false s.

Fixpoint startswith (p s : string) : bool :=
  match p, s with
  | "", _ => true
  | String a p', String b s' => eqc a b && startswith p' s'
  | String _ _, "" => false
  end.

Definition endswith (s suf : string) : bool :=
  let n := String.length s in
  let m := String.length suf in
  Nat.leb m n && String.eqb (drop (n - m) s) suf.

(** [s.partition(sep)] at the first occurrence of [sep]: [None] when
    [sep not in s], else the text before and the text after it, which are
    [s.split(sep, 1)[0]] and [s.split(sep, 1)[1]]. *)
Fixpoint partition (sep s : string) : option (string * string) :=
  if startswith sep s then Some ("", drop (String.length sep) s)
  else match s with
       | "" => None
       | String a r =>
           match partition sep r with
           | Some (before, after) => Some (String a before, after)
           | None => None
           end
       end.

(** [s.rsplit(c, 1)[-1]]: what follows the last [c], all of [s] if there
    is none. *)
Fixpoint after_last_go (c : ascii) (acc s : string) : string :=
  match s with
  | "" => acc
  | String a r =>
      if eqc a c then after_last_go c "" r
      else after_last_go c (acc +:+ String a "") r
  end.
Definition after_last (c : ascii) (s : string) : string := after_last_go c "" s.

(** [sep.join(l)] *)
Definition join (sep : string) (l : list string) : string := String.concat sep l.

Fixpoint zeros (n : nat) : string :=
  match n with O => "" | S n' => String "0" (zeros n') end.

(** [str(n)] for a natural number: no sign, ["0"] for zero. *)
Definition str_N (n : N) : string := NilZero.string_of_uint (N.to_uint n).

(** [str(n)] *)
Definition str (n : Z) : string :=
  if (n <? 0)%Z then "-" +:+ str_N (Z.abs_N n) else str_N (Z.to_N n).

(** [f"{n:04d}"]: the sign, then zeros up to four characters in all. *)
Definition fmt_04d (n : Z) : string :=
  if (n <? 0)%Z then
    let d := str_N (Z.abs_N n) in "-" +:+ zeros (3 - String.length d) +:+ d
  else
    let d := str_N (Z.to_N n) in zeros (4 - String.length d) +:+ d.

(** Truth value of a possibly absent text: [None] and [""] are false. *)
Definition truthy (o : option string) : bool :=
  match o with Some s => negb (is_empty s) | None => false end.

(** [a or b] on possibly absent texts, and [a or "literal"]. *)
Definition por (a b : option string) : option string := if truthy a then a else b.
Definition por_str (a : option string) (d : string) : string :=
  match a with
  | Some s => if is_empty s then d else s
  | None => d
  end.

(** [s.rsplit(c, 1)[0]]: what precedes the last [c], all of [s] if there
    is none. *)
Fixpoint before_last (c : ascii) (s : string) : string :=
  match s with
  | "" => ""
  | String a r =>
      if mem_char c r then String a (before_last c r)
      else if eqc a c then "" else s
  end.

(** The first component of a relative path with a separator. *)
Definition before_first_sep (s : string) : string :=
  match partition "/" s with
  | Some (before, _) => before
  | None => s
  end.

(** A captured output: [subprocess.run(..., capture_output=True)] always
    returns texts, never [None]. *)
Definition captured (o : option string) : string := default "" o.

End PyStr.


(** ** The two regular expressions of the script *)

Module Re.
Import PyStr.

(** The character class [[A-Za-z0-9._-]]. *)
Definition label_char (c : ascii) : bool :=
  is_upper c || is_lower c || is_digit c || eqc c "." || eqc c "_" || eqc c "-".

(** [re.sub(r"[^A-Za-z0-9._-]+", repl, s)].  The pattern is one or more
    characters outside the class, matched greedily from the left: a match
    starts at the first character outside the class and runs up to the next
    character of the class.  [in_match] tells that the character before
    belongs to a match whose replacement is already written. *)
Fixpoint sub_outside_go (repl : string) (in_match : bool) (s : string) : string :=
  match s with
  | "" => ""
  | String a r =>
      if label_char a then String a (sub_outside_go repl false r)
      else if in_match then sub_outside_go repl true r
      else repl +:+ sub_outside_go repl true r
  end.
Definition sub_outside (repl s : string) : string := sub_outside_go repl false s.

(** [re.sub(r"^[0-9]+-", "", s)]: without [re.MULTILINE] the anchor matches
    at the start of [s] only; the digits are matched greedily and a hyphen
    has to follow them. *)
Definition sub_leading_number (s : string) : string :=
  let rest := lstrip_by is_digit s in
  match rest with
  | String a r =>
      if eqc a "-" && Nat.ltb (String.length rest) (String.length s) then r else s
  | "" => s
  end.

End Re.

(** ** Exceptions, the platform and the state of a run *)

Inductive PyExn : Type :=
| CalledProcessError (returncode : Z) (cmd : list string) (output : option string) (stderr : string)
| RuntimeError (msg : string)
| FileNotFoundError (msg : string)
| FileExistsError (msg : string)
| NotADirectoryError (msg : string)
| IsADirectoryError (msg : string)
| ValueError (msg : string)
| OSError (msg : string)
| SystemExit (msg : string).

(** What the script runs on.  [Ext] is the state of everything outside it.
    [subprocess_run args input env] is [subprocess.run(args, text=True,
    input=input, env=env)]: the return code, the standard output and the
    standard error of the child, and the state it leaves; [env] lists the
    variables set on top of [os.environ], [None] when the child inherits the
    environment as it is.  The other fields are [tempfile] and [pathlib]. *)
Class Platform : Type := {
  Ext : Type;
  subprocess_run :
    list string → option string → option (list (string * string)) → Ext → (Z * string * string) * Ext;
  named_temporary_file : Ext → string * Ext;
  path_unlink : string → Ext → Ext;
  path_exists : string → Ext → bool;
  path_read_text : string → Ext → PyExn + string;
  path_div : string → string → string;
  path_stem : string → string
}.

(** What a path of the file system names: a regular file with its content,
    or a directory. *)
Inductive Node : Type :=
| RegularFile (content : string)
| Directory.

(** The errors of the system calls the series writer makes. *)
Inductive Errno : Type := ENOENT | EEXIST | ENOTDIR | EISDIR | ENAMETOOLONG.

Record CompletedProcess : Type := {
  returncode : Z;
  cp_stdout : option string;
  cp_stderr : option string
}.

Definition Patch : Type := string * string.

Inductive Status : Type := applied | skipped | failed.

(** The module-level constants of the script. *)
Record Config : Type := {
  LINUX_REMOTE : string; LINUX_BRANCH : string; LINUX_REF : string;
  PKGVER : string; KERNEL_SOURCE : string;
  TUXEDO_REMOTE : string; TUXEDO_BRANCH : string; TUXEDO_REF : string;
  EXCLUDE_COMMITS : gset string;
  CACHYOS_PKGBUILDS_REMOTE : string; CACHYOS_PKGBUILDS_BRANCH : string;
  CACHYOS_PKGBUILDS_REF : string;
  CACHYOS_PATCHES_REMOTE : string; CACHYOS_PATCHES_BRANCH : string;
  CACHYOS_PATCHES_REF : string; CACHYOS_PATCHES_FOLDER : string;
  CACHYOS_PKG_DIR : string;
  ROOT : string
}.

Definition script_config (root : string) : Config := {|
  LINUX_REMOTE := "https://gitlab.freedesktop.org/agd5f/linux.git";
  LINUX_BRANCH := "amd-drm-fixes-6.19-2026-01-15";
  LINUX_REF := "";
  PKGVER := "6.19.0rc5";
  KERNEL_SOURCE := "https://gitlab.freedesktop.org/agd5f/linux/-/archive/amd-drm-fixes-6.19-2026-01-15/linux-amd-drm-fixes-6.19-2026-01-15.tar.gz";
  TUXEDO_REMOTE := "https://gitlab.com/tuxedocomputers/development/packages/linux.git";
  TUXEDO_BRANCH := "tuxedo-6.17-24.04";
  TUXEDO_REF := "";
  EXCLUDE_COMMITS :=
    {[ "27b53f08bb8b7dcf4e9ae551bc8f9c65a05568ca";
       "1fe04fc050d845eedd28cc16e768e4eac66891a8" ]};
  CACHYOS_PKGBUILDS_REMOTE := "https://github.com/CachyOS/linux-cachyos";
  CACHYOS_PKGBUILDS_BRANCH := "master";
  CACHYOS_PKGBUILDS_REF := "8e4d77a4aeef28c8e93fd9b724d61a84b11b384f";
  CACHYOS_PATCHES_REMOTE := "https://github.com/CachyOS/kernel-patches.git";
  CACHYOS_PATCHES_BRANCH := "master";
  CACHYOS_PATCHES_REF := "af948449e6e97afbac82dc9887e2b2b95d1a6519";
  CACHYOS_PATCHES_FOLDER := "6.19";
  CACHYOS_PKG_DIR := "linux-cachyos-rc";
  ROOT := root
|}.

(** ** Paths and the file system

    [pathlib] and the system calls behind [Path.exists], [shutil.rmtree],
    [Path.mkdir] and [Path.write_text], as Python 3 has them on Linux, for
    absolute paths and a file system without symbolic links.  The file
    system is the map of the paths that exist, written as [pathlib] prints
    them, to what they are; what a directory holds are the paths under it,
    and the root always exists. *)

Module Posix.
Import PyStr.

Definition NAME_MAX : nat := 255.
Definition PATH_MAX : nat := 4096.

(** [len(os.fsencode(s))]: UTF-8 takes one byte for a code point below 128
    and two for the others below 256. *)
Fixpoint utf8_length (s : string) : nat :=
  match s with
  | "" => 0
  | String a r => (if (code a <? 128)%N then 1 else 2) + utf8_length r
  end.

(** [s.split("/")]: [cur] is the piece being read. *)
Fixpoint split_go (cur s : string) : list string :=
  match s with
  | "" => [cur]
  | String a r => if eqc a "/" then cur :: split_go "" r else split_go (cur +:+ String a "") r
  end.
Definition split_sep (s : string) : list string := split_go "" s.

(** The components [pathlib] keeps of a path: the empty pieces and the
    single dots are dropped, the double dots stay. *)
Definition kept (c : string) : bool := negb (is_empty c) && negb (String.eqb c ".").
Definition parts (path : string) : list string := List.filter kept (split_sep path).

(** [str] of the absolute path with the components [comps]. *)
Definition render (comps : list string) : string := "/" +:+ join "/" comps.

(** [str(dir / name)]: an absolute [name] replaces [dir].  (Exactly two
    leading separators, which [pathlib] keeps apart, are read as one.) *)
Definition path_truediv (dir name : string) : string :=
  if startswith "/" name then render (parts name) else render (parts dir ++ parts name).

(** The exception Python raises for an error of a system call on [path].
    The subclasses of [OSError] carry the path; the plain [OSError] carries
    the text of its error number as well. *)
Definition os_error (e : Errno) (path : string) : PyExn :=
  match e with
  | ENOENT => FileNotFoundError path
  | EEXIST => FileExistsError path
  | ENOTDIR => NotADirectoryError path
  | EISDIR => IsADirectoryError path
  | ENAMETOOLONG => OSError ("[Errno 36] File name too long: " +:+ path)
  end.

(** The kernel walks the directories [comps] from the directory with the
    components [cur]: a double dot leads to the parent, a name longer than
    [NAME_MAX] bytes is refused, and every other name must be a directory.
    The result is the directory reached. *)
Fixpoint walk (fs : gmap string Node) (cur comps : list string) : Errno + list string :=
  match comps with
  | [] => inr cur
  | c :: rest =>
      if String.eqb c ".." then walk fs (removelast cur) rest
      else if Nat.ltb NAME_MAX (utf8_length c) then inl ENAMETOOLONG
      else match fs !! render (cur ++ [c]) with
           | None => inl ENOENT
           | Some (RegularFile _) => inl ENOTDIR
           | Some Directory => walk fs (cur ++ [c]) rest
           end
  end.

(** What every system call does with its path first.  Python refuses a NUL
    and the kernel a path of [PATH_MAX] bytes or more; then the directories
    of the path are walked.  The result is the directory reached and the
    last component, [None] for the root. *)
Definition lookup_parent (fs : gmap string Node) (path : string)
    : PyExn + list string * option string :=
  if mem_char "000" path then inl (ValueError "embedded null byte")
  else if Nat.leb PATH_MAX (utf8_length path) then inl (os_error ENAMETOOLONG path)
  else match reverse (parts path) with
       | [] => inr ([], None)
       | c :: before =>
           match walk fs [] (reverse before) with
           | inl e => inl (os_error e path)
           | inr dir => inr (dir, Some c)
           end
       end.

(** [os.stat(path)]: the path that is found, as a key of the map, and what
    it is.  A path that is a key is found as it is. *)
Definition stat (fs : gmap string Node) (path : string) : PyExn + string * Node :=
  match fs !! path with
  | Some node => inr (path, node)
  | None =>
      match lookup_parent fs path with
      | inl e => inl e
      | inr (_, None) => inr ("/", Directory)
      | inr (dir, Some c) =>
          if String.eqb c ".." then inr (render (removelast dir), Directory)
          else if Nat.ltb NAME_MAX (utf8_length c) then inl (os_error ENAMETOOLONG path)
          else match fs !! render (dir ++ [c]) with
               | None => inl (os_error ENOENT path)
               | Some node => inr (render (dir ++ [c]), node)
               end
      end
  end.

(** The exceptions [Path.exists] and [Path.is_dir] turn into [False]:
    [ENOENT] and [ENOTDIR] among the system's, and the [ValueError] of a
    path that cannot be encoded. *)
Definition ignored (e : PyExn) : bool :=
  match e with
  | FileNotFoundError _ | NotADirectoryError _ | ValueError _ => true
  | _ => false
  end.

(** [path] lies under the directory [dir]. *)
Definition under (dir path : string) : bool :=
  if String.eqb dir "/" then startswith "/" path && negb (String.eqb path "/")
  else startswith (dir +:+ "/") path.

(** The file system without the directory [dir] and all that lies under
    it. *)
Definition remove_tree (dir : string) (fs : gmap string Node) : gmap string Node :=
  map_imap (λ path node, if String.eqb path dir || under dir path then None else Some node) fs.

(** [os.mkdir(path)] *)
Definition os_mkdir (fs : gmap string Node) (path : string) : PyExn + gmap string Node :=
  match lookup_parent fs path with
  | inl e => inl e
  | inr (_, None) => inl (os_error EEXIST path)
  | inr (dir, Some c) =>
      if String.eqb c ".." then inl (os_error EEXIST path)
      else if Nat.ltb NAME_MAX (utf8_length c) then inl (os_error ENAMETOOLONG path)
      else match fs !! render (dir ++ [c]) with
           | Some _ => inl (os_error EEXIST path)
           | None => inr (<[render (dir ++ [c]) := Directory]> fs)
           end
  end.

(** [open(path, "w")], the text written and the file closed. *)
Definition write_file (fs : gmap string Node) (path content : string)
    : PyExn + gmap string Node :=
  match lookup_parent fs path with
  | inl e => inl e
  | inr (_, None) => inl (os_error EISDIR path)
  | inr (dir, Some c) =>
      if String.eqb c ".." then inl (os_error EISDIR path)
      else if Nat.ltb NAME_MAX (utf8_length c) then inl (os_error ENAMETOOLONG path)
      else match fs !! render (dir ++ [c]) with
           | Some Directory => inl (os_error EISDIR path)
           | _ => inr (<[render (dir ++ [c]) := RegularFile content]> fs)
           end
  end.

End Posix.

Section Run.
Context {P : Platform}.
Import PyStr.

(** The state of a run: the outside world, the file system
    [write_patches] works on, what [print] wrote (one entry per call) and
    the argument vectors of the child processes started so far. *)
Record World : Type := {
  ext : Ext;
  dirs : gmap string Node;
  stdout : list string;
  calls : list (list string)
}.

Definition set_ext (e : Ext) (w : World) : World :=
  {| ext := e; dirs := dirs w; stdout := stdout w; calls := calls w |}.
Definition set_dirs (d : gmap string Node) (w : World) : World :=
  {| ext := ext w; dirs := d; stdout := stdout w; calls := calls w |}.

(** A computation of the script: it ends with an exception or a value, and
    leaves a state either way. *)
Definition M (A : Type) : Type := World → (PyExn + A) * World.

#[export] Instance M_ret : MRet M := λ A a w, (inr a, w).
#[export] Instance M_bind : MBind M := λ A B k m w,
  match m w with
  | (inl e, w') => (inl e, w')
  | (inr a, w') => k a w'
  end.

Definition raise {A : Type} (e : PyExn) : M A := λ w, (inl e, w).

(** [sys.exit(msg)] *)
Definition sys_exit {A : Type} (msg : string) : M A := raise (SystemExit msg).

(** [try: body finally: cleanup] *)
Definition try_finally {A : Type} (body : M A) (cleanup : M unit) : M A := λ w,
  match body w with
  | (r, w') =>
      match cleanup w' with
      | (inl e, w'') => (inl e, w'')
      | (inr _, w'') => (r, w'')
      end
  end.

Definition print (line : string) : M unit := λ w,
  (inr (), {| ext := ext w; dirs := dirs w; stdout := stdout w ++ [line]; calls := calls w |}).

(** [for x in l: body], where the body updates the local variables [s]. *)
Fixpoint for_each {A S : Type} (l : list A) (s : S) (body : S → A → M S) : M S :=
  match l with
  | [] => mret s
  | x :: r => s' ← body s x; for_each r s' body
  end.

(** The child process is run on the outside world and recorded. *)
Definition subprocess (args : list string) (capture : bool) (input : option string)
    (env : option (list (string * string))) : M CompletedProcess := λ w,
  match subprocess_run args input env (ext w) with
  | (rc, out, err, e') =>
      (inr {| returncode := rc;
              cp_stdout := if capture then Some out else None;
              cp_stderr := if capture then Some err else None |},
       {| ext := e'; dirs := dirs w; stdout := stdout w; calls := calls w ++ [args] |})
  end.

Definition run_git (args : list string) (capture check : bool) (stdin_data : option string)
    (env : option (list (string * string))) : M CompletedProcess :=
  print ("$ " +:+ join " " args);;
  res ← subprocess args capture stdin_data env;
  if check && negb (returncode res =? 0)%Z then
    let stderr := strip (por_str (cp_stderr res) "") in
    let stdout := strip (por_str (cp_stdout res) "") in
    let msg := por_str (por (Some stderr) (Some stdout)) "git command failed" in
    raise (CalledProcessError (returncode res) args (cp_stdout res) msg)
  else mret res.

Definition rev_list_range (repo include : string) (exclude : list string) (reverse : bool)
    : M (list string) :=
  let args := ["git"; "-C"; repo; "rev-list"; "--no-merges"]
              ++ (if reverse then ["--reverse"] else [])
              ++ [include]
              ++ map (λ ex, "^" +:+ ex) (List.filter (λ ex, negb (is_empty ex)) exclude) in
  res ← run_git args true false None None;
  if negb (returncode res =? 0)%Z then
    sys_exit (por_str (por (cp_stderr res) (cp_stdout res)) ("rev-list failed for " +:+ include))
  else
    mret (List.filter (λ line, negb (is_empty line))
            (map strip (splitlines (captured (cp_stdout res))))).


(** *** External Patch Loader *)

(** The relative path of a patch URL: what follows the first [marker] when
    [marker in url], else the last component of the URL. *)
Definition patch_rel (marker url : string) : string :=
  match partition marker url with
  | Some (_, after) => after
  | None => after_last "/" url
  end.

(** [path.exists()] and [path.read_text()] outside the destinations. *)
Definition exists_ (path : string) : M bool := λ w, (inr (path_exists path (ext w)), w).
Definition read_text (path : string) : M string := λ w,
  match path_read_text path (ext w) with
  | inl e => (inl e, w)
  | inr content => (inr content, w)
  end.

Definition dq : string := String "034" "".
Definition nl : string := String "010" "".

Definition pkgbuild_env (pkgbuild_path lto_mode cpusched : string) : list (string * string) :=
  [("PKGBUILD_PATH", pkgbuild_path); ("_use_llvm_lto", lto_mode);
   ("_cpusched", cpusched); ("_build_nvidia_open", "no"); ("_build_zfs", "no")].

Definition pkgbuild_cmd : list string :=
  ["bash"; "-lc";
   "source " +:+ dq +:+ "${PKGBUILD_PATH}" +:+ dq +:+ " >/dev/null; printf "
   +:+ dq +:+ "%s" +:+ nl +:+ dq +:+ " " +:+ dq +:+ "${source[@]}" +:+ dq].

(** [[line.strip() for line in out.splitlines() if line.strip().endswith(".patch")]] *)
Definition declared_patch_urls (out : string) : list string :=
  map strip (List.filter (λ line, endswith (strip line) ".patch") (splitlines out)).

Definition src_path_of (patches_repo folder url : string) : string :=
  path_div (path_div patches_repo folder) (patch_rel ("/" +:+ folder +:+ "/") url).

Definition label_of_url (folder url : string) : string :=
  Re.sub_leading_number (path_stem (patch_rel ("/" +:+ folder +:+ "/") url)).

(** [FileNotFoundError(f"Missing CachyOS patch referenced by PKGBUILD: {src_path}")] *)
Definition missing_patch (patches_repo folder url : string) : PyExn :=
  FileNotFoundError ("Missing CachyOS patch referenced by PKGBUILD: "
                     +:+ src_path_of patches_repo folder url).

(** The body of the loop over the patch URLs. *)
Definition load_patch (patches_repo folder : string) (collected : list Patch) (url : string)
    : M (list Patch) :=
  let marker := "/" +:+ folder +:+ "/" in
  let rel := patch_rel marker url in
  let src_path := path_div (path_div patches_repo folder) rel in
  there ← exists_ src_path;
  if negb there then
    raise (missing_patch patches_repo folder url)
  else
    content ← read_text src_path;
    let label := Re.sub_leading_number (path_stem rel) in
    mret (collected ++ [(label, content)]).

Definition collect_cachyos_patches (patches_repo folder pkgbuild_path lto_mode cpusched : string)
    : M (list Patch) :=
  let env := pkgbuild_env pkgbuild_path lto_mode cpusched in
  let cmd := pkgbuild_cmd in
  print ("$ " +:+ join " " cmd);;
  res ← subprocess cmd true None (Some env);
  if negb (returncode res =? 0)%Z then
    sys_exit (por_str (por (cp_stderr res) (cp_stdout res)) "failed to parse CachyOS PKGBUILD sources")
  else
    let patch_urls := declared_patch_urls (captured (cp_stdout res)) in
    if bool_decide (patch_urls = []) then
      raise (RuntimeError "No CachyOS patches discovered from PKGBUILD")
    else for_each patch_urls [] (load_patch patches_repo folder).

(** *** Commit Patch Materializer *)

(** [re.sub(r"[^A-Za-z0-9._-]+", "-", subject).strip("-") or commit[:12]] *)
Definition safe_subject (subject commit : string) : string :=
  let cleaned := strip_chars "-" (Re.sub_outside "-" subject) in
  if is_empty cleaned then take 12 commit else cleaned.

(** The body of the loop over the commits; the local variables are
    [collected] and [current]. *)
Definition materialize (repo : string) (subjects : gmap string string)
    (locals : list Patch * Z) (commit : string) : M (list Patch * Z) :=
  let '(collected, current) := locals in
  res ← run_git ["git"; "-C"; repo; "format-patch"; "-1"; commit; "--stdout"]
          true true None None;
  let subject := default "" (subjects !! commit) in
  mret (collected ++ [(safe_subject subject commit, captured (cp_stdout res))],
        (current + 1)%Z).

(** What the loop hands back: the exception, or [collected]. *)
Definition collected_of (r : PyExn + list Patch * Z) : PyExn + list Patch :=
  match r with
  | inl e => inl e
  | inr (collected, _) => inr collected
  end.

Definition collect_commit_patches (repo : string) (commits : list string) (start_number : Z)
    (subjects : gmap string string) : M (list Patch) :=
  '(collected, _) ← for_each commits ([], start_number) (materialize repo subjects);
  mret collected.

(** *** Simulated Application Engine *)

Definition apply_args (repo : string) : list string :=
  ["git"; "-C"; repo; "apply"; "--cached"; "--whitespace=nowarn"; "-"].

Definition apply_patch (repo : string) (env : list (string * string))
    (label content : string) (allow_skip : bool) : M (Status * string) :=
  let args := apply_args repo in
  res ← run_git args true false (Some content) (Some env);
  if (returncode res =? 0)%Z then mret (applied, "")
  else
    reverse_clean ←
      (if allow_skip then
         reverse_check ← run_git (args ++ ["--reverse"; "--check"]) true false
                           (Some content) (Some env);
         mret (returncode reverse_check =? 0)%Z
       else mret false);
    if reverse_clean : bool then mret (skipped, "already applied (reverse clean)")
    else
      res_three_way ← run_git (args ++ ["--3way"]) true false (Some content) (Some env);
      if (returncode res_three_way =? 0)%Z then mret (applied, "")
      else
        let msg := strip (por_str (por (por (por (cp_stderr res_three_way) (cp_stdout res_three_way))
                                         (cp_stderr res)) (cp_stdout res)) "apply failed") in
        mret (failed, msg).

(** [RuntimeError(f"CachyOS patch failed to apply on {base_treeish}: {label} :: {msg}")] *)
Definition cachyos_error (base_treeish label msg : string) : PyExn :=
  RuntimeError ("CachyOS patch failed to apply on " +:+ base_treeish +:+ ": "
                +:+ label +:+ " :: " +:+ msg).

(** The loop over the must-apply patches. *)
Definition apply_cachyos (repo : string) (env : list (string * string)) (base_treeish : string)
    (cachyos : list Patch) : M unit :=
  for_each cachyos () (λ _ '(label, content),
    print ("[applying CachyOS patch] " +:+ label);;
    '(status, msg) ← apply_patch repo env label content false;
    match status with
    | failed => raise (cachyos_error base_treeish label msg)
    | skipped => print ("[already applied] " +:+ label +:+ ": " +:+ msg)
    | applied => mret ()
    end).

(** The loop over the best-effort patches; the local variables are
    [applied_tuxedo] and [failed_tuxedo]. *)
Definition test_tuxedo (repo : string) (env : list (string * string)) (tuxedo : list Patch)
    (acc : list Patch * list (string * string)) : M (list Patch * list (string * string)) :=
  for_each tuxedo acc (λ '(applied_tuxedo, failed_tuxedo) '(label, content),
    print ("[testing Tuxedo patch] " +:+ label);;
    '(status, msg) ← apply_patch repo env label content true;
    match status with
    | applied => mret (applied_tuxedo ++ [(label, content)], failed_tuxedo)
    | skipped =>
        print ("[already applied] " +:+ label +:+ ": " +:+ msg);;
        mret (applied_tuxedo, failed_tuxedo)
    | failed => mret (applied_tuxedo, failed_tuxedo ++ [(label, msg)])
    end).

Definition simulate_env (index_path repo : string) : list (string * string) :=
  [("GIT_INDEX_FILE", index_path); ("GIT_WORK_TREE", repo)].

Definition read_tree_args (repo base_treeish : string) : list string :=
  ["git"; "-C"; repo; "read-tree"; base_treeish].

(** The body of [simulate_apply] under [try], on the state after the
    temporary index is made. *)
Definition simulate_body (repo base_treeish : string) (env : list (string * string))
    (cachyos tuxedo : list Patch) : M (list Patch) :=
  run_git (read_tree_args repo base_treeish) false true None (Some env);;
  apply_cachyos repo env base_treeish cachyos;;
  '(applied_tuxedo, failed_tuxedo) ← test_tuxedo repo env tuxedo ([], []);
  (if bool_decide (failed_tuxedo = []) then mret ()
   else
     print "[tuxedo skipped] patches that failed to apply:";;
     for_each failed_tuxedo () (λ _ '(lbl, msg), print ("  - " +:+ lbl +:+ ": " +:+ msg)));;
  mret (cachyos ++ applied_tuxedo).

Definition simulate_apply (repo base_treeish : string) (cachyos tuxedo : list Patch)
    : M (list Patch) :=
  index_path ← (λ w, let '(name, e) := named_temporary_file (ext w) in (inr name, set_ext e w));
  let env := simulate_env index_path repo in
  try_finally
    (simulate_body repo base_treeish env cachyos tuxedo)
    (λ w, (inr (), set_ext (path_unlink index_path (ext w)) w)).

(** *** Series Writer *)

(** [try: body except Exception as e: handler(e)] *)
Definition try_except {A : Type} (body : M A) (handler : PyExn → M A) : M A := λ w,
  match body w with
  | (inl e, w') => handler e w'
  | (inr a, w') => (inr a, w')
  end.

(** A system call on the file system of the run: it fails and changes
    nothing, or leaves a new file system. *)
Definition syscall (call : gmap string Node → PyExn + gmap string Node) : M unit := λ w,
  match call (dirs w) with
  | inl e => (inl e, w)
  | inr fs => (inr (), set_dirs fs w)
  end.

(** [dest_dir.exists()] *)
Definition dir_exists (dest_dir : string) : M bool := λ w,
  match Posix.stat (dirs w) dest_dir with
  | inr _ => (inr true, w)
  | inl e => if Posix.ignored e then (inr false, w) else (inl e, w)
  end.

(** [path.is_dir()] *)
Definition is_dir (path : string) : M bool := λ w,
  match Posix.stat (dirs w) path with
  | inr (_, Directory) => (inr true, w)
  | inr (_, RegularFile _) => (inr false, w)
  | inl e => if Posix.ignored e then (inr false, w) else (inl e, w)
  end.

(** [shutil.rmtree(dest_dir)]: a regular file cannot be listed. *)
Definition rmtree (dest_dir : string) : M unit := λ w,
  match Posix.stat (dirs w) dest_dir with
  | inl e => (inl e, w)
  | inr (_, RegularFile _) => (inl (NotADirectoryError dest_dir), w)
  | inr (found, Directory) => (inr (), set_dirs (Posix.remove_tree found (dirs w)) w)
  end.

(** What [Path.mkdir] does when [os.mkdir] raised an [OSError] other than
    [FileNotFoundError]: [if not exist_ok or not self.is_dir(): raise].  A
    [ValueError] is not caught. *)
Definition mkdir_exists (path : string) (exist_ok : bool) (e : PyExn) : M unit :=
  match e with
  | ValueError _ => raise e
  | _ =>
      if exist_ok then
        there ← is_dir path;
        if there : bool then mret () else raise e
      else raise e
  end.

(** [path.mkdir(parents=False, exist_ok=exist_ok)] *)
Definition mkdir_single (path : string) (exist_ok : bool) : M unit :=
  try_except (syscall (λ fs, Posix.os_mkdir fs path)) (λ e,
    match e with
    | FileNotFoundError _ => raise e
    | _ => mkdir_exists path exist_ok e
    end).

(** [path.mkdir(parents=True, exist_ok=exist_ok)] for the path with the
    components [reverse rcomps]; the parent of the root is the root. *)
Fixpoint mkdir_parents (rcomps : list string) (exist_ok : bool) : M unit :=
  let path := Posix.render (reverse rcomps) in
  try_except (syscall (λ fs, Posix.os_mkdir fs path)) (λ e,
    match e with
    | FileNotFoundError _ =>
        match rcomps with
        | [] => raise e
        | _ :: rparent =>
            mkdir_parents rparent true;;
            mkdir_single path exist_ok
        end
    | _ => mkdir_exists path exist_ok e
    end).

(** [dest_dir.mkdir(parents=True, exist_ok=True)] *)
Definition mkdir_parents_exist_ok (dest_dir : string) : M unit :=
  mkdir_parents (reverse (Posix.parts dest_dir)) true.

(** [path.write_text(content)] *)
Definition write_text (path content : string) : M unit :=
  syscall (λ fs, Posix.write_file fs path content).

Definition patch_filename (current : Z) (label : string) : string :=
  fmt_04d current +:+ "-" +:+ label +:+ ".patch".

(** The body of the loop over the patches; the local variable is [current]. *)
Definition write_patch (dest_dir : string) (current : Z) (patch : Patch) : M Z :=
  let '(label, content) := patch in
  let filename := patch_filename current label in
  write_text (Posix.path_truediv dest_dir filename) content;;
  mret (current + 1)%Z.

Definition write_patches (patches : list Patch) (dest_dir : string) (start_number : Z) : M unit :=
  there ← dir_exists dest_dir;
  (if there : bool then rmtree dest_dir else mret ());;
  mkdir_parents_exist_ok dest_dir;;
  for_each patches start_number (write_patch dest_dir);;
  mret ().

End Run.

(** ** The main program *)

(** The functions of the script that only move data between the
    repositories and the package directory: reference resolution, check-out,
    subject lookup, staging of the configuration, the archive and the
    rendering of the manifest.  No property below depends on what they do;
    [main] calls them in the order of the script. *)
Class Plumbing {P : Platform} : Type := {
  ensure_ref : string → string → string → string → string → string → M string;
  resolve_ubuntu_base : string → M string;
  bulk_subjects : string → list string → M (gmap string string);
  checkout : string → string → string → string → string → M unit;
  stage_cachyos_config : string → string → M unit;
  create_patches_tarball : string → string → M unit;
  render_pkgbuild : string → string → string → string → list string → list string → M unit
}.

Section Main.
Context {P : Platform} {C : Plumbing} (cfg : Config).
Import PyStr.

Definition LINUX_REPO : string := path_div (ROOT cfg) "linux".
Definition LINUX_CACHYOS_REPO : string := path_div (ROOT cfg) "cachyos-pkgbuilds".
Definition LINUX_CACHYOS_PATCHES_REPO : string := path_div (ROOT cfg) "cachyos-patches".
Definition PACKAGE_PATCHES_DIR : string := path_div (path_div (ROOT cfg) "package") "patches".
Definition PACKAGE_CONFIG_PATH : string := path_div (path_div (ROOT cfg) "package") "config".
Definition PKGBUILD_TEMPLATE : string := path_div (path_div (ROOT cfg) "scripts") "PKGBUILD".
Definition PACKAGE_PKGFILE : string := path_div (path_div (ROOT cfg) "package") "PKGBUILD".

Definition len {A : Type} (l : list A) : Z := Z.of_nat (length l).

(** [[h for h in ordered if h not in EXCLUDE_COMMITS and h[:12] not in
    EXCLUDE_COMMITS]], under [if EXCLUDE_COMMITS:]. *)
Definition exclude_commits (excluded : gset string) (ordered : list string) : list string :=
  if bool_decide (excluded ≠ ∅) then
    List.filter (λ h, negb (bool_decide (h ∈ excluded))
                      && negb (bool_decide (take 12 h ∈ excluded))) ordered
  else ordered.

(** Lines 496 to 514: simulation, the series, the archive, the manifest and
    the summary. *)
Definition main_package (linux_base_ref : string) (cachyos_patches tuxedo_patches : list Patch)
    : M unit :=
  applied ← simulate_apply LINUX_REPO linux_base_ref cachyos_patches tuxedo_patches;
  write_patches applied PACKAGE_PATCHES_DIR 1;;
  let patches_tarball := path_div (path_div (ROOT cfg) "package") "patches.tar.gz" in
  create_patches_tarball PACKAGE_PATCHES_DIR patches_tarball;;
  let srcname := before_last "." (before_last "." (after_last "/" (KERNEL_SOURCE cfg))) in
  let sources := [KERNEL_SOURCE cfg; "config"; "patches.tar.gz"] in
  let sha256sums := ["'SKIP'"; "'SKIP'"; "'SKIP'"] in
  render_pkgbuild PKGBUILD_TEMPLATE PACKAGE_PKGFILE (PKGVER cfg) srcname sources sha256sums;;
  let applied_tuxedo := Z.max 0 (len applied - len cachyos_patches) in
  let skipped_tuxedo := (len tuxedo_patches - applied_tuxedo)%Z in
  print "";;
  print ("[summary] cachyos patches: " +:+ str (len cachyos_patches));;
  print ("[summary] tuxedo patches: applied " +:+ str applied_tuxedo +:+ " of "
         +:+ str (len tuxedo_patches) +:+ ", skipped " +:+ str skipped_tuxedo);;
  print "[summary] Success!".

(** Lines 466 to 494: the subjects, the CachyOS check-outs and the two
    patch groups. *)
Definition main_collect (linux_base_ref : string) (ordered_tuxedo_unique : list string) : M unit :=
  tuxedo_subjects ← bulk_subjects LINUX_REPO ordered_tuxedo_unique;
  for_each ordered_tuxedo_unique () (λ _ h,
    print (h +:+ " " +:+ default "" (tuxedo_subjects !! h)));;
  if is_empty (CACHYOS_PKGBUILDS_REF cfg) then sys_exit "CACHYOS_PKGBUILDS_REF must be set"
  else
    checkout LINUX_CACHYOS_REPO "origin" (CACHYOS_PKGBUILDS_REMOTE cfg)
      (CACHYOS_PKGBUILDS_BRANCH cfg) (CACHYOS_PKGBUILDS_REF cfg);;
    stage_cachyos_config
      (path_div (path_div LINUX_CACHYOS_REPO (CACHYOS_PKG_DIR cfg)) "config") PACKAGE_CONFIG_PATH;;
    if is_empty (CACHYOS_PATCHES_REF cfg) then sys_exit "CACHYOS_PATCHES_REF must be set"
    else
      checkout LINUX_CACHYOS_PATCHES_REPO "origin" (CACHYOS_PATCHES_REMOTE cfg)
        (CACHYOS_PATCHES_BRANCH cfg) (CACHYOS_PATCHES_REF cfg);;
      let cachyos_pkgbuild_path :=
        path_div (path_div LINUX_CACHYOS_REPO (CACHYOS_PKG_DIR cfg)) "PKGBUILD" in
      cachyos_patches ← collect_cachyos_patches LINUX_CACHYOS_PATCHES_REPO
                          (CACHYOS_PATCHES_FOLDER cfg) cachyos_pkgbuild_path "thin" "bore";
      tuxedo_patches ← collect_commit_patches LINUX_REPO ordered_tuxedo_unique
                         (len cachyos_patches + 1) tuxedo_subjects;
      main_package linux_base_ref cachyos_patches tuxedo_patches.

(** Lines 452 to 461: the references and the commit range. *)
Definition main_extract : M (string * list string) :=
  linux_base_ref ← ensure_ref LINUX_REPO "origin" (LINUX_REMOTE cfg) (LINUX_BRANCH cfg)
                     (LINUX_REF cfg) "linux";
  tuxedo_ref ← ensure_ref LINUX_REPO "tuxedo" (TUXEDO_REMOTE cfg) (TUXEDO_BRANCH cfg)
                 (TUXEDO_REF cfg) "tuxedo";
  ubuntu_ref ← resolve_ubuntu_base tuxedo_ref;
  ordered_tuxedo_unique ← rev_list_range LINUX_REPO tuxedo_ref [ubuntu_ref; linux_base_ref] true;
  mret (linux_base_ref, ordered_tuxedo_unique).

Definition main : M unit :=
  '(linux_base_ref, ordered_tuxedo_unique) ← main_extract;
  let ordered_tuxedo_unique := exclude_commits (EXCLUDE_COMMITS cfg) ordered_tuxedo_unique in
  if (50 <? len ordered_tuxedo_unique)%Z then
    sys_exit ("unexpected tuxedo patch count: " +:+ str (len ordered_tuxedo_unique) +:+ " (>50)")
  else main_collect linux_base_ref ordered_tuxedo_unique.

End Main.

(** ** What the specification speaks of *)

Section Outcomes.
Context {P : Platform}.
Import PyStr.

(** What a command returns on the outside world [e]: its return code, its
    output, its error text, and the world it leaves. *)
Definition cmd_rc (args : list string) (input : option string) (env : list (string * string))
    (e : Ext) : Z :=
  (subprocess_run args input (Some env) e).1.1.1.
Definition cmd_out (args : list string) (input : option string) (env : list (string * string))
    (e : Ext) : string :=
  (subprocess_run args input (Some env) e).1.1.2.
Definition cmd_err (args : list string) (input : option string) (env : list (string * string))
    (e : Ext) : string :=
  (subprocess_run args input (Some env) e).1.2.
Definition cmd_next (args : list string) (input : option string) (env : list (string * string))
    (e : Ext) : Ext :=
  (subprocess_run args input (Some env) e).2.

Definition direct_args (repo : string) : list string := apply_args repo.
Definition reverse_args (repo : string) : list string := apply_args repo ++ ["--reverse"; "--check"].
Definition three_way_args (repo : string) : list string := apply_args repo ++ ["--3way"].

(** The diagnostic of a failed patch: the first text that is not empty
    among the error and the output of the three-way attempt, then of the
    direct attempt, stripped. *)
Definition first_nonempty (texts : list string) (fallback : string) : string :=
  default fallback (List.find (λ t, negb (is_empty t)) texts).

Definition diagnostic (repo : string) (env : list (string * string)) (content : string)
    (e e3 : Ext) : string :=
  strip (first_nonempty
           [cmd_err (three_way_args repo) (Some content) env e3;
            cmd_out (three_way_args repo) (Some content) env e3;
            cmd_err (direct_args repo) (Some content) env e;
            cmd_out (direct_args repo) (Some content) env e] "apply failed").

(** Section 4.5, step 2: a must-apply patch applies directly, or else
    three-way, or else fails.  The result is the outcome, its message, and
    the index left behind. *)
Definition must_apply_outcome (repo : string) (env : list (string * string)) (content : string)
    (e : Ext) : Status * string * Ext :=
  let e1 := cmd_next (direct_args repo) (Some content) env e in
  if (cmd_rc (direct_args repo) (Some content) env e =? 0)%Z then (applied, "", e1)
  else
    let e3 := cmd_next (three_way_args repo) (Some content) env e1 in
    if (cmd_rc (three_way_args repo) (Some content) env e1 =? 0)%Z then (applied, "", e3)
    else (failed, diagnostic repo env content e e1, e3).

(** Section 4.5, step 3: a best-effort patch applies directly, or else is
    already there when its inverse applies, or else applies three-way, or
    else fails. *)
Definition best_effort_outcome (repo : string) (env : list (string * string)) (content : string)
    (e : Ext) : Status * string * Ext :=
  let e1 := cmd_next (direct_args repo) (Some content) env e in
  if (cmd_rc (direct_args repo) (Some content) env e =? 0)%Z then (applied, "", e1)
  else
    let e2 := cmd_next (reverse_args repo) (Some content) env e1 in
    if (cmd_rc (reverse_args repo) (Some content) env e1 =? 0)%Z then
      (skipped, "already applied (reverse clean)", e2)
    else
      let e3 := cmd_next (three_way_args repo) (Some content) env e2 in
      if (cmd_rc (three_way_args repo) (Some content) env e2 =? 0)%Z then (applied, "", e3)
      else (failed, diagnostic repo env content e e2, e3).

(** The outcomes of a group, each patch on the index its predecessors left. *)
Fixpoint outcomes (step : string → Ext → Status * string * Ext) (group : list Patch) (e : Ext)
    : list Status :=
  match group with
  | [] => []
  | (_, content) :: rest =>
      match step content e with
      | (status, _, e') => status :: outcomes step rest e'
      end
  end.

Fixpoint index_after (step : string → Ext → Status * string * Ext) (group : list Patch) (e : Ext)
    : Ext :=
  match group with
  | [] => e
  | (_, content) :: rest => index_after step rest (step content e).2
  end.

(** The patches of a group whose outcome is [applied], in their order. *)
Fixpoint keep_applied (group : list Patch) (statuses : list Status) : list Patch :=
  match group, statuses with
  | p :: rest, applied :: sts => p :: keep_applied rest sts
  | _ :: rest, _ :: sts => keep_applied rest sts
  | _, _ => []
  end.

Definition is_applied (s : Status) : bool :=
  match s with applied => true | _ => false end.

(** The line [run_git] prints for a command, and the state after a run of
    commands [cs] that leaves the outside world [e]; the state after a
    [print]. *)
Definition cmdline (args : list string) : string := "$ " +:+ join " " args.

Definition logged (w : World) (e : Ext) (cs : list (list string)) : World :=
  {| ext := e; dirs := dirs w; stdout := stdout w ++ map cmdline cs; calls := calls w ++ cs |}.

Definition printed (line : string) (w : World) : World :=
  {| ext := ext w; dirs := dirs w; stdout := stdout w ++ [line]; calls := calls w |}.

(** The commands a must-apply patch and a best-effort patch make git run. *)
Definition must_apply_attempts (repo : string) (env : list (string * string)) (content : string)
    (e : Ext) : list (list string) :=
  if (cmd_rc (direct_args repo) (Some content) env e =? 0)%Z then [direct_args repo]
  else [direct_args repo; three_way_args repo].

Definition best_effort_attempts (repo : string) (env : list (string * string)) (content : string)
    (e : Ext) : list (list string) :=
  if (cmd_rc (direct_args repo) (Some content) env e =? 0)%Z then [direct_args repo]
  else if (cmd_rc (reverse_args repo) (Some content) env
             (cmd_next (direct_args repo) (Some content) env e) =? 0)%Z
       then [direct_args repo; reverse_args repo]
       else [direct_args repo; reverse_args repo; three_way_args repo].

(** [w'] comes from [w] by commands that satisfy [ok_call] and printed
    lines that satisfy [ok_line], with the destinations untouched. *)
Definition extends (ok_call : list string → Prop) (ok_line : string → Prop) (w w' : World) : Prop :=
  dirs w' = dirs w
  ∧ ∃ cs lines, calls w' = calls w ++ cs ∧ stdout w' = stdout w ++ lines
                ∧ Forall ok_call cs ∧ Forall ok_line lines.

Definition must_apply_call (repo : string) (c : list string) : Prop :=
  c = direct_args repo ∨ c = three_way_args repo.

Definition not_already_applied (line : string) : Prop :=
  startswith "[already applied] " line = false.

(** The file of a URL is there and can be read, and [p] is its patch. *)
Definition loads (patches_repo folder : string) (e : Ext) (url : string) (p : Patch) : Prop :=
  path_exists (src_path_of patches_repo folder url) e = true
  ∧ path_read_text (src_path_of patches_repo folder url) e = inr p.2
  ∧ p.1 = label_of_url folder url.

Definition same_outside_stdout (w w' : World) : Prop :=
  ext w' = ext w ∧ dirs w' = dirs w ∧ calls w' = calls w.

End Outcomes.





Definition is_hex (c : ascii) : bool :=
  PyStr.is_digit c || PyStr.between 97 102 c || PyStr.between 65 70 c.

(** A commit identifier as [git rev-list] prints it: hexadecimal digits, at
    least one. *)
Definition commit_id (c : string) : Prop :=
  c ≠ "" ∧ PyStr.all_chars is_hex c = true.

(** The files of a series: the names [write_patches] gives the patches from
    [current] on, with their contents. *)
Fixpoint series (current : Z) (patches : list Patch) : list (string * string) :=
  match patches with
  | [] => []
  | (label, content) :: rest => (patch_filename current label, content) :: series (current + 1) rest
  end.

(** A label that can be part of a file name. *)
Definition name_safe (label : string) : Prop :=
  PyStr.mem_char "/" label = false ∧ PyStr.mem_char "000" label = false.

(** [sep] occurs in [s]. *)
Definition occurs (sep s : string) : Prop := ∃ before after, s = before +:+ sep +:+ after.

(** ** The destinations of the series writer *)

(** A component of a resolved path: a name other than the dot names,
    without separator or NUL, of at most [NAME_MAX] bytes. *)
Definition component (c : string) : Prop :=
  c ≠ "" ∧ c ≠ "." ∧ c ≠ ".."
  ∧ PyStr.mem_char "/" c = false ∧ PyStr.mem_char "000" c = false
  ∧ (Posix.utf8_length c ≤ Posix.NAME_MAX)%nat.

(** [path] is the absolute path with the components [comps], below the
    root and shorter than [PATH_MAX] bytes: what [Path.resolve] returns,
    and so what every path made from [ROOT] is. *)
Definition resolved (path : string) (comps : list string) : Prop :=
  path = Posix.render comps ∧ comps ≠ [] ∧ Forall component comps
  ∧ (Posix.utf8_length path < Posix.PATH_MAX)%nat.

(** The directories on the way from the directory with the components
    [cur] down to the one with the components [cur ++ comps], the last
    one included. *)
Fixpoint lineage_from (cur comps : list string) : list string :=
  match comps with
  | [] => []
  | c :: rest => Posix.render (cur ++ [c]) :: lineage_from (cur ++ [c]) rest
  end.
Definition lineage (comps : list string) : list string := lineage_from [] comps.

(** In a file system a path that does not exist has nothing under it. *)
Definition nothing_under_absent (fs : gmap string Node) (dest_dir : string) : Prop :=
  fs !! dest_dir = None → ∀ path, Posix.under dest_dir path = true → fs !! path = None.

(** The way to [dest_dir] is clear: no regular file stands where a
    directory is needed. *)
Definition clear_way (fs : gmap string Node) (dest_dir : string) (comps : list string) : Prop :=
  (∀ path content, path ∈ lineage comps → fs !! path ≠ Some (RegularFile content))
  ∧ nothing_under_absent fs dest_dir.

(** The files fit in [dest_dir]: no name is longer than [NAME_MAX] bytes
    and no path reaches [PATH_MAX] bytes. *)
Definition fits (dest_dir : string) (files : list (string * string)) : Prop :=
  Forall (λ file, (Posix.utf8_length file.1 ≤ Posix.NAME_MAX)%nat
                  ∧ (Posix.utf8_length (dest_dir +:+ "/" +:+ file.1) < Posix.PATH_MAX)%nat) files.

(** The file system with the directories [paths], with the [files] in
    [dest_dir], and what a run of the series writer that returns leaves:
    [dest_dir] emptied, the directories down to it, and the files. *)
Definition with_dirs (paths : list string) (fs : gmap string Node) : gmap string Node :=
  foldr (λ path, <[path := Directory]>) fs paths.
Definition with_files (dest_dir : string) (files : list (string * string))
    (fs : gmap string Node) : gmap string Node :=
  foldl (λ fs file, <[dest_dir +:+ "/" +:+ file.1 := RegularFile file.2]> fs) fs files.
Definition installed (dest_dir : string) (comps : list string) (files : list (string * string))
    (fs : gmap string Node) : gmap string Node :=
  with_files dest_dir files (with_dirs (lineage comps) (Posix.remove_tree dest_dir fs)).

(** A piece [pathlib] keeps of a path, without separator. *)
Definition piece (c : string) : Prop :=
  PyStr.mem_char "/" c = false ∧ Posix.kept c = true.

(** [fs'] is [fs] with directories among [paths] that were missing. *)
Definition grown (paths : list string) (fs fs' : gmap string Node) : Prop :=
  ∀ path, fs' !! path = fs !! path
          ∨ (path ∈ paths ∧ fs !! path = None ∧ fs' !! path = Some Directory).

(** The file system the loop runs on: the directories down to [dest_dir]
    are there, and [dest_dir] holds no directory. *)
Definition ready (fs : gmap string Node) (dest_dir : string) (comps : list string) : Prop :=
  (∀ q, q ∈ lineage comps → fs !! q = Some Directory)
  ∧ (∀ k, Posix.under dest_dir k = true → fs !! k ≠ Some Directory).

(** ** Notions the proofs use *)

(** The character [strip("-")] removes. *)
Definition is_hyphen (c : ascii) : bool := PyStr.mem_char c "-".

(** The number a string of digits stands for. *)
Definition digits_value (s : string) : N :=
  match NilEmpty.uint_of_string s with
  | Some d => N.of_uint d
  | None => 0
  end.

Definition digit_or_sign (c : ascii) : bool := PyStr.is_digit c || PyStr.eqc c "-".

(** The digits of [f"{n:04d}"] after the sign: [str(n)] with zeros in front
    up to [width] characters. *)
Definition padded (width : nat) (n : N) : string :=
  PyStr.zeros (width - String.length (PyStr.str_N n)) +:+ PyStr.str_N n.

(** ** A small platform to run the script on

    The index is one file, a list of lines.  A patch [old>new] replaces the
    first line [old] by [new]; its inverse applies when a line [new] is
    there; the three-way application also accepts a line that [old] is a
    prefix of.  The other commands answer from tables. *)

Module Toy.
Import PyStr.

Record ToyExt : Type := {
  index : list string;
  history : string;
  sources : string;
  files : list (string * string);
  temps : nat
}.

Definition set_index (lines : list string) (e : ToyExt) : ToyExt :=
  {| index := lines; history := history e; sources := sources e; files := files e;
     temps := temps e |}.

Fixpoint replace_first (p : string → bool) (new : string) (lines : list string)
    : option (list string) :=
  match lines with
  | [] => None
  | l :: r => if p l then Some (new :: r) else cons l <$> replace_first p new r
  end.

Definition toy_apply (mode content : string) (e : ToyExt) : (Z * string * string) * ToyExt :=
  match partition ">" content with
  | None => ((128%Z, "", "error: corrupt patch"), e)
  | Some (old, new) =>
      if String.eqb mode "--check" then
        if bool_decide (new ∈ index e) then ((0%Z, "", ""), e)
        else ((1%Z, "", "error: patch does not apply in reverse: " +:+ content), e)
      else
        let p := if String.eqb mode "--3way" then startswith old else String.eqb old in
        match replace_first p new (index e) with
        | Some lines => ((0%Z, "", ""), set_index lines e)
        | None => ((1%Z, "", "error: patch does not apply: " +:+ content +:+ nl), e)
        end
  end.

Definition toy_run (args : list string) (input : option string)
    (env : option (list (string * string))) (e : ToyExt) : (Z * string * string) * ToyExt :=
  let arg_is (i : nat) (s : string) := String.eqb (default "" (args !! i)) s in
  if arg_is 0 "bash" then ((0%Z, sources e, ""), e)
  else if arg_is 3 "apply" then toy_apply (default "" (last args)) (default "" input) e
  else if arg_is 3 "rev-list" then ((0%Z, history e, ""), e)
  else if arg_is 3 "format-patch" then ((0%Z, "patch of " +:+ default "" (args !! 5), ""), e)
  else ((0%Z, "", ""), e).

Definition toy_lookup (path : string) (e : ToyExt) : option string :=
  snd <$> List.find (λ f, String.eqb (fst f) path) (files e).

Definition toy_platform : Platform := {|
  Ext := ToyExt;
  subprocess_run := toy_run;
  named_temporary_file e :=
    ("/tmp/tmp" +:+ str (Z.of_nat (temps e)),
     {| index := index e; history := history e; sources := sources e; files := files e;
        temps := S (temps e) |});
  path_unlink _ e := e;
  path_exists path e := bool_decide (is_Some (toy_lookup path e));
  path_read_text path e :=
    match toy_lookup path e with
    | Some content => inr content
    | None => inl (FileNotFoundError path)
    end;
  path_div a b := a +:+ "/" +:+ b;
  path_stem path := before_last "." (after_last "/" path)
|}.

#[local] Existing Instance toy_platform.

Definition toy_plumbing : Plumbing := {|
  ensure_ref _ remote_name _ _ _ label := mret ("refs/remotes/" +:+ remote_name +:+ "/pin-" +:+ label);
  resolve_ubuntu_base _ := mret "Ubuntu-hwe-6.17-base";
  bulk_subjects _ hashes := mret (list_to_map ((λ h, (h, "TUXEDO: change " +:+ h)) <$> hashes));
  checkout _ _ _ _ _ := mret ();
  stage_cachyos_config _ _ := mret ();
  create_patches_tarball _ _ := mret ();
  render_pkgbuild _ _ _ _ _ _ := mret ()
|}.

#[local] Existing Instance toy_plumbing.

Definition toy_ext (lines : list string) : ToyExt :=
  {| index := lines; history := ""; sources := ""; files := []; temps := 0 |}.

Definition toy_world (e : ToyExt) : World :=
  {| ext := e; dirs := ∅; stdout := []; calls := [] |}.

End Toy.

(** Inputs for concrete runs on the small platform. *)

Module ToyRuns.
Import Toy.
#[local] Existing Instance toy_platform.
#[local] Existing Instance toy_plumbing.

(** A run on an index of two lines. *)
Definition w_ab : World := toy_world (toy_ext ["a"; "b"]).
Definition toy_cachyos : list Patch := [("m1", "a>a1")].
Definition toy_tuxedo : list Patch :=
  [("t1", "b>c"); ("t2", "b>c"); ("t3", "zz>y"); ("t4", "a>q")].

Definition toy_commits (n : nat) : list string :=
  (λ i, PyStr.zeros 36 +:+ PyStr.fmt_04d (Z.of_nat i)) <$> seq 1 n.

Definition toy_history (n : nat) : World :=
  toy_world {| index := []; history := PyStr.join nl (toy_commits n); sources := "";
               files := []; temps := 0 |}.

Definition toy_sources : string :=
  "https://cdn.kernel.org/pub/linux/kernel/v6.x/linux-6.19.tar.xz" +:+ nl
  +:+ "config" +:+ nl
  +:+ "https://raw.githubusercontent.com/cachyos/kernel-patches/master/6.19/all/0001-cachyos-base-all.patch"
  +:+ nl
  +:+ "https://raw.githubusercontent.com/cachyos/kernel-patches/master/6.19/sched/0001-bore-cachy.patch"
  +:+ nl.

Definition toy_checkout (files : list (string * string)) : World :=
  toy_world {| index := []; history := ""; sources := toy_sources; files := files; temps := 0 |}.

Definition toy_patch_files : list (string * string) :=
  [("/root/cachyos-patches/6.19/all/0001-cachyos-base-all.patch", "diff --git a/x b/x");
   ("/root/cachyos-patches/6.19/sched/0001-bore-cachy.patch", "diff --git a/y b/y")].

Definition w_stale : World :=
  {| ext := toy_ext [];
     dirs := {[ "/root" := Directory; "/root/package" := Directory;
                "/root/package/patches" := Directory;
                "/root/package/patches/0007-stale.patch" := RegularFile "old";
                "/root/package/patches/backup" := Directory;
                "/root/package/patches/backup/0001-older.patch" := RegularFile "older" ]};
     stdout := []; calls := [] |}.

End ToyRuns.

(** ** The functions around the engine *)

(** Writing a new file outside the destinations: what [tmp.write] leaves in
    a temporary file once it is closed. *)
Class Storage {P : Platform} : Type := {
  path_write_text : string → string → Ext → Ext
}.

(** The constants of the Ubuntu base, which [resolve_ubuntu_base] reads. *)
Record UbuntuConfig : Type := {
  UBUNTU_CODENAME : string;
  UBUNTU_BRANCH : string;
  UBUNTU_REF : string
}.

Definition script_ubuntu : UbuntuConfig :=
  {| UBUNTU_CODENAME := "noble"; UBUNTU_BRANCH := "hwe-6.17-next"; UBUNTU_REF := "" |}.

Module Script.
Section Script.
Context {P : Platform}.
Import PyStr.

(** What a command returns on the outside world, with the environment the
    script passes or [None] for the inherited one. *)
Definition proc_rc (args : list string) (input : option string)
    (env : option (list (string * string))) (e : Ext) : Z :=
  (subprocess_run args input env e).1.1.1.
Definition proc_out (args : list string) (input : option string)
    (env : option (list (string * string))) (e : Ext) : string :=
  (subprocess_run args input env e).1.1.2.
Definition proc_err (args : list string) (input : option string)
    (env : option (list (string * string))) (e : Ext) : string :=
  (subprocess_run args input env e).1.2.
Definition proc_next (args : list string) (input : option string)
    (env : option (list (string * string))) (e : Ext) : Ext :=
  (subprocess_run args input env e).2.

(** [[l.strip() for l in out.splitlines() if l.strip()]] *)
Definition stripped_lines (out : string) : list string :=
  List.filter (λ line, negb (is_empty line)) (map strip (splitlines out)).

Definition list_refs (repo pattern : string) (sort : option string) : M (list string) :=
  let cmd := ["git"; "-C"; repo; "for-each-ref"; "--format=%(refname)"]
             ++ (if truthy sort then ["--sort=" +:+ default "" sort] else [])
             ++ [pattern] in
  res ← run_git cmd true false None None;
  mret (stripped_lines (captured (cp_stdout res))).

Definition rev_list (repo ref : string) : M (gset string) :=
  res ← run_git ["git"; "-C"; repo; "rev-list"; "--no-merges"; ref] true false None None;
  if negb (returncode res =? 0)%Z then mret ∅
  else mret (list_to_set (stripped_lines (captured (cp_stdout res)))).

(** [parts = line.split(" ", 1)], then the key and the value stored. *)
Definition subject_entry (line : string) : string * string :=
  match partition " " line with
  | Some (hash, subject) => (hash, subject)
  | None => (line, "")
  end.

(** The loop of [bulk_subjects] over the lines of the output. *)
Definition parse_subjects (out : string) : gmap string string :=
  foldl (λ mapping line,
           if is_empty (strip line) then mapping
           else <[(subject_entry line).1 := (subject_entry line).2]> mapping)
    ∅ (splitlines out).

(** What is written to the temporary file: a line per hash. *)
Fixpoint hash_lines (hashes : list string) : string :=
  match hashes with
  | [] => ""
  | h :: rest => h +:+ nl +:+ hash_lines rest
  end.

Definition subjects_cmd (tmp_path repo : string) : list string :=
  ["xargs"; "-a"; tmp_path; "-r"; "git"; "-C"; repo; "show"; "-s"; "--format=%H %s"].

Definition bulk_subjects {S : Storage} (repo : string) (hashes : list string)
    : M (gmap string string) :=
  if bool_decide (hashes = []) then mret ∅
  else
    tmp_path ← (λ w, let '(name, e) := named_temporary_file (ext w) in
                     (inr name, set_ext (path_write_text name (hash_lines hashes) e) w));
    try_finally
      (let cmd := subjects_cmd tmp_path repo in
       print ("$ " +:+ join " " cmd);;
       res ← run_git cmd true false None None;
       mret (parse_subjects (captured (cp_stdout res))))
      (λ w, (inr (), set_ext (path_unlink tmp_path (ext w)) w)).

Definition order_on_ref (repo ref : string) (include_set : gset string) : M (list string) :=
  res ← run_git ["git"; "-C"; repo; "rev-list"; "--reverse"; "--no-merges"; ref]
          true false None None;
  mret (List.filter (λ h, bool_decide (h ∈ include_set)) (splitlines (captured (cp_stdout res)))).

Definition clone_args (remote_name remote_url repo_path : string) : list string :=
  ["git"; "clone"; "--origin"; remote_name; "--no-checkout"; remote_url; repo_path].
Definition remote_args (repo_path : string) : list string := ["git"; "-C"; repo_path; "remote"].
Definition remote_add_args (repo_path remote_name remote_url : string) : list string :=
  ["git"; "-C"; repo_path; "remote"; "add"; remote_name; remote_url].
Definition remote_set_url_args (repo_path remote_name remote_url : string) : list string :=
  ["git"; "-C"; repo_path; "remote"; "set-url"; remote_name; remote_url].

(** [repo_dir] stands for [Path(repo_dir)] and for [str(repo_path)]. *)
Definition ensure_remote (repo_dir remote_name remote_url branch : string) (fetch_all : bool)
    : M unit :=
  let repo_path := repo_dir in
  there ← exists_ repo_path;
  (if negb there then
     run_git (clone_args remote_name remote_url repo_path) false true None None;; mret ()
   else mret ());;
  git_there ← exists_ (path_div repo_path ".git");
  if negb git_there then
    raise (ValueError (repo_path +:+ " exists but is not a git repository"))
  else
    remotes_res ← run_git (remote_args repo_path) true false None None;
    let remotes := stripped_lines (captured (cp_stdout remotes_res)) in
    (if negb (bool_decide (remote_name ∈ remotes)) then
       run_git (remote_add_args repo_path remote_name remote_url) false true None None
     else
       run_git (remote_set_url_args repo_path remote_name remote_url) false true None None);;
    if fetch_all then
      run_git ["git"; "-C"; repo_path; "fetch"; remote_name; "--tags"] false false None None;;
      run_git ["git"; "-C"; repo_path; "fetch"; remote_name;
               "+refs/heads/*:refs/remotes/" +:+ remote_name +:+ "/*"] false false None None;;
      mret ()
    else mret ().

Definition remote_prefix (remote_name : string) : string :=
  "refs/remotes/" +:+ remote_name +:+ "/".

Definition pin_ref_of (remote_name label : string) : string :=
  "refs/remotes/" +:+ remote_name +:+ "/pin-" +:+ label.

Definition pin_fetch_args (repo_dir remote_name target_ref pin_ref : string) : list string :=
  ["git"; "-C"; repo_dir; "fetch"; remote_name; "+" +:+ target_ref +:+ ":" +:+ pin_ref].

Definition ensure_ref (repo_dir remote_name remote_url branch ref label : string) : M string :=
  let target_ref := if is_empty ref then branch else ref in
  if is_empty target_ref then sys_exit ("missing required ref for " +:+ label)
  else
    ensure_remote repo_dir remote_name remote_url branch false;;
    pinned ← (if startswith (remote_prefix remote_name) target_ref then
                refs ← list_refs repo_dir target_ref None;
                mret (negb (bool_decide (refs = [])))
              else mret false);
    if pinned : bool then mret target_ref
    else
      let pin_ref := pin_ref_of remote_name label in
      fetch_res ← run_git (pin_fetch_args repo_dir remote_name target_ref pin_ref)
                    true false None None;
      if negb (returncode fetch_res =? 0)%Z then
        sys_exit ("failed to fetch ref " +:+ target_ref +:+ " for " +:+ label +:+ " from "
                  +:+ remote_name +:+ ": " +:+ captured (cp_stderr fetch_res))
      else mret pin_ref.

Definition checkout (repo_dir remote_name remote_url branch ref : string) : M unit :=
  let repo_path := repo_dir in
  ensure_remote repo_path remote_name remote_url branch false;;
  let target_ref := if is_empty ref then branch else ref in
  if is_empty target_ref then sys_exit ("missing required ref for checkout in " +:+ repo_path)
  else
    fetch_res ← run_git ["git"; "-C"; repo_path; "fetch"; remote_name; target_ref]
                  true false None None;
    if negb (returncode fetch_res =? 0)%Z then
      sys_exit ("Failed to fetch ref " +:+ target_ref +:+ " from " +:+ remote_name +:+ " in "
                +:+ repo_path +:+ ": " +:+ captured (cp_stderr fetch_res))
    else
      run_git ["git"; "-C"; repo_path; "switch"; "--detach"; "FETCH_HEAD"] false true None None;;
      mret ().

(** [text.strip().splitlines()[0]] for a [text] whose strip is not empty:
    the strip then starts with a character that is no line boundary, so
    there is a first line. *)
Definition first_line (text : string) : string := hd "" (splitlines (strip text)).

(** The loop of [resolve_ubuntu_base] over the merged tags: blank lines are
    passed over, and the first tag is the only one tried. *)
Fixpoint newest_tag_hash (repo : string) (lines : list string) : M (option string) :=
  match lines with
  | [] => mret None
  | line :: rest =>
      let tag := strip line in
      if is_empty tag then newest_tag_hash repo rest
      else
        tag_hash ← run_git ["git"; "-C"; repo; "rev-parse"; tag] true false None None;
        if (returncode tag_hash =? 0)%Z && negb (is_empty (strip (captured (cp_stdout tag_hash))))
        then mret (Some (first_line (captured (cp_stdout tag_hash))))
        else mret None
  end.

Definition UBUNTU_REMOTE (u : UbuntuConfig) : string :=
  "git://git.launchpad.net/~ubuntu-kernel/ubuntu/+source/linux/+git/" +:+ UBUNTU_CODENAME u.

Definition resolve_ubuntu_base (cfg : Config) (u : UbuntuConfig) (tuxedo_ref : string) : M string :=
  let repo := LINUX_REPO cfg in
  if negb (is_empty (UBUNTU_REF u)) then
    ensure_ref repo "ubuntu" (UBUNTU_REMOTE u) (UBUNTU_BRANCH u) (UBUNTU_REF u) "ubuntu"
  else
    ensure_remote repo "ubuntu" (UBUNTU_REMOTE u) (UBUNTU_BRANCH u) false;;
    run_git ["git"; "-C"; repo; "fetch"; "ubuntu"; "--tags"] false false None None;;
    let tag_pattern := "Ubuntu-hwe-6.17-*" in
    tags_res ← run_git ["git"; "-C"; repo; "tag"; "--list"; tag_pattern; "--merged"; tuxedo_ref;
                        "--sort=-version:refname"] true false None None;
    found ← newest_tag_hash repo (splitlines (captured (cp_stdout tags_res)));
    match found with
    | Some hash => mret hash
    | None =>
        ubuntu_tip_ref ← ensure_ref repo "ubuntu" (UBUNTU_REMOTE u) (UBUNTU_BRANCH u) ""
                           "ubuntu-tip";
        mb_res ← run_git ["git"; "-C"; repo; "merge-base"; tuxedo_ref; ubuntu_tip_ref]
                   true false None None;
        if negb (returncode mb_res =? 0)%Z || is_empty (strip (captured (cp_stdout mb_res))) then
          sys_exit "failed to determine ubuntu merge-base with tuxedo"
        else mret (first_line (captured (cp_stdout mb_res)))
    end.

End Script.
End Script.

(** ** What the commands are run with, and what they answer *)

Section Replies.
Context {P : Platform}.
Import PyStr Script.

Definition no_linebreak (s : string) : Prop :=
  all_chars (λ c, negb (is_linebreak c)) s = true.

(** The message of the [CalledProcessError] that [run_git] raises. *)
Definition failure_message (capture : bool) (out err : string) : string :=
  first_nonempty [strip (if capture then err else ""); strip (if capture then out else "")]
    "git command failed".

Definition completed (capture : bool) (rc : Z) (out err : string) : CompletedProcess :=
  {| returncode := rc;
     cp_stdout := if capture then Some out else None;
     cp_stderr := if capture then Some err else None |}.

(** The arguments of [git rev-list] in [rev_list_range]. *)
Definition rev_list_range_args (repo include : string) (exclude : list string) (reverse : bool)
    : list string :=
  ["git"; "-C"; repo; "rev-list"; "--no-merges"]
  ++ (if reverse then ["--reverse"] else [])
  ++ [include]
  ++ map (λ ex, "^" +:+ ex) (List.filter (λ ex, negb (is_empty ex)) exclude).

Definition for_each_ref_args (repo pattern : string) (sort : option string) : list string :=
  ["git"; "-C"; repo; "for-each-ref"; "--format=%(refname)"]
  ++ (if truthy sort then ["--sort=" +:+ default "" sort] else [])
  ++ [pattern].

Definition rev_list_args (repo ref : string) : list string :=
  ["git"; "-C"; repo; "rev-list"; "--no-merges"; ref].

Definition order_args (repo ref : string) : list string :=
  ["git"; "-C"; repo; "rev-list"; "--reverse"; "--no-merges"; ref].

(** What [git show -s --format="%H %s"] prints for hashes with subjects. *)
Definition subject_lines (pairs : list (string * string)) : string :=
  hash_lines ((λ hs, hs.1 +:+ " " +:+ hs.2) <$> pairs).

Definition store_subject (mapping : gmap string string) (hs : string * string)
    : gmap string string :=
  <[hs.1 := hs.2]> mapping.

Definition subject_pair (hs : string * string) : Prop := commit_id hs.1 ∧ no_linebreak hs.2.

End Replies.

(** ** The repository after [ensure_remote] *)

Section Remotes.
Context {P : Platform}.
Import PyStr Script.

(** The outside world once the repository is there: as it was, or after
    the clone. *)
Definition cloned (repo_dir remote_name remote_url : string) (e : Ext) : Ext :=
  if path_exists repo_dir e then e
  else proc_next (clone_args remote_name remote_url repo_dir) None None e.

(** The command that sets the remote, chosen from what [git remote] lists. *)
Definition configure_args (repo_dir remote_name remote_url : string) (e : Ext) : list string :=
  if bool_decide (remote_name ∈ stripped_lines (proc_out (remote_args repo_dir) None None e))
  then remote_set_url_args repo_dir remote_name remote_url
  else remote_add_args repo_dir remote_name remote_url.

(** [target_ref = ref or branch] *)
Definition target_of (branch ref : string) : string := if is_empty ref then branch else ref.

(** The tags that the loop of [resolve_ubuntu_base] does not pass over. *)
Definition stripped_lines_of (lines : list string) : list string :=
  List.filter (λ line, negb (is_empty line)) (map strip lines).

Definition rev_parse_args (repo tag : string) : list string :=
  ["git"; "-C"; repo; "rev-parse"; tag].

Definition fetch_tags_args (repo_dir remote_name : string) : list string :=
  ["git"; "-C"; repo_dir; "fetch"; remote_name; "--tags"].
Definition fetch_heads_args (repo_dir remote_name : string) : list string :=
  ["git"; "-C"; repo_dir; "fetch"; remote_name;
   "+refs/heads/*:refs/remotes/" +:+ remote_name +:+ "/*"].

Definition checkout_fetch_args (repo_dir remote_name target_ref : string) : list string :=
  ["git"; "-C"; repo_dir; "fetch"; remote_name; target_ref].
Definition switch_args (repo_dir : string) : list string :=
  ["git"; "-C"; repo_dir; "switch"; "--detach"; "FETCH_HEAD"].

End Remotes.

(** ** What the engine and the writer leave behind *)

Section Frames.
Context {P : Platform}.
Import PyStr.

(** [w'] comes from [w] by the commands [cs], with the destinations
    untouched. *)
Definition ran (cs : list (list string)) (w w' : World) : Prop :=
  dirs w' = dirs w ∧ calls w' = calls w ++ cs.

(** An application of a patch to the index, in one of its three forms. *)
Definition apply_call (repo : string) (c : list string) : Prop :=
  c = direct_args repo ∨ c = reverse_args repo ∨ c = three_way_args repo.

Definition format_patch_args (repo commit : string) : list string :=
  ["git"; "-C"; repo; "format-patch"; "-1"; commit; "--stdout"].

(** The label [collect_commit_patches] gives a commit. *)
Definition label_of_commit (subjects : gmap string string) (commit : string) : string :=
  safe_subject (default "" (subjects !! commit)) commit.

(** The outside world after [git format-patch] has run for the commits of
    [pre] in turn, from [e] on. *)
Definition ext_after_format (repo : string) (pre : list string) (e : Ext) : Ext :=
  foldl (λ e' commit, Script.proc_next (format_patch_args repo commit) None None e') e pre.

(** [git format-patch] returns zero for every commit of [pre], each on the
    outside world its predecessors left. *)
Fixpoint all_formatted (repo : string) (pre : list string) (e : Ext) : Prop :=
  match pre with
  | [] => True
  | commit :: rest =>
      Script.proc_rc (format_patch_args repo commit) None None e = 0%Z
      ∧ all_formatted repo rest (Script.proc_next (format_patch_args repo commit) None None e)
  end.

(** The patches of the commits: the label of each with what
    [git format-patch] printed for it. *)
Fixpoint formatted (repo : string) (subjects : gmap string string) (commits : list string)
    (e : Ext) : list Patch :=
  match commits with
  | [] => []
  | commit :: rest =>
      (label_of_commit subjects commit,
       Script.proc_out (format_patch_args repo commit) None None e)
      :: formatted repo subjects rest
           (Script.proc_next (format_patch_args repo commit) None None e)
  end.

(** The exception [run_git] raises for a [git format-patch] that fails on
    the outside world [e]. *)
Definition format_failure (repo commit : string) (e : Ext) : PyExn :=
  let args := format_patch_args repo commit in
  CalledProcessError (Script.proc_rc args None None e) args
    (Some (Script.proc_out args None None e))
    (failure_message true (Script.proc_out args None None e)
       (Script.proc_err args None None e)).

End Frames.

(** ** The script as a whole *)

(** [main] with the functions of the script for the references, the
    check-outs and the subjects.  Staging the configuration, the archive and
    the manifest stay parameters. *)
Section ScriptMain.
Context {P : Platform} {S : Storage} (cfg : Config) (u : UbuntuConfig).
Context (stage tarball : string → string → M unit).
Context (render : string → string → string → string → list string → list string → M unit).

Definition script_plumbing : Plumbing := {|
  ensure_ref := Script.ensure_ref;
  resolve_ubuntu_base := Script.resolve_ubuntu_base cfg u;
  bulk_subjects := Script.bulk_subjects;
  checkout := Script.checkout;
  stage_cachyos_config := stage;
  create_patches_tarball := tarball;
  render_pkgbuild := render
|}.

End ScriptMain.

(** The last lines [main] prints. *)
Definition summary_lines (cachyos tuxedo applied_tuxedo : Z) : list string :=
  [""; "[summary] cachyos patches: " +:+ PyStr.str cachyos;
   "[summary] tuxedo patches: applied " +:+ PyStr.str applied_tuxedo +:+ " of "
   +:+ PyStr.str tuxedo +:+ ", skipped " +:+ PyStr.str (tuxedo - applied_tuxedo);
   "[summary] Success!"].

(** ** A platform that answers from a list

    The commands are answered in turn from [replies], with a success and
    no output once the list is used up; [present] lists the paths that
    exist.  A temporary file is there from its creation to its removal. *)

Module Canned.
Import PyStr.

Record CannedExt : Type := {
  replies : list (Z * string * string);
  present : list string
}.

Definition canned_run (args : list string) (input : option string)
    (env : option (list (string * string))) (e : CannedExt) : (Z * string * string) * CannedExt :=
  match replies e with
  | [] => ((0%Z, "", ""), e)
  | reply :: rest => (reply, {| replies := rest; present := present e |})
  end.

Definition canned_platform : Platform := {|
  Ext := CannedExt;
  subprocess_run := canned_run;
  named_temporary_file e :=
    ("/tmp/tmp0", {| replies := replies e; present := "/tmp/tmp0" :: present e |});
  path_unlink path e :=
    {| replies := replies e;
       present := List.filter (λ p, negb (String.eqb p path)) (present e) |};
  path_exists path e := bool_decide (path ∈ present e);
  path_read_text path e := inl (FileNotFoundError path);
  path_div a b := a +:+ "/" +:+ b;
  path_stem path := before_last "." (after_last "/" path)
|}.

#[local] Existing Instance canned_platform.

Definition canned_storage : Storage := {|
  path_write_text path content e := e
|}.

Definition canned_world (answers : list (Z * string * string)) (paths : list string) : World :=
  {| ext := {| replies := answers; present := paths |}; dirs := ∅; stdout := []; calls := [] |}.

Definition ok : Z * string * string := (0%Z, "", "").

Definition commit_a : string := "27b53f08bb8b7dcf4e9ae551bc8f9c65a05568ca".
Definition commit_b : string := "1fe04fc050d845eedd28cc16e768e4eac66891a8".

(** A clone of the kernel repository that is already there. *)
Definition linux_paths : list string := ["/root/linux"; "/root/linux/.git"].

(** What git answers to [main_extract]: the nine commands of the two
    references and of the Ubuntu remote, the newest merged tag, its commit,
    and the range. *)
Definition extract_answers : list (Z * string * string) :=
  replicate 9 ok
  ++ [(0%Z, "Ubuntu-hwe-6.17-6.17.0-14.14" +:+ nl, "");
      (0%Z, "9d3c1e0a7b2f4c5d6e7f8091a2b3c4d5e6f70812" +:+ nl, "");
      (0%Z, Script.hash_lines [commit_a; commit_b], "")].

Definition no_stage : string → string → M unit := λ _ _, mret ().
Definition no_render : string → string → string → string → list string → list string → M unit :=
  λ _ _ _ _ _ _, mret ().

Definition w_file_in_the_way : World :=
  {| ext := {| replies := []; present := [] |};
     dirs := {[ "/root/package/patches" := RegularFile "not a directory" ]};
     stdout := []; calls := [] |}.

End Canned.

(** * Proofs *)

(** ** The string operations on examples *)

Example splitlines_ex :
  PyStr.splitlines ("a" +:+ String "013" (String "010" ("b" +:+ String "010" (String "010" "")))) = ["a"; "b"; ""].
Proof. reflexivity. Qed.
Example fmt_ex : map PyStr.fmt_04d [1; 42; 12345; 0; -5; -1234]%Z = ["0001"; "0042"; "12345"; "0000"; "-005"; "-1234"].
Proof. reflexivity. Qed.
Example strip_ex : PyStr.strip_chars "-" "--a-b--" = "a-b" ∧ PyStr.strip "  x y  " = "x y".
Proof. split; reflexivity. Qed.
Example partition_ex : PyStr.partition "/6.19/" "https://h/6.19/sub/0001-x.patch" = Some ("https://h", "sub/0001-x.patch").
Proof. reflexivity. Qed.
Example after_last_ex : map (PyStr.after_last "/") ["a/b/c"; "abc"; "a/"] = ["c"; "abc"; ""].
Proof. reflexivity. Qed.
Example endswith_ex : map (fun s => PyStr.endswith s ".patch") ["x.patch"; "patch"; ".patch"; "x.patch "] = [true; false; true; false].
Proof. reflexivity. Qed.
Example sub_outside_ex :
  map (Re.sub_outside "-") ["a  b"; "!!!"; ""; "x--y"; "(fix) drm/amd: v2"]
  = ["a-b"; "-"; ""; "x--y"; "-fix-drm-amd-v2"].
Proof. reflexivity. Qed.
Example sub_leading_number_ex :
  map Re.sub_leading_number ["0001-cachyos-base-all"; "bore"; "12x-y"; "-x"; "007-"]
  = ["cachyos-base-all"; "bore"; "12x-y"; "-x"; ""].
Proof. reflexivity. Qed.
Example safe_subject_ex :
  map (λ s, safe_subject s "27b53f08bb8b7dcf4e9ae551bc8f9c65a05568ca")
    ["TUXEDO: Add  automatic (update) scripts!"; ""; "!!!"; "-a--b-"]
  = ["TUXEDO-Add-automatic-update-scripts"; "27b53f08bb8b"; "27b53f08bb8b"; "a--b"].
Proof. reflexivity. Qed.
Example before_last_ex :
  PyStr.before_last "." (PyStr.before_last "." "linux-amd-drm-fixes-6.19-2026-01-15.tar.gz")
  = "linux-amd-drm-fixes-6.19-2026-01-15".
Proof. reflexivity. Qed.

(** ** Running the monad, and the engine *)

Section Engine.
Context {P : Platform}.
Import PyStr.

Lemma bind_run {A B : Type} (m : M A) (k : A → M B) (w : World) :
  (m ≫= k) w = match m w with (inl e, w') => (inl e, w') | (inr a, w') => k a w' end.
Proof. reflexivity. Qed.

Lemma run_git_unchecked args input env w :
  run_git args true false input (Some env) w =
    (inr {| returncode := cmd_rc args input env (ext w);
            cp_stdout := Some (cmd_out args input env (ext w));
            cp_stderr := Some (cmd_err args input env (ext w)) |},
     logged w (cmd_next args input env (ext w)) [args]).
Proof.
  unfold run_git, subprocess, print, logged, cmd_rc, cmd_out, cmd_err, cmd_next, cmdline.
  rewrite !bind_run. simpl.
  destruct (subprocess_run args input (Some env) (ext w)) as [[[rc out] err] e']. simpl.
  reflexivity.
Qed.

Lemma logged_logged w e cs e' cs' : logged (logged w e cs) e' cs' = logged w e' (cs ++ cs').
Proof. unfold logged. simpl. by rewrite map_app, !app_assoc. Qed.

Lemma ret_run {A : Type} (a : A) (w : World) : (mret a : M A) w = (inr a, w).
Proof. reflexivity. Qed.

Lemma ret_bind {A B : Type} (a : A) (k : A → M B) (w : World) : (mret a ≫= k) w = k a w.
Proof. reflexivity. Qed.

Lemma print_run line (w : World) :
  print line w = (inr (), {| ext := ext w; dirs := dirs w; stdout := stdout w ++ [line];
                             calls := calls w |}).
Proof. reflexivity. Qed.

Lemma or_chain a b c d fallback :
  por_str (por (por (por (Some a) (Some b)) (Some c)) (Some d)) fallback
  = first_nonempty [a; b; c; d] fallback.
Proof.
  destruct a, b, c, d; reflexivity.
Qed.

Lemma apply_patch_must repo env label content w :
  apply_patch repo env label content false w =
    (inr ((must_apply_outcome repo env content (ext w)).1),
     logged w (must_apply_outcome repo env content (ext w)).2
       (must_apply_attempts repo env content (ext w))).
Proof.
  unfold apply_patch, must_apply_outcome, must_apply_attempts, diagnostic, direct_args, three_way_args.
  cbv zeta. rewrite bind_run, run_git_unchecked. cbn [returncode cp_stdout cp_stderr].
  destruct (cmd_rc (apply_args repo) (Some content) env (ext w) =? 0)%Z; [reflexivity |].
  rewrite ret_bind, bind_run, run_git_unchecked, logged_logged.
  cbn [returncode cp_stdout cp_stderr ext logged].
  destruct (cmd_rc (apply_args repo ++ ["--3way"]) _ _ _ =? 0)%Z; [reflexivity |].
  rewrite ret_run, or_chain. reflexivity.
Qed.

Lemma apply_patch_best repo env label content w :
  apply_patch repo env label content true w =
    (inr ((best_effort_outcome repo env content (ext w)).1),
     logged w (best_effort_outcome repo env content (ext w)).2
       (best_effort_attempts repo env content (ext w))).
Proof.
  unfold apply_patch, best_effort_outcome, best_effort_attempts, diagnostic,
    direct_args, three_way_args, reverse_args.
  cbv zeta. rewrite bind_run, run_git_unchecked. cbn [returncode cp_stdout cp_stderr].
  destruct (cmd_rc (apply_args repo) (Some content) env (ext w) =? 0)%Z; [reflexivity |].
  rewrite !bind_run, run_git_unchecked.
  cbn [returncode cp_stdout cp_stderr ext logged]. rewrite ret_run.
  destruct (cmd_rc (apply_args repo ++ ["--reverse"; "--check"]) _ _ _ =? 0)%Z.
  - rewrite logged_logged. reflexivity.
  - rewrite bind_run, run_git_unchecked, !logged_logged.
    cbn [returncode cp_stdout cp_stderr ext logged].
    destruct (cmd_rc (apply_args repo ++ ["--3way"]) _ _ _ =? 0)%Z; [reflexivity |].
    rewrite ret_run, or_chain. reflexivity.
Qed.

Lemma for_each_cons {A S : Type} (x : A) (r : list A) (s : S) (body : S → A → M S) (w : World) :
  for_each (x :: r) s body w
  = match body s x w with (inl e, w') => (inl e, w') | (inr s', w') => for_each r s' body w' end.
Proof. reflexivity. Qed.

Lemma must_apply_not_skipped repo env content e :
  (must_apply_outcome repo env content e).1.1 ≠ skipped.
Proof.
  unfold must_apply_outcome.
  repeat (destruct (_ =? _)%Z); simpl; discriminate.
Qed.

(** One turn of the must-apply loop. *)
Lemma apply_cachyos_step repo env base label content rest w :
  apply_cachyos repo env base ((label, content) :: rest) w
  = let o := must_apply_outcome repo env content (ext w) in
    let w1 := logged (printed ("[applying CachyOS patch] " +:+ label) w) o.2
                (must_apply_attempts repo env content (ext w)) in
    match o.1.1 with
    | failed => (inl (cachyos_error base label o.1.2), w1)
    | _ => apply_cachyos repo env base rest w1
    end.
Proof.
  unfold apply_cachyos. rewrite for_each_cons. cbv beta iota.
  rewrite bind_run, print_run, bind_run.
  fold (printed ("[applying CachyOS patch] " +:+ label) w). rewrite apply_patch_must.
  cbn [ext printed]. cbv zeta.
  pose proof (must_apply_not_skipped repo env content (ext w)) as Hns.
  destruct (must_apply_outcome repo env content (ext w)) as [[st msg] e']. simpl in *.
  destruct st; [reflexivity | congruence | reflexivity].
Qed.

(** One turn of the best-effort loop. *)
Lemma test_tuxedo_step repo env label content rest applied_tuxedo failed_tuxedo w :
  test_tuxedo repo env ((label, content) :: rest) (applied_tuxedo, failed_tuxedo) w
  = let o := best_effort_outcome repo env content (ext w) in
    let w1 := logged (printed ("[testing Tuxedo patch] " +:+ label) w) o.2
                (best_effort_attempts repo env content (ext w)) in
    match o.1.1 with
    | applied => test_tuxedo repo env rest (applied_tuxedo ++ [(label, content)], failed_tuxedo) w1
    | skipped =>
        test_tuxedo repo env rest (applied_tuxedo, failed_tuxedo)
          (printed ("[already applied] " +:+ label +:+ ": " +:+ o.1.2) w1)
    | failed => test_tuxedo repo env rest (applied_tuxedo, failed_tuxedo ++ [(label, o.1.2)]) w1
    end.
Proof.
  unfold test_tuxedo. rewrite for_each_cons. cbv beta iota.
  rewrite bind_run, print_run, bind_run.
  fold (printed ("[testing Tuxedo patch] " +:+ label) w). rewrite apply_patch_best.
  cbn [ext printed]. cbv zeta.
  destruct (best_effort_outcome repo env content (ext w)) as [[st msg] e']. simpl.
  destruct st; reflexivity.
Qed.

Lemma extends_refl ok_call ok_line w : extends ok_call ok_line w w.
Proof.
  split; [reflexivity |]. exists [], []. rewrite !app_nil_r. repeat split; constructor.
Qed.

Lemma extends_trans ok_call ok_line w1 w2 w3 :
  extends ok_call ok_line w1 w2 → extends ok_call ok_line w2 w3 → extends ok_call ok_line w1 w3.
Proof.
  intros (Hd1 & cs1 & l1 & Hc1 & Hs1 & Hf1 & Hg1) (Hd2 & cs2 & l2 & Hc2 & Hs2 & Hf2 & Hg2).
  split; [congruence |]. exists (cs1 ++ cs2), (l1 ++ l2).
  rewrite Hc2, Hc1, Hs2, Hs1, !app_assoc. repeat split; by apply Forall_app.
Qed.

Lemma extends_printed (ok_call : list string → Prop) (ok_line : string → Prop) line w :
  ok_line line → extends ok_call ok_line w (printed line w).
Proof.
  intros H. split; [reflexivity |]. exists [], [line]. simpl. rewrite app_nil_r.
  repeat split; repeat constructor. exact H.
Qed.

Lemma extends_logged (ok_call : list string → Prop) (ok_line : string → Prop) w e cs :
  Forall ok_call cs → Forall ok_line (map cmdline cs) → extends ok_call ok_line w (logged w e cs).
Proof. intros H1 H2. split; [reflexivity |]. by exists cs, (map cmdline cs). Qed.

Lemma must_apply_attempts_calls repo env content e :
  Forall (must_apply_call repo) (must_apply_attempts repo env content e).
Proof.
  unfold must_apply_attempts, must_apply_call.
  destruct (_ =? _)%Z; repeat (constructor; [tauto |]); constructor.
Qed.

Lemma cmdline_not_already_applied cs : Forall not_already_applied (map cmdline cs).
Proof. induction cs; constructor; [reflexivity | assumption]. Qed.

Lemma apply_cachyos_nil repo env base w : apply_cachyos repo env base [] w = (inr (), w).
Proof. reflexivity. Qed.

(** The must-apply loop starts direct and three-way applications only and
    prints no line of an already applied patch; it leaves the destinations
    alone. *)
Lemma apply_cachyos_frame repo env base cachyos :
  ∀ w, extends (must_apply_call repo) not_already_applied w
         (apply_cachyos repo env base cachyos w).2.
Proof.
  induction cachyos as [| [label content] rest IH]; intros w.
  - apply extends_refl.
  - rewrite apply_cachyos_step. cbv zeta.
    set (w1 := logged _ _ _).
    assert (extends (must_apply_call repo) not_already_applied w w1) as Hw1.
    { apply (extends_trans _ _ w (printed ("[applying CachyOS patch] " +:+ label) w)).
      - by apply extends_printed.
      - apply extends_logged;
          [apply must_apply_attempts_calls | apply cmdline_not_already_applied]. }
    destruct ((must_apply_outcome repo env content (ext w)).1.1); simpl;
      [eapply extends_trans; [exact Hw1 | apply IH] .. | exact Hw1].
Qed.

(** A group that applies in full: the loop returns, on the index the
    outcomes describe. *)
Lemma apply_cachyos_applied repo env base cachyos :
  ∀ w, Forall (eq applied) (outcomes (must_apply_outcome repo env) cachyos (ext w)) →
       (apply_cachyos repo env base cachyos w).1 = inr ()
       ∧ ext (apply_cachyos repo env base cachyos w).2
         = index_after (must_apply_outcome repo env) cachyos (ext w).
Proof.
  induction cachyos as [| [label content] rest IH]; intros w Hall.
  - by split.
  - rewrite apply_cachyos_step. cbv zeta. simpl in Hall |- *.
    destruct (must_apply_outcome repo env content (ext w)) as [[st msg] e'] eqn:Ho.
    inversion Hall as [| ? ? Hst Hrest]; subst. simpl.
    apply (IH (logged _ e' _)). exact Hrest.
Qed.

Lemma apply_cachyos_returns repo env base cachyos :
  ∀ w, (apply_cachyos repo env base cachyos w).1 = inr () →
       Forall (eq applied) (outcomes (must_apply_outcome repo env) cachyos (ext w)).
Proof.
  induction cachyos as [| [label content] rest IH]; intros w Hret.
  - constructor.
  - rewrite apply_cachyos_step in Hret. cbv zeta in Hret. simpl.
    pose proof (must_apply_not_skipped repo env content (ext w)) as Hns.
    destruct (must_apply_outcome repo env content (ext w)) as [[st msg] e'] eqn:Ho.
    simpl in *. destruct st; [| congruence | discriminate].
    constructor; [reflexivity |]. exact (IH _ Hret).
Qed.

(** A patch of the group that fails after its predecessors applied: the
    loop raises there, and the three-way attempt is the last process run. *)
Lemma apply_cachyos_fails repo env base label content post pre :
  ∀ w, Forall (eq applied) (outcomes (must_apply_outcome repo env) pre (ext w)) →
       let e := index_after (must_apply_outcome repo env) pre (ext w) in
       (must_apply_outcome repo env content e).1.1 = failed →
       let r := apply_cachyos repo env base (pre ++ (label, content) :: post) w in
       r.1 = inl (cachyos_error base label (must_apply_outcome repo env content e).1.2)
       ∧ ext r.2 = (must_apply_outcome repo env content e).2
       ∧ last (calls r.2) = Some (three_way_args repo).
Proof.
  induction pre as [| [label0 content0] pre IH]; intros w Hall e Hfail r; subst e r.
  - simpl in *. rewrite apply_cachyos_step. cbv zeta. rewrite Hfail. simpl.
    repeat split. unfold must_apply_attempts.
    revert Hfail. unfold must_apply_outcome.
    destruct (_ =? _)%Z; simpl; [discriminate |]. intros _.
    by rewrite last_app.
  - simpl app. rewrite apply_cachyos_step. cbv zeta. simpl in Hall, Hfail |- *.
    destruct (must_apply_outcome repo env content0 (ext w)) as [[st msg] e'] eqn:Ho.
    inversion Hall as [| ? ? Hst Hrest]; subst. simpl in *.
    apply (IH (logged _ e' _)); assumption.
Qed.

Lemma test_tuxedo_run repo env tuxedo :
  ∀ applied_tuxedo failed_tuxedo w,
    ∃ failed_tuxedo' w',
      test_tuxedo repo env tuxedo (applied_tuxedo, failed_tuxedo) w
      = (inr (applied_tuxedo
              ++ keep_applied tuxedo (outcomes (best_effort_outcome repo env) tuxedo (ext w)),
              failed_tuxedo'), w')
      ∧ dirs w' = dirs w
      ∧ ext w' = index_after (best_effort_outcome repo env) tuxedo (ext w).
Proof.
  induction tuxedo as [| [label content] rest IH]; intros a f w.
  - exists f, w. simpl. rewrite app_nil_r. by repeat split.
  - rewrite test_tuxedo_step. cbv zeta. simpl.
    destruct (best_effort_outcome repo env content (ext w)) as [[st msg] e'] eqn:Ho. simpl.
    destruct st.
    + destruct (IH (a ++ [(label, content)]) f
                  (logged (printed ("[testing Tuxedo patch] " +:+ label) w) e'
                     (best_effort_attempts repo env content (ext w))))
        as (f' & w' & Hrun & Hd & He).
      exists f', w'. rewrite Hrun, <- app_assoc. by repeat split.
    + destruct (IH a f
                  (printed ("[already applied] " +:+ label +:+ ": " +:+ msg)
                     (logged (printed ("[testing Tuxedo patch] " +:+ label) w) e'
                        (best_effort_attempts repo env content (ext w)))))
        as (f' & w' & Hrun & Hd & He).
      exists f', w'. rewrite Hrun. by repeat split.
    + destruct (IH a (f ++ [(label, msg)])
                  (logged (printed ("[testing Tuxedo patch] " +:+ label) w) e'
                     (best_effort_attempts repo env content (ext w))))
        as (f' & w' & Hrun & Hd & He).
      exists f', w'. rewrite Hrun. by repeat split.
Qed.

Lemma run_git_checked args env w :
  run_git args false true None (Some env) w =
    (if (cmd_rc args None env (ext w) =? 0)%Z
     then inr {| returncode := cmd_rc args None env (ext w); cp_stdout := None; cp_stderr := None |}
     else inl (CalledProcessError (cmd_rc args None env (ext w)) args None "git command failed"),
     logged w (cmd_next args None env (ext w)) [args]).
Proof.
  unfold run_git, subprocess, print, logged, cmd_rc, cmd_next, cmdline.
  rewrite !bind_run. simpl.
  destruct (subprocess_run args None (Some env) (ext w)) as [[[rc out] err] e']. simpl.
  destruct (rc =? 0)%Z; reflexivity.
Qed.

Lemma print_failed_run (failed_tuxedo : list (string * string)) :
  ∀ w, ∃ w', for_each failed_tuxedo ()
               (λ _ '(lbl, msg), print ("  - " +:+ lbl +:+ ": " +:+ msg)) w = (inr (), w')
             ∧ same_outside_stdout w w'.
Proof.
  induction failed_tuxedo as [| [lbl msg] rest IH]; intros w; [by exists w |].
  rewrite for_each_cons. cbv beta iota. rewrite print_run.
  destruct (IH (printed ("  - " +:+ lbl +:+ ": " +:+ msg) w)) as (w' & Hrun & He & Hd & Hc).
  exists w'. split; [exact Hrun | by repeat split].
Qed.

(** The report of the failed best-effort patches only prints. *)
Lemma report_failed_run (failed_tuxedo : list (string * string)) w :
  ∃ w', ((if bool_decide (failed_tuxedo = []) then mret ()
          else
            print "[tuxedo skipped] patches that failed to apply:";;
            for_each failed_tuxedo () (λ _ '(lbl, msg), print ("  - " +:+ lbl +:+ ": " +:+ msg)))
         : M ()) w = (inr (), w')
        ∧ same_outside_stdout w w'.
Proof.
  destruct (bool_decide (failed_tuxedo = [])); [by exists w |].
  rewrite bind_run, print_run.
  destruct (print_failed_run failed_tuxedo
              (printed "[tuxedo skipped] patches that failed to apply:" w))
    as (w' & Hrun & He & Hd & Hc).
  exists w'. split; [exact Hrun | by repeat split].
Qed.

Lemma try_finally_run {A : Type} (body : M A) (cleanup : M ()) w :
  try_finally body cleanup w
  = match cleanup (body w).2 with
    | (inl e, w'') => (inl e, w'')
    | (inr _, w'') => ((body w).1, w'')
    end.
Proof. unfold try_finally. by destruct (body w). Qed.

Lemma simulate_apply_run repo base cachyos tuxedo w :
  simulate_apply repo base cachyos tuxedo w
  = let index_path := (named_temporary_file (ext w)).1 in
    let r := simulate_body repo base (simulate_env index_path repo) cachyos tuxedo
               (set_ext (named_temporary_file (ext w)).2 w) in
    (r.1, set_ext (path_unlink index_path (ext r.2)) r.2).
Proof.
  unfold simulate_apply. rewrite bind_run.
  destruct (named_temporary_file (ext w)) as [name e0]. cbv zeta. simpl fst. simpl snd.
  rewrite try_finally_run. reflexivity.
Qed.

(** The body, stage by stage. *)
Lemma simulate_body_run repo base env cachyos tuxedo w :
  let rc := cmd_rc (read_tree_args repo base) None env (ext w) in
  let w1 := logged w (cmd_next (read_tree_args repo base) None env (ext w))
              [read_tree_args repo base] in
  (rc ≠ 0%Z →
   simulate_body repo base env cachyos tuxedo w
   = (inl (CalledProcessError rc (read_tree_args repo base) None "git command failed"), w1))
  ∧ (rc = 0%Z → ∀ e w2, apply_cachyos repo env base cachyos w1 = (inl e, w2) →
     simulate_body repo base env cachyos tuxedo w = (inl e, w2))
  ∧ (rc = 0%Z → ∀ w2, apply_cachyos repo env base cachyos w1 = (inr (), w2) →
     ∃ w', simulate_body repo base env cachyos tuxedo w
           = (inr (cachyos ++ keep_applied tuxedo
                     (outcomes (best_effort_outcome repo env) tuxedo (ext w2))), w')
           ∧ dirs w' = dirs w2).
Proof.
  intros rc w1. unfold simulate_body. fold (read_tree_args repo base).
  rewrite bind_run, run_git_checked. fold w1 rc.
  destruct (Z.eqb_spec rc 0) as [Hrc | Hrc].
  - split; [contradiction |]. split; intros _.
    + intros e w2 Hc. by rewrite bind_run, Hc.
    + intros w2 Hc. rewrite bind_run, Hc, bind_run.
      destruct (test_tuxedo_run repo env tuxedo [] [] w2) as (f' & w3 & Hrun & Hd3 & He3).
      rewrite Hrun. cbv beta iota. rewrite bind_run.
      destruct (report_failed_run f' w3) as (w4 & Hrep & He4 & Hd4 & Hc4).
      rewrite Hrep, ret_run. exists w4. split; [reflexivity | congruence].
  - split; [reflexivity |]. split; intros Hz; contradiction.
Qed.

(** C1. A run of [simulate_apply] that returns gives the must-apply patches
    in their input order, every one of them applied, then the best-effort
    patches whose outcome is [applied], in their input order; the skipped
    and the failed ones are left out.  The outcomes are those of git on the
    index: [e1] after [read-tree], [e2] after the must-apply group. *)
Theorem simulate_apply_output repo base_treeish cachyos tuxedo w out w' :
  simulate_apply repo base_treeish cachyos tuxedo w = (inr out, w') →
  let index_path := (named_temporary_file (ext w)).1 in
  let env := simulate_env index_path repo in
  let e1 := cmd_next (read_tree_args repo base_treeish) None env (named_temporary_file (ext w)).2 in
  let e2 := index_after (must_apply_outcome repo env) cachyos e1 in
  out = cachyos ++ keep_applied tuxedo (outcomes (best_effort_outcome repo env) tuxedo e2)
  ∧ Forall (eq applied) (outcomes (must_apply_outcome repo env) cachyos e1).
Proof.
  intros Hrun index_path env e1 e2. rewrite simulate_apply_run in Hrun. cbv zeta in Hrun.
  fold index_path env in Hrun.
  set (w0 := set_ext (named_temporary_file (ext w)).2 w) in Hrun.
  destruct (simulate_body_run repo base_treeish env cachyos tuxedo w0) as (Hbad & Hfail & Hok).
  set (rc := cmd_rc (read_tree_args repo base_treeish) None env (ext w0)) in *.
  set (w1 := logged w0 _ _) in *.
  destruct (Z.eq_dec rc 0%Z) as [Hrc | Hrc].
  - destruct (apply_cachyos repo env base_treeish cachyos w1) as [[e | []] w2] eqn:Hc.
    + rewrite (Hfail Hrc e w2 eq_refl) in Hrun. discriminate.
    + destruct (Hok Hrc w2 eq_refl) as (w3 & Hbody & _). rewrite Hbody in Hrun.
      simpl in Hrun. injection Hrun as <- _.
      assert ((apply_cachyos repo env base_treeish cachyos w1).1 = inr ()) as Hret
        by by rewrite Hc.
      pose proof (apply_cachyos_returns _ _ _ _ _ Hret) as Hall.
      pose proof (apply_cachyos_applied _ _ base_treeish _ _ Hall) as [_ Hext].
      rewrite Hc in Hext. simpl in Hext. rewrite Hext. by split.
  - rewrite (Hbad Hrc) in Hrun. discriminate.
Qed.

(** C10. With [allow_skip=False], [apply_patch] returns [applied] or
    [failed], never [skipped], and starts no reverse check; the must-apply
    loop starts none either and prints no line of an already applied patch. *)
Theorem must_apply_never_reverse_checked repo env base_treeish cachyos w :
  (∀ label content w0,
     ∃ status msg,
       (apply_patch repo env label content false w0).1 = inr (status, msg)
       ∧ (status = applied ∨ status = failed)
       ∧ ∃ cs, calls (apply_patch repo env label content false w0).2 = calls w0 ++ cs
               ∧ (reverse_args repo ∉ cs))
  ∧ ∃ cs lines,
      calls (apply_cachyos repo env base_treeish cachyos w).2 = calls w ++ cs
      ∧ stdout (apply_cachyos repo env base_treeish cachyos w).2 = stdout w ++ lines
      ∧ (reverse_args repo ∉ cs)
      ∧ Forall (λ line, startswith "[already applied] " line = false) lines.
Proof.
  assert (∀ cs, Forall (must_apply_call repo) cs → reverse_args repo ∉ cs) as Hnot.
  { intros cs Hall Hin. rewrite Forall_forall in Hall. destruct (Hall _ Hin) as [H | H].
    - discriminate H.
    - unfold reverse_args, three_way_args in H. apply app_inv_head in H. discriminate H. }
  split.
  - intros label content w0. rewrite apply_patch_must.
    destruct (must_apply_outcome repo env content (ext w0)) as [[st msg] e'] eqn:Ho.
    exists st, msg. split; [reflexivity |]. split.
    + pose proof (must_apply_not_skipped repo env content (ext w0)) as Hns.
      rewrite Ho in Hns. simpl in Hns. destruct st; [by left | congruence | by right].
    + exists (must_apply_attempts repo env content (ext w0)).
      split; [reflexivity | apply Hnot, must_apply_attempts_calls].
  - destruct (apply_cachyos_frame repo env base_treeish cachyos w)
      as (_ & cs & lines & Hc & Hs & Hcs & Hlines).
    exists cs, lines. repeat split; [exact Hc | exact Hs | by apply Hnot | exact Hlines].
Qed.


(** A must-apply patch that fails makes [simulate_apply] raise. *)
Lemma simulate_apply_fails repo base_treeish pre label content post tuxedo w :
  let index_path := (named_temporary_file (ext w)).1 in
  let env := simulate_env index_path repo in
  let e0 := (named_temporary_file (ext w)).2 in
  let e1 := cmd_next (read_tree_args repo base_treeish) None env e0 in
  let e2 := index_after (must_apply_outcome repo env) pre e1 in
  let e3 := cmd_next (direct_args repo) (Some content) env e2 in
  cmd_rc (read_tree_args repo base_treeish) None env e0 = 0%Z →
  Forall (eq applied) (outcomes (must_apply_outcome repo env) pre e1) →
  cmd_rc (direct_args repo) (Some content) env e2 ≠ 0%Z →
  cmd_rc (three_way_args repo) (Some content) env e3 ≠ 0%Z →
  ∃ w',
    simulate_apply repo base_treeish (pre ++ (label, content) :: post) tuxedo w
    = (inl (cachyos_error base_treeish label (diagnostic repo env content e2 e3)), w')
    ∧ dirs w' = dirs w
    ∧ last (calls w') = Some (three_way_args repo)
    ∧ ext w' = path_unlink index_path (cmd_next (three_way_args repo) (Some content) env e3).
Proof.
  intros index_path env e0 e1 e2 e3 Hrc Hpre Hdirect Hthree.
  rewrite simulate_apply_run. cbv zeta. fold index_path env e0.
  set (w0 := set_ext e0 w).
  destruct (simulate_body_run repo base_treeish env (pre ++ (label, content) :: post) tuxedo w0)
    as (_ & Hfail & _).
  set (w1 := logged w0 (cmd_next (read_tree_args repo base_treeish) None env (ext w0))
               [read_tree_args repo base_treeish]) in *.
  assert (must_apply_outcome repo env content e2
          = (failed, diagnostic repo env content e2 e3,
             cmd_next (three_way_args repo) (Some content) env e3)) as Ho.
  { unfold must_apply_outcome. fold e3.
    destruct (Z.eqb_spec (cmd_rc (direct_args repo) (Some content) env e2) 0); [contradiction |].
    destruct (Z.eqb_spec (cmd_rc (three_way_args repo) (Some content) env e3) 0);
      [contradiction | reflexivity]. }
  pose proof (apply_cachyos_fails repo env base_treeish label content post pre w1 Hpre) as Hloop.
  cbv zeta in Hloop. change (index_after _ pre (ext w1)) with e2 in Hloop.
  rewrite Ho in Hloop. destruct (Hloop eq_refl) as (Hres & Hext & Hlast).
  pose proof (apply_cachyos_frame repo env base_treeish (pre ++ (label, content) :: post) w1)
    as (Hdirs & _).
  destruct (apply_cachyos repo env base_treeish (pre ++ (label, content) :: post) w1)
    as [r w2] eqn:Hc.
  simpl in Hres, Hext, Hlast, Hdirs. subst r.
  rewrite (Hfail Hrc _ w2 eq_refl). eexists. split; [reflexivity |].
  simpl. rewrite Hext. by repeat split.
Qed.
End Engine.

Section Package.
Context {P : Platform} {C : Plumbing} (cfg : Config).

(** C2. A must-apply patch that fails the direct and the three-way
    application, after its predecessors applied, makes [simulate_apply] raise
    the [RuntimeError] with the diagnostic git gave; [main_package] ends with
    the same exception, so [write_patches] does not run: the destinations are
    as before, and the failed three-way attempt is the last process started. *)
Theorem must_apply_failure_is_fatal linux_base_ref pre label content post tuxedo w :
  let repo := LINUX_REPO cfg in
  let index_path := (named_temporary_file (ext w)).1 in
  let env := simulate_env index_path repo in
  let e0 := (named_temporary_file (ext w)).2 in
  let e1 := cmd_next (read_tree_args repo linux_base_ref) None env e0 in
  let e2 := index_after (must_apply_outcome repo env) pre e1 in
  let e3 := cmd_next (direct_args repo) (Some content) env e2 in
  cmd_rc (read_tree_args repo linux_base_ref) None env e0 = 0%Z →
  Forall (eq applied) (outcomes (must_apply_outcome repo env) pre e1) →
  cmd_rc (direct_args repo) (Some content) env e2 ≠ 0%Z →
  cmd_rc (three_way_args repo) (Some content) env e3 ≠ 0%Z →
  ∃ w',
    simulate_apply repo linux_base_ref (pre ++ (label, content) :: post) tuxedo w
    = (inl (cachyos_error linux_base_ref label (diagnostic repo env content e2 e3)), w')
    ∧ main_package cfg linux_base_ref (pre ++ (label, content) :: post) tuxedo w
      = (inl (cachyos_error linux_base_ref label (diagnostic repo env content e2 e3)), w')
    ∧ dirs w' = dirs w
    ∧ last (calls w') = Some (three_way_args repo)
    ∧ ext w' = path_unlink index_path (cmd_next (three_way_args repo) (Some content) env e3).
Proof.
  intros repo index_path env e0 e1 e2 e3 Hrc Hpre Hdirect Hthree.
  destruct (simulate_apply_fails repo linux_base_ref pre label content post tuxedo w
              Hrc Hpre Hdirect Hthree) as (w' & Hrun & Hdirs & Hlast & Hext).
  exists w'. split; [exact Hrun |]. split; [| by repeat split].
  unfold main_package. fold repo. rewrite bind_run, Hrun. reflexivity.
Qed.
End Package.

(** ** The materializer and the selection of the commits *)

Section Materializer.
Context {P : Platform}.
Import PyStr.

Lemma collect_commit_patches_run repo commits start_number (subjects : gmap string string) w :
  collect_commit_patches repo commits start_number subjects w
  = (collected_of (for_each commits ([], start_number) (materialize repo subjects) w).1,
     (for_each commits ([], start_number) (materialize repo subjects) w).2).
Proof.
  unfold collect_commit_patches. rewrite bind_run.
  by destruct (for_each _ _ _ w) as [[e | [c k]] w1].
Qed.

(** The loop of [collect_commit_patches] never reads [current]. *)
Lemma collect_loop_independent repo (subjects : gmap string string) commits :
  ∀ collected n1 n2 w,
    collected_of (for_each commits (collected, n1) (materialize repo subjects) w).1
    = collected_of (for_each commits (collected, n2) (materialize repo subjects) w).1
    ∧ (for_each commits (collected, n1) (materialize repo subjects) w).2
      = (for_each commits (collected, n2) (materialize repo subjects) w).2.
Proof.
  induction commits as [| commit rest IH]; intros collected n1 n2 w.
  - by split.
  - rewrite !for_each_cons. unfold materialize at 1 3 5 7. rewrite !bind_run.
    destruct (run_git _ true true None None w) as [[e | res] w1]; [by split |].
    rewrite !ret_run. apply IH.
Qed.

(** C9. [collect_commit_patches] gives the same result and leaves the
    same state whatever [start_number] is. *)
Theorem collect_commit_patches_ignores_start repo commits (subjects : gmap string string)
    (start_number start_number' : Z) w :
  collect_commit_patches repo commits start_number subjects w
  = collect_commit_patches repo commits start_number' subjects w.
Proof.
  rewrite !collect_commit_patches_run.
  destruct (collect_loop_independent repo subjects commits [] start_number start_number' w)
    as [-> ->].
  reflexivity.
Qed.
End Materializer.

Section Selection.
Context {P : Platform} {C : Plumbing} (cfg : Config).
Import PyStr.

Lemma len_gt {A : Type} (l : list A) (n : nat) : (Z.of_nat n <? len l)%Z = true ↔ (n < length l)%nat.
Proof. unfold len. rewrite Z.ltb_lt. lia. Qed.

(** C5. When the references and the range are resolved and more than 50
    commits remain after the exclusions, [main] ends with [SystemExit] and the
    count in its message, in the state the extraction left; with 50 or fewer,
    [main] goes on with the whole list. *)
Theorem commit_count_guard w linux_base_ref ordered w1 :
  main_extract cfg w = (inr (linux_base_ref, ordered), w1) →
  let kept := exclude_commits (EXCLUDE_COMMITS cfg) ordered in
  ((50 < length kept)%nat →
   main cfg w = (inl (SystemExit ("unexpected tuxedo patch count: "
                                  +:+ str (Z.of_nat (length kept)) +:+ " (>50)")), w1))
  ∧ ((length kept ≤ 50)%nat → main cfg w = main_collect cfg linux_base_ref kept w1).
Proof.
  intros Hextract kept. unfold main. rewrite bind_run, Hextract. cbv beta iota zeta.
  fold kept. split; intros Hlen.
  - apply (len_gt kept 50) in Hlen. change (Z.of_nat 50) with 50%Z in Hlen.
    rewrite Hlen. reflexivity.
  - destruct (50 <? len kept)%Z eqn:Hlt; [| reflexivity].
    change 50%Z with (Z.of_nat 50) in Hlt. apply len_gt in Hlt. lia.
Qed.
End Selection.

(** What [exclude_commits] removes: the commits that are an entry, and those
    whose first twelve characters are an entry. *)
Lemma exclude_commits_spec (excluded : gset string) ordered h :
  h ∈ exclude_commits excluded ordered
  ↔ h ∈ ordered ∧ (h ∉ excluded) ∧ (PyStr.take 12 h ∉ excluded).
Proof.
  unfold exclude_commits. destruct (decide (excluded ≠ ∅)) as [Hne | Hne].
  - rewrite (bool_decide_eq_true_2 _ Hne).
    rewrite list_elem_of_In, filter_In, <- list_elem_of_In, andb_true_iff, !negb_true_iff,
      !bool_decide_eq_false. tauto.
  - rewrite (bool_decide_eq_false_2 _ Hne).
    assert (excluded = ∅) as -> by (destruct (decide (excluded = ∅)); [done | contradiction]).
    split; [intros Hin; split; [done | split; apply not_elem_of_empty] | by intros [? _]].
Qed.

(** C4. The code at the failing input: the entry [deadbeef], the
    abbreviation the comment of [EXCLUDE_COMMITS] gives as an example, is a
    prefix of the commit, and the commit stays in the list.  Only an entry
    equal to the commit or to its first twelve characters removes it
    ([exclude_commits_spec]). *)
Theorem abbreviated_exclusion_not_honoured :
  let h := "deadbeef00000000000000000000000000000000" in
  PyStr.startswith "deadbeef" h = true
  ∧ exclude_commits {[ "deadbeef" ]} [h] = [h].
Proof. vm_compute. split; reflexivity. Qed.

(** ** Strings and labels *)

Lemma sapp_nil_l (t : string) : "" +:+ t = t.
Proof. reflexivity. Qed.

Lemma sapp_cons (a : ascii) (s t : string) : String a s +:+ t = String a (s +:+ t).
Proof. reflexivity. Qed.

Ltac snorm := rewrite ?sapp_cons, ?sapp_nil_l.
Ltac snorm_in H := rewrite ?sapp_cons, ?sapp_nil_l in H.

Section Strings.
Import PyStr.


Lemma sapp_nil_r (s : string) : s +:+ "" = s.
Proof. induction s as [| a s IH]; snorm; [reflexivity | by rewrite IH]. Qed.

Lemma sapp_assoc (s t u : string) : (s +:+ t) +:+ u = s +:+ (t +:+ u).
Proof. induction s as [| a s IH]; snorm; [reflexivity | by rewrite IH]. Qed.

Lemma sapp_snoc (s : string) (a : ascii) (t : string) : (s +:+ String a "") +:+ t = s +:+ String a t.
Proof. by rewrite sapp_assoc, sapp_cons, sapp_nil_l. Qed.

Lemma eqc_eq (a b : ascii) : eqc a b = true ↔ a = b.
Proof. apply Ascii.eqb_eq. Qed.

Lemma all_chars_app p (s t : string) :
  all_chars p (s +:+ t) = all_chars p s && all_chars p t.
Proof. induction s as [| a s IH]; snorm; simpl; [reflexivity | by rewrite IH, andb_assoc]. Qed.

Lemma is_empty_true (s : string) : is_empty s = true ↔ s = "".
Proof. destruct s; simpl; split; congruence. Qed.

End Strings.

Section Labels.
Import PyStr Re.





Lemma is_hyphen_true c : is_hyphen c = true ↔ c = "-"%char.
Proof.
  unfold is_hyphen, mem_char, eqc. rewrite orb_false_r, Ascii.eqb_eq. split; congruence.
Qed.



Lemma lstrip_id (s : string) : (∀ r, s ≠ "-" +:+ r) → lstrip_by is_hyphen s = s.
Proof.
  destruct s as [| a s]; simpl; [reflexivity |]. intros Hno.
  destruct (is_hyphen a) eqn:Ha; [| reflexivity].
  apply is_hyphen_true in Ha as ->. by destruct (Hno s).
Qed.









Lemma sub_outside_safe (s : string) : ∀ b, all_chars label_char (sub_outside_go "-" b s) = true.
Proof.
  induction s as [| a s IH]; intros b; simpl; [reflexivity |].
  destruct (label_char a) eqn:Ha; simpl; [by rewrite Ha, IH |].
  destruct b; [apply IH | apply (IH true)].
Qed.

Lemma lstrip_all p q (s : string) : all_chars p s = true → all_chars p (lstrip_by q s) = true.
Proof.
  induction s as [| a s IH]; simpl; [done |]. intros [Ha Hs]%andb_true_iff.
  destruct (q a); [by apply IH | simpl; by rewrite Ha, Hs].
Qed.

Lemma rstrip_all p q (s : string) : all_chars p s = true → all_chars p (rstrip_by q s) = true.
Proof.
  induction s as [| a s IH]; simpl; [done |]. intros [Ha Hs]%andb_true_iff.
  specialize (IH Hs). destruct (rstrip_by q s).
  - destruct (q a); simpl; [done | by rewrite Ha].
  - simpl in *. by rewrite Ha, IH.
Qed.

Lemma take_all p n (s : string) : all_chars p s = true → all_chars p (take n s) = true.
Proof.
  revert s. induction n as [| n IH]; intros [| a s]; simpl; try done.
  intros [Ha Hs]%andb_true_iff. by rewrite Ha, IH.
Qed.

Lemma hex_label_char c : is_hex c = true → label_char c = true.
Proof.
  destruct c as [b0 b1 b2 b3 b4 b5 b6 b7].
  destruct b0, b1, b2, b3, b4, b5, b6, b7; vm_compute; congruence.
Qed.

Lemma all_chars_impl (p q : ascii → bool) (s : string) :
  (∀ c, p c = true → q c = true) → all_chars p s = true → all_chars q s = true.
Proof.
  intros Hpq. induction s as [| a s IH]; simpl; [done |].
  intros [Ha Hs]%andb_true_iff. by rewrite (Hpq _ Ha), IH.
Qed.

End Labels.

(** ** The loader *)

Section Splitting.
Import PyStr.

Lemma startswith_app (sep r : string) : startswith sep (sep +:+ r) = true.
Proof.
  induction sep as [| a sep IH]; [reflexivity |]. snorm. simpl.
  unfold eqc. by rewrite Ascii.eqb_refl.
Qed.

Lemma startswith_split (sep s : string) :
  startswith sep s = true → s = sep +:+ drop (String.length sep) s.
Proof.
  revert s. induction sep as [| a sep IH]; intros s; [reflexivity |].
  destruct s as [| b s]; simpl; [discriminate |].
  intros [Hab Hs]%andb_true_iff. apply eqc_eq in Hab as ->. snorm. f_equal. by apply IH.
Qed.

Lemma partition_eq (sep s : string) :
  partition sep s
  = if startswith sep s then Some ("", drop (String.length sep) s)
    else match s with
         | "" => None
         | String a r =>
             match partition sep r with
             | Some (before, after) => Some (String a before, after)
             | None => None
             end
         end.
Proof. by destruct s. Qed.

Lemma partition_some (sep : string) :
  ∀ s before after,
    partition sep s = Some (before, after) →
    s = before +:+ sep +:+ after
    ∧ ∀ b a, s = b +:+ sep +:+ a → (String.length before ≤ String.length b)%nat.
Proof.
  induction s as [| c r IH]; intros before after; rewrite partition_eq.
  - destruct (startswith sep "") eqn:Hs; [| discriminate].
    intros [= <- <-]. split; [by apply startswith_split | simpl; lia].
  - destruct (startswith sep (String c r)) eqn:Hs.
    + intros [= <- <-]. split; [by apply startswith_split | simpl; lia].
    + destruct (partition sep r) as [[b0 a0] |] eqn:Hp; [| discriminate].
      intros [= <- <-]. destruct (IH b0 a0 eq_refl) as [Hr Hmin]. split.
      * snorm. by f_equal.
      * intros [| c' b] a; snorm.
        -- intros Heq. by rewrite Heq, startswith_app in Hs.
        -- intros [= -> Heq]. simpl. apply le_n_S. by apply (Hmin b a).
Qed.

Lemma partition_none (sep : string) :
  ∀ s, partition sep s = None → ¬ occurs sep s.
Proof.
  induction s as [| c r IH]; rewrite partition_eq.
  - destruct (startswith sep "") eqn:Hs; [discriminate |]. intros _ ([| ? ?] & a0 & Heq).
    + snorm_in Heq. by rewrite Heq, startswith_app in Hs.
    + discriminate.
  - destruct (startswith sep (String c r)) eqn:Hs; [discriminate |].
    destruct (partition sep r) as [[b0 a0] |] eqn:Hp; [discriminate |].
    intros _ ([| c' b] & a1 & Heq); snorm_in Heq.
    + by rewrite Heq, startswith_app in Hs.
    + injection Heq as -> Heq. apply IH; [reflexivity |]. by exists b, a1.
Qed.

Lemma sapp_same_length (b b' x y : string) :
  b +:+ x = b' +:+ y → String.length b = String.length b' → b = b' ∧ x = y.
Proof.
  revert b'. induction b as [| a b IH]; intros [| a' b']; snorm; simpl; try discriminate.
  - by intros -> _.
  - intros [= -> Heq] [= Hlen]. destruct (IH b' Heq Hlen) as [-> ->]. by split.
Qed.

Lemma mem_char_app c (s t : string) : mem_char c (s +:+ t) = mem_char c s || mem_char c t.
Proof. induction s as [| a s IH]; snorm; simpl; [reflexivity | by rewrite IH, orb_assoc]. Qed.

Lemma after_last_go_spec c (s : string) :
  ∀ acc, mem_char c acc = false →
         mem_char c (after_last_go c acc s) = false
         ∧ (acc +:+ s = after_last_go c acc s
            ∨ ∃ pre, acc +:+ s = pre +:+ String c (after_last_go c acc s)).
Proof.
  induction s as [| a r IH]; intros acc Hacc; simpl.
  - split; [exact Hacc |]. left. apply sapp_nil_r.
  - destruct (eqc a c) eqn:Hac.
    + apply eqc_eq in Hac as ->. destruct (IH "" eq_refl) as [Hno Hsplit].
      split; [exact Hno |]. right. destruct Hsplit as [Heq | [pre Heq]].
      * exists acc. snorm_in Heq. congruence.
      * exists (acc +:+ String c pre). snorm_in Heq. rewrite sapp_assoc. snorm. congruence.
    + assert (mem_char c (acc +:+ String a "") = false) as Hacc'.
      { rewrite mem_char_app, Hacc. simpl. by rewrite Hac. }
      destruct (IH _ Hacc') as [Hno Hsplit]. rewrite sapp_snoc in Hsplit. by split.
Qed.

(** The relative path of a URL, in the words of the specification. *)
Lemma patch_rel_spec (marker url : string) :
  (∀ before after,
     url = before +:+ marker +:+ after →
     (∀ b a, url = b +:+ marker +:+ a → (String.length before ≤ String.length b)%nat) →
     patch_rel marker url = after)
  ∧ (¬ occurs marker url →
     patch_rel marker url = after_last "/" url
     ∧ mem_char "/" (after_last "/" url) = false
     ∧ (url = after_last "/" url ∨ ∃ pre, url = pre +:+ "/" +:+ after_last "/" url)).
Proof.
  unfold patch_rel. split.
  - intros before after Hurl Hmin.
    destruct (partition marker url) as [[b a] |] eqn:Hp.
    + destruct (partition_some _ _ _ _ Hp) as [Hurl' Hmin'].
      assert (String.length b = String.length before) as Hlen.
      { apply Nat.le_antisymm; [by apply (Hmin' before after) | by apply (Hmin b a)]. }
      rewrite Hurl in Hurl'. symmetry in Hurl'.
      destruct (sapp_same_length _ _ _ _ Hurl' Hlen) as [_ Heq].
      by apply (inj (String.append marker)) in Heq.
    + destruct (partition_none _ _ Hp). by exists before, after.
  - intros Hno. destruct (partition marker url) as [[b a] |] eqn:Hp.
    + destruct Hno. destruct (partition_some _ _ _ _ Hp) as [Hurl _]. by exists b, a.
    + split; [reflexivity |]. apply (after_last_go_spec "/" url "" eq_refl).
Qed.
End Splitting.

Section Loader.
Context {P : Platform}.
Import PyStr.

Lemma load_patch_run patches_repo folder collected url w :
  load_patch patches_repo folder collected url w
  = (if path_exists (src_path_of patches_repo folder url) (ext w) then
       match path_read_text (src_path_of patches_repo folder url) (ext w) with
       | inl e => inl e
       | inr content => inr (collected ++ [(label_of_url folder url, content)])
       end
     else inl (missing_patch patches_repo folder url), w).
Proof.
  unfold load_patch, src_path_of, label_of_url, missing_patch, src_path_of, exists_, read_text.
  cbv zeta. rewrite bind_run.
  destruct (path_exists _ (ext w)); simpl; [| reflexivity].
  rewrite bind_run. by destruct (path_read_text _ (ext w)).
Qed.

Lemma load_loop_state patches_repo folder urls :
  ∀ collected w, (for_each urls collected (load_patch patches_repo folder) w).2 = w.
Proof.
  induction urls as [| url rest IH]; intros collected w; [reflexivity |].
  rewrite for_each_cons, load_patch_run.
  destruct (path_exists _ (ext w)); [| reflexivity].
  destruct (path_read_text _ (ext w)); [reflexivity | apply IH].
Qed.

Lemma load_loop_complete patches_repo folder urls :
  ∀ collected w out,
    (for_each urls collected (load_patch patches_repo folder) w).1 = inr out →
    ∃ loaded, out = collected ++ loaded
              ∧ Forall2 (loads patches_repo folder (ext w)) urls loaded.
Proof.
  induction urls as [| url rest IH]; intros collected w out.
  - intros [= <-]. exists []. by rewrite app_nil_r.
  - rewrite for_each_cons, load_patch_run.
    destruct (path_exists _ (ext w)) eqn:Hthere; [| discriminate].
    destruct (path_read_text _ (ext w)) as [e | content] eqn:Hread; [discriminate |].
    intros (loaded & -> & Hall)%IH.
    exists ((label_of_url folder url, content) :: loaded).
    rewrite <- app_assoc. split; [reflexivity |]. by constructor.
Qed.

Lemma load_loop_missing patches_repo folder url post pre :
  ∀ collected w,
    Forall (λ u, ∃ p, loads patches_repo folder (ext w) u p) pre →
    path_exists (src_path_of patches_repo folder url) (ext w) = false →
    (for_each (pre ++ url :: post) collected (load_patch patches_repo folder) w).1
    = inl (missing_patch patches_repo folder url).
Proof.
  induction pre as [| u pre IH]; intros collected w Hpre Hmissing.
  - simpl app. rewrite for_each_cons, load_patch_run, Hmissing. reflexivity.
  - simpl app. rewrite for_each_cons, load_patch_run.
    inversion Hpre as [| ? ? (p & Hthere & Hread & _) Hrest]; subst.
    rewrite Hthere, Hread. by apply IH.
Qed.

Lemma collect_cachyos_patches_run patches_repo folder pkgbuild_path lto_mode cpusched w :
  let env := pkgbuild_env pkgbuild_path lto_mode cpusched in
  let w1 := logged w (cmd_next pkgbuild_cmd None env (ext w)) [pkgbuild_cmd] in
  let urls := declared_patch_urls (cmd_out pkgbuild_cmd None env (ext w)) in
  collect_cachyos_patches patches_repo folder pkgbuild_path lto_mode cpusched w
  = if negb (cmd_rc pkgbuild_cmd None env (ext w) =? 0)%Z then
      (inl (SystemExit (first_nonempty [cmd_err pkgbuild_cmd None env (ext w);
                                        cmd_out pkgbuild_cmd None env (ext w)]
                          "failed to parse CachyOS PKGBUILD sources")), w1)
    else if bool_decide (urls = []) then
      (inl (RuntimeError "No CachyOS patches discovered from PKGBUILD"), w1)
    else for_each urls [] (load_patch patches_repo folder) w1.
Proof.
  intros env w1 urls. unfold collect_cachyos_patches. cbv zeta.
  rewrite bind_run, print_run, bind_run. unfold subprocess.
  cbn [ext dirs stdout calls]. fold env.
  unfold urls, w1, logged, cmdline, cmd_rc, cmd_out, cmd_err, cmd_next.
  destruct (subprocess_run pkgbuild_cmd None (Some env) (ext w)) as [[[rc out] err] e'].
  cbn [returncode cp_stdout cp_stderr fst snd captured default].
  destruct (rc =? 0)%Z; simpl negb; cbv iota.
  - change (captured (Some out)) with out. by destruct (bool_decide _).
  - unfold sys_exit, raise. f_equal. f_equal. f_equal. by destruct err, out.
Qed.

(** C8. The file of a patch URL is looked up, under the patches
    repository and the folder, at what follows the first [/<folder>/] of the
    URL, or at the last component of the URL when there is none.  When
    [collect_cachyos_patches] returns, it returns one patch per declared URL,
    in order, each read from its file; when the file of a URL is missing and
    those before it loaded, it raises the [FileNotFoundError] of that file. *)
Theorem declared_patch_never_dropped patches_repo folder pkgbuild_path lto_mode cpusched w :
  let env := pkgbuild_env pkgbuild_path lto_mode cpusched in
  let urls := declared_patch_urls (cmd_out pkgbuild_cmd None env (ext w)) in
  let e := cmd_next pkgbuild_cmd None env (ext w) in
  let run := collect_cachyos_patches patches_repo folder pkgbuild_path lto_mode cpusched w in
  let marker := "/" +:+ folder +:+ "/" in
  (∀ url,
     src_path_of patches_repo folder url
     = path_div (path_div patches_repo folder) (patch_rel marker url)
     ∧ (∀ before after,
          url = before +:+ marker +:+ after →
          (∀ b a, url = b +:+ marker +:+ a → (String.length before ≤ String.length b)%nat) →
          patch_rel marker url = after)
     ∧ (¬ occurs marker url →
        patch_rel marker url = after_last "/" url
        ∧ mem_char "/" (after_last "/" url) = false
        ∧ (url = after_last "/" url ∨ ∃ pre, url = pre +:+ "/" +:+ after_last "/" url)))
  ∧ (∀ collected, run.1 = inr collected →
       Forall2 (loads patches_repo folder e) urls collected)
  ∧ (∀ pre url post,
       cmd_rc pkgbuild_cmd None env (ext w) = 0%Z →
       urls = pre ++ url :: post →
       Forall (λ u, ∃ p, loads patches_repo folder e u p) pre →
       path_exists (src_path_of patches_repo folder url) e = false →
       run.1 = inl (missing_patch patches_repo folder url)).
Proof.
  intros env urls e run marker. split; [| split].
  - intros url. split; [reflexivity | apply patch_rel_spec].
  - intros collected. unfold run. rewrite collect_cachyos_patches_run. cbv zeta.
    fold env urls.
    destruct (negb _); [discriminate |]. destruct (bool_decide _); [discriminate |].
    intros (loaded & -> & Hall)%load_loop_complete. exact Hall.
  - intros pre url post Hrc Hurls Hpre Hmissing. unfold run.
    rewrite collect_cachyos_patches_run. cbv zeta. fold env urls. rewrite Hrc. simpl negb.
    cbv iota. rewrite bool_decide_eq_false_2; [| rewrite Hurls; by destruct pre].
    rewrite Hurls. by apply load_loop_missing.
Qed.
End Loader.

(** ** The series writer *)

Section Numbers.
Import PyStr.

Lemma uint_digits (d : Decimal.uint) : all_chars is_digit (NilEmpty.string_of_uint d) = true.
Proof. induction d; simpl; auto. Qed.

Lemma to_uint_nonnil (n : N) : N.to_uint n ≠ Decimal.Nil.
Proof. destruct n as [| p]; simpl; [discriminate | apply DecimalPos.Unsigned.to_uint_nonnil]. Qed.

Lemma str_N_uint (n : N) : str_N n = NilEmpty.string_of_uint (N.to_uint n).
Proof.
  unfold str_N, NilZero.string_of_uint. pose proof (to_uint_nonnil n).
  by destruct (N.to_uint n).
Qed.

Lemma str_N_digits (n : N) : all_chars is_digit (str_N n) = true.
Proof. rewrite str_N_uint. apply uint_digits. Qed.

Lemma str_N_nonempty (n : N) : str_N n ≠ "".
Proof.
  rewrite str_N_uint. pose proof (to_uint_nonnil n). by destruct (N.to_uint n).
Qed.

Lemma str_N_value (n : N) : digits_value (str_N n) = n.
Proof.
  unfold digits_value. rewrite str_N_uint, NilEmpty.usu. apply DecimalN.Unsigned.of_to.
Qed.

Lemma zeros_value k (s : string) : digits_value (zeros k +:+ s) = digits_value s.
Proof.
  induction k as [| k IH]; [reflexivity |]. simpl zeros. snorm.
  unfold digits_value in *. simpl. destruct (NilEmpty.uint_of_string (zeros k +:+ s)) as [d |];
    destruct (NilEmpty.uint_of_string s) as [d' |]; simpl in *; congruence.
Qed.

Lemma zeros_digits k : all_chars is_digit (zeros k) = true.
Proof. induction k; simpl; auto. Qed.

(** The digits in front of the first hyphen determine themselves. *)
Lemma digits_split (a b x y : string) :
  all_chars is_digit a = true → all_chars is_digit b = true →
  a +:+ String "-" x = b +:+ String "-" y → a = b.
Proof.
  revert b. induction a as [| c a IH]; intros [| c' b]; snorm; simpl.
  - done.
  - intros _ [Hc _]%andb_true_iff [= <- _]. discriminate Hc.
  - intros [Hc _]%andb_true_iff _ [= -> _]. discriminate Hc.
  - intros [_ Ha]%andb_true_iff [_ Hb]%andb_true_iff [= -> Heq]. f_equal. by apply IH.
Qed.

Lemma padded_digits width n : all_chars is_digit (padded width n) = true.
Proof. unfold padded. by rewrite all_chars_app, zeros_digits, str_N_digits. Qed.

Lemma padded_value width n : digits_value (padded width n) = n.
Proof. unfold padded. by rewrite zeros_value, str_N_value. Qed.

Lemma padded_nonempty width n : padded width n ≠ "".
Proof.
  unfold padded. pose proof (str_N_nonempty n). destruct (zeros _); snorm; [done | discriminate].
Qed.

Lemma fmt_04d_eq (n : Z) :
  fmt_04d n = if (n <? 0)%Z then String "-" (padded 3 (Z.abs_N n)) else padded 4 (Z.to_N n).
Proof. reflexivity. Qed.


Lemma all_chars_mem p c (s : string) :
  all_chars p s = true → p c = false → mem_char c s = false.
Proof.
  induction s as [| a s IH]; simpl; [done |].
  intros [Ha Hs]%andb_true_iff Hc. rewrite (IH Hs Hc), orb_false_r.
  unfold eqc. apply Ascii.eqb_neq. by intros ->; congruence.
Qed.

Lemma fmt_04d_chars (n : Z) : all_chars digit_or_sign (fmt_04d n) = true.
Proof.
  rewrite fmt_04d_eq.
  assert (∀ w m, all_chars digit_or_sign (padded w m) = true) as Hp.
  { intros w m. apply (all_chars_impl is_digit); [| apply padded_digits].
    intros c Hc. unfold digit_or_sign. by rewrite Hc. }
  destruct (n <? 0)%Z; [simpl; apply Hp | apply Hp].
Qed.

(** A name made of a number, a safe label and the suffix can be written. *)
Lemma patch_filename_valid (n : Z) (label : string) :
  name_safe label →
  mem_char "/" (patch_filename n label) = false
  ∧ mem_char "000" (patch_filename n label) = false
  ∧ patch_filename n label ∉ [""; "."; ".."].
Proof.
  intros [Hsep Hnul]. unfold patch_filename.
  pose proof (fmt_04d_chars n) as Hfmt. split; [| split].
  - rewrite !mem_char_app, Hsep. by rewrite (all_chars_mem _ _ _ Hfmt).
  - rewrite !mem_char_app, Hnul. by rewrite (all_chars_mem _ _ _ Hfmt).
  - intros Hin.
    assert (mem_char "p" (fmt_04d n +:+ "-" +:+ label +:+ ".patch") = true) as Hp.
    { rewrite !mem_char_app. simpl. by rewrite !orb_true_r. }
    set_unfold in Hin. destruct Hin as [Heq | [Heq | [Heq | []]]]; rewrite Heq in Hp; discriminate.
Qed.
End Numbers.

Section Writer.
Context {P : Platform}.
Import PyStr.

Lemma set_dirs_id (w : World) : set_dirs (dirs w) w = w.
Proof. by destruct w. Qed.

Lemma set_dirs_set_dirs d d' (w : World) : set_dirs d (set_dirs d' w) = set_dirs d w.
Proof. reflexivity. Qed.






End Writer.

(** ** Paths *)

Section Paths.
Import PyStr Posix.

Lemma utf8_length_app (s t : string) : utf8_length (s +:+ t) = utf8_length s + utf8_length t.
Proof. induction s as [| a s IH]; snorm; simpl; [reflexivity | rewrite IH; lia]. Qed.

Lemma length_sapp (s t : string) : String.length (s +:+ t) = String.length s + String.length t.
Proof. induction s as [| a s IH]; snorm; simpl; [reflexivity | by rewrite IH]. Qed.

(** A piece without separator is read to its end. *)
Lemma split_go_plain (c : string) :
  mem_char "/" c = false →
  ∀ cur, split_go cur c = [cur +:+ c]
         ∧ ∀ s, split_go cur (c +:+ String "/" s) = (cur +:+ c) :: split_go "" s.
Proof.
  induction c as [| a c IH]; intros Hc cur; snorm.
  - rewrite sapp_nil_r. by split.
  - simpl in Hc. apply orb_false_iff in Hc as [Ha Hc]. simpl. rewrite Ha.
    destruct (IH Hc (cur +:+ String a "")) as [H1 H2]. rewrite H1.
    split; [by rewrite sapp_snoc |]. intros s. by rewrite H2, sapp_snoc.
Qed.

Lemma join_cons sep (c : string) (l : list string) :
  join sep (c :: l) = match l with [] => c | _ => c +:+ sep +:+ join sep l end.
Proof. by destruct l. Qed.

Lemma join_snoc sep (l : list string) (c : string) :
  l ≠ [] → join sep (l ++ [c]) = join sep l +:+ sep +:+ c.
Proof.
  induction l as [| a l IH]; [done |]. intros _. destruct l as [| b l]; [reflexivity |].
  change ((a :: b :: l) ++ [c]) with (a :: (b :: l) ++ [c]).
  rewrite join_cons. change ((b :: l) ++ [c]) with (b :: l ++ [c]) at 1.
  cbv iota. rewrite IH by done. rewrite (join_cons sep a (b :: l)).
  by rewrite !sapp_assoc.
Qed.

Lemma render_snoc (l : list string) (c : string) :
  l ≠ [] → render (l ++ [c]) = render l +:+ "/" +:+ c.
Proof. intros Hl. unfold render. by rewrite join_snoc, !sapp_assoc. Qed.

Lemma component_piece c : component c → piece c.
Proof.
  intros (H0 & H1 & _ & Hsep & _). split; [exact Hsep |]. unfold kept.
  destruct c as [| a c]; [done |]. cbn [is_empty negb andb].
  destruct (String.eqb_spec (String a c) "."); [done | reflexivity].
Qed.

Lemma split_join (l : list string) :
  Forall piece l → List.filter kept (split_sep (join "/" l)) = l.
Proof.
  unfold split_sep. induction l as [| c l IH]; [reflexivity |].
  intros Hl. apply Forall_cons in Hl as [[Hsep Hkept] Hl]. rewrite join_cons.
  destruct (split_go_plain c Hsep "") as [H1 H2]. destruct l as [| b l].
  - rewrite H1. snorm. simpl. by rewrite Hkept.
  - change ("/" +:+ join "/" (b :: l)) with (String "/" (join "/" (b :: l))).
    rewrite H2. snorm. simpl. rewrite Hkept. f_equal. by apply IH.
Qed.

Lemma parts_render (l : list string) : Forall piece l → parts (render l) = l.
Proof.
  intros Hl. unfold parts, render, split_sep.
  change ("/" +:+ join "/" l) with (String "/" (join "/" l)). simpl.
  by apply split_join.
Qed.

Lemma parts_plain (c : string) : piece c → parts c = [c].
Proof.
  intros [Hsep Hkept]. unfold parts, split_sep.
  destruct (split_go_plain c Hsep "") as [-> _]. snorm. simpl. by rewrite Hkept.
Qed.

Lemma mem_char_join c sep (l : list string) :
  mem_char c sep = false → Forall (λ p, mem_char c p = false) l → mem_char c (join sep l) = false.
Proof.
  intros Hsep. induction l as [| a l IH]; [done |]. intros [Ha Hl]%Forall_cons.
  rewrite join_cons. destruct l as [| b l]; [exact Ha |].
  rewrite !mem_char_app, Ha, Hsep. by apply IH.
Qed.

Lemma mem_char_render c (l : list string) :
  c ≠ "/"%char → Forall (λ p, mem_char c p = false) l → mem_char c (render l) = false.
Proof.
  intros Hc Hl. unfold render.
  assert (mem_char c "/" = false) as Hsep.
  { cbn [mem_char]. rewrite orb_false_r. unfold eqc. apply Ascii.eqb_neq. congruence. }
  rewrite mem_char_app, Hsep. by apply mem_char_join.
Qed.

Lemma split_go_chars c (s : string) :
  mem_char c s = false →
  ∀ cur, mem_char c cur = false → Forall (λ p, mem_char c p = false) (split_go cur s).
Proof.
  induction s as [| a s IH]; intros Hs cur Hcur; simpl.
  - by constructor.
  - simpl in Hs. apply orb_false_iff in Hs as [Ha Hs]. destruct (eqc a "/").
    + constructor; [exact Hcur | by apply IH].
    + apply IH; [exact Hs |]. rewrite mem_char_app, Hcur. simpl. by rewrite Ha.
Qed.

Lemma split_go_pieces (s : string) :
  ∀ cur, mem_char "/" cur = false → Forall (λ p, mem_char "/" p = false) (split_go cur s).
Proof.
  induction s as [| a s IH]; intros cur Hcur; simpl.
  - by constructor.
  - destruct (eqc a "/") eqn:Ha.
    + constructor; [exact Hcur | by apply IH].
    + apply IH. rewrite mem_char_app, Hcur. simpl. unfold eqc in *.
      by rewrite Ha.
Qed.

Lemma parts_pieces (s : string) : Forall piece (parts s).
Proof.
  unfold parts, split_sep. pose proof (split_go_pieces s "" eq_refl) as H.
  induction H as [| p l Hp Hl IH]; simpl; [constructor |].
  destruct (kept p) eqn:Hk; [constructor; [by split | exact IH] | exact IH].
Qed.

Lemma parts_chars c (s : string) :
  mem_char c s = false → Forall (λ p, mem_char c p = false) (parts s).
Proof.
  intros Hs. unfold parts, split_sep. pose proof (split_go_chars c s Hs "" eq_refl) as H.
  induction H as [| p l Hp Hl IH]; simpl; [constructor |].
  destruct (kept p); [by constructor | exact IH].
Qed.

End Paths.

Section Lineage.
Import PyStr Posix.
Local Open Scope nat_scope.

Lemma render_app (l1 l2 : list string) : ∃ t, render (l1 ++ l2) = render l1 +:+ t.
Proof.
  induction l2 as [| c l2 IH] using rev_ind.
  - exists "". by rewrite app_nil_r, sapp_nil_r.
  - destruct IH as [t IH]. rewrite app_assoc.
    destruct (decide (l1 ++ l2 = [])) as [Hnil | Hnil].
    + apply app_eq_nil in Hnil as [-> ->]. exists c. reflexivity.
    + rewrite render_snoc by done. rewrite IH. exists (t +:+ "/" +:+ c).
      by rewrite !sapp_assoc.
Qed.

Lemma render_not_root (l : list string) : l ≠ [] → Forall piece l → render l ≠ "/".
Proof.
  destruct l as [| c l]; [done |]. intros _ [[_ Hkept] _]%Forall_cons.
  unfold render. rewrite join_cons. destruct c as [| a c]; [discriminate Hkept |].
  destruct l; snorm; discriminate.
Qed.

Lemma lineage_from_app (l1 l2 : list string) :
  ∀ cur, lineage_from cur (l1 ++ l2) = lineage_from cur l1 ++ lineage_from (cur ++ l1) l2.
Proof.
  induction l1 as [| c l1 IH]; intros cur; simpl.
  - by rewrite app_nil_r.
  - rewrite IH. by rewrite <- app_assoc.
Qed.

Lemma lineage_snoc (l : list string) (c : string) :
  lineage (l ++ [c]) = lineage l ++ [render (l ++ [c])].
Proof. unfold lineage. by rewrite lineage_from_app. Qed.

Lemma lineage_from_elem (cs : list string) :
  ∀ cur q, q ∈ lineage_from cur cs →
           ∃ pre c post, cs = pre ++ c :: post ∧ q = render (cur ++ pre ++ [c]).
Proof.
  induction cs as [| c cs IH]; intros cur q; simpl.
  - by intros ?%elem_of_nil.
  - intros [-> | Hin]%elem_of_cons.
    + by exists [], c, cs.
    + destruct (IH _ _ Hin) as (pre & c' & post & -> & ->).
      exists (c :: pre), c', post. split; [reflexivity |]. by rewrite <- app_assoc.
Qed.

Lemma lineage_elem (cs : list string) q :
  q ∈ lineage cs → ∃ pre c post, cs = pre ++ c :: post ∧ q = render (pre ++ [c]).
Proof. apply lineage_from_elem. Qed.

Lemma lineage_last (l : list string) (c : string) : render (l ++ [c]) ∈ lineage (l ++ [c]).
Proof. rewrite lineage_snoc. apply elem_of_app. right. apply list_elem_of_here. Qed.

Lemma startswith_length (p s : string) :
  startswith p s = true → String.length p ≤ String.length s.
Proof.
  intros H%startswith_split. apply (f_equal String.length) in H.
  rewrite length_sapp in H. lia.
Qed.

Lemma under_not_root (dir path : string) :
  dir ≠ "/" → under dir path = startswith (dir +:+ "/") path.
Proof. intros Hd. unfold under. by destruct (String.eqb_spec dir "/"). Qed.

Lemma under_longer (dir path : string) :
  dir ≠ "/" → under dir path = true → String.length dir < String.length path.
Proof.
  intros Hd. rewrite under_not_root by done. intros H%startswith_length.
  rewrite length_sapp in H. simpl in H. lia.
Qed.

Lemma under_file (dir name : string) : dir ≠ "/" → under dir (dir +:+ "/" +:+ name) = true.
Proof.
  intros Hd. rewrite under_not_root by done. rewrite <- sapp_assoc. apply startswith_app.
Qed.

(** A directory on the way to [render cs] does not lie under it. *)
Lemma lineage_not_under (cs : list string) q :
  cs ≠ [] → Forall piece cs → q ∈ lineage cs → under (render cs) q = false.
Proof.
  intros Hne Hcs (pre & c & post & -> & ->)%lineage_elem.
  destruct (under _ _) eqn:H; [| reflexivity].
  apply under_longer in H; [| by apply render_not_root].
  destruct (render_app (pre ++ [c]) post) as [t Ht].
  rewrite <- app_assoc in Ht. simpl in Ht. rewrite Ht, length_sapp in H. lia.
Qed.

Lemma file_path_inj (dir n1 n2 : string) : dir +:+ "/" +:+ n1 = dir +:+ "/" +:+ n2 → n1 = n2.
Proof.
  intros H. apply sapp_same_length in H as [_ H]; [| reflexivity]. by injection H.
Qed.

(** ** The walk *)

Lemma walk_app fs (l1 l2 : list string) :
  ∀ cur, walk fs cur (l1 ++ l2)
         = match walk fs cur l1 with inl e => inl e | inr d => walk fs d l2 end.
Proof.
  induction l1 as [| c l1 IH]; intros cur; [reflexivity |]. simpl.
  destruct (String.eqb c ".."); [apply IH |].
  destruct (Nat.ltb _ _); [reflexivity |].
  destruct (fs !! _) as [[] |]; [reflexivity | apply IH | reflexivity].
Qed.

Lemma component_walk (c : string) :
  component c → String.eqb c ".." = false ∧ Nat.ltb NAME_MAX (utf8_length c) = false.
Proof.
  intros (_ & _ & Hdd & _ & _ & Hlen). split.
  - by destruct (String.eqb_spec c "..").
  - apply Nat.ltb_ge. exact Hlen.
Qed.

(** Over the components of a resolved path the walk arrives when every
    directory on the way is there, and otherwise stops at the first path
    that is missing or is a regular file. *)
Lemma walk_cases fs (cs : list string) :
  Forall component cs →
  ∀ cur,
    (walk fs cur cs = inr (cur ++ cs)
     ∧ ∀ q, q ∈ lineage_from cur cs → fs !! q = Some Directory)
    ∨ (walk fs cur cs = inl ENOENT ∧ ∃ q, q ∈ lineage_from cur cs ∧ fs !! q = None)
    ∨ (walk fs cur cs = inl ENOTDIR
       ∧ ∃ q content, q ∈ lineage_from cur cs ∧ fs !! q = Some (RegularFile content)).
Proof.
  induction cs as [| c cs IH]; intros Hcs cur.
  - left. rewrite app_nil_r. split; [reflexivity |]. by intros q ?%elem_of_nil.
  - apply Forall_cons in Hcs as [Hc Hcs]. destruct (component_walk c Hc) as [Hdd Hlen].
    cbn [walk lineage_from]. rewrite Hdd, Hlen.
    destruct (fs !! render (cur ++ [c])) as [[content |] |] eqn:Hq.
    + right; right. split; [reflexivity |]. exists (render (cur ++ [c])), content.
      split; [apply list_elem_of_here | exact Hq].
    + destruct (IH Hcs (cur ++ [c])) as [[Hw Hall] | [[Hw (q & Hin & Hnone)] | [Hw (q & x & Hin & Hreg)]]].
      * left. rewrite Hw, <- app_assoc. split; [reflexivity |].
        intros q [-> | Hin]%elem_of_cons; [exact Hq | by apply Hall].
      * right; left. split; [exact Hw |]. exists q. split; [by apply list_elem_of_further | done].
      * right; right. split; [exact Hw |]. exists q, x.
        split; [by apply list_elem_of_further | done].
    + right; left. split; [reflexivity |]. exists (render (cur ++ [c])).
      split; [apply list_elem_of_here | exact Hq].
Qed.

Lemma walk_dirs fs (cs : list string) :
  Forall component cs →
  (∀ q, q ∈ lineage cs → fs !! q = Some Directory) →
  walk fs [] cs = inr cs.
Proof.
  intros Hcs Hall.
  destruct (walk_cases fs cs Hcs []) as [[Hw _] | [[_ (q & Hin & Hq)] | [_ (q & x & Hin & Hq)]]].
  - exact Hw.
  - rewrite (Hall q Hin) in Hq. discriminate.
  - rewrite (Hall q Hin) in Hq. discriminate.
Qed.

(** ** The path of a system call *)

Lemma lookup_parent_render fs (l : list string) (c : string) :
  Forall piece (l ++ [c]) →
  mem_char "000" (render (l ++ [c])) = false →
  utf8_length (render (l ++ [c])) < PATH_MAX →
  lookup_parent fs (render (l ++ [c]))
  = match walk fs [] l with
    | inl e => inl (os_error e (render (l ++ [c])))
    | inr dir => inr (dir, Some c)
    end.
Proof.
  intros Hp Hnul Hlen. unfold lookup_parent. rewrite Hnul.
  assert (Nat.leb PATH_MAX (utf8_length (render (l ++ [c]))) = false) as ->
    by (apply Nat.leb_gt; exact Hlen).
  rewrite parts_render by done. rewrite reverse_snoc. by rewrite reverse_involutive.
Qed.

Lemma components_pieces (cs : list string) : Forall component cs → Forall piece cs.
Proof. intros H. eapply Forall_impl; [exact H | apply component_piece]. Qed.

Lemma components_nul (cs : list string) :
  Forall component cs → Forall (λ p, mem_char "000" p = false) cs.
Proof. intros H. eapply Forall_impl; [exact H | by intros c (_ & _ & _ & _ & Hnul & _)]. Qed.

End Lineage.

(** ** The system calls *)

Section Calls.
Context {P : Platform}.
Import PyStr Posix.
Local Open Scope nat_scope.

(** What the proofs need of a resolved path. *)
Lemma resolved_snoc dest_dir comps :
  resolved dest_dir comps →
  ∃ init c, comps = init ++ [c] ∧ dest_dir = render (init ++ [c])
            ∧ Forall component init ∧ component c
            ∧ Forall piece (init ++ [c])
            ∧ mem_char "000" dest_dir = false
            ∧ utf8_length dest_dir < PATH_MAX
            ∧ dest_dir ≠ "/".
Proof.
  intros (-> & Hne & Hcs & Hlen).
  destruct comps as [| c0 cs] using rev_ind; [done |]. clear IHcs.
  exists cs, c0. split; [reflexivity |]. split; [reflexivity |].
  pose proof (components_pieces _ Hcs) as Hp. pose proof (components_nul _ Hcs) as Hn.
  apply Forall_app in Hcs as [Hinit [Hc _]%Forall_cons].
  split; [exact Hinit |]. split; [exact Hc |]. split; [exact Hp |].
  split; [by apply mem_char_render |]. split; [exact Hlen |].
  by apply render_not_root.
Qed.

Lemma stat_found fs path node : fs !! path = Some node → stat fs path = inr (path, node).
Proof. intros H. unfold stat. by rewrite H. Qed.

(** A resolved path that is not in the map does not exist. *)
Lemma stat_absent fs dest_dir comps :
  resolved dest_dir comps → fs !! dest_dir = None →
  ∃ e, stat fs dest_dir = inl e ∧ ignored e = true.
Proof.
  intros (init & c & -> & Hd & Hinit & Hc & Hp & Hnul & Hlen & _)%resolved_snoc Habs.
  unfold stat. rewrite Habs. subst dest_dir. rewrite lookup_parent_render by done.
  destruct (component_walk c Hc) as [Hdd Hfit].
  destruct (walk_cases fs init Hinit []) as [[-> _] | [[-> _] | [-> _]]].
  - rewrite Hdd, Hfit. simpl app. rewrite Habs. by eexists.
  - by eexists.
  - by eexists.
Qed.

Lemma dir_exists_run dest_dir comps w :
  resolved dest_dir comps →
  dir_exists dest_dir w = (inr (bool_decide (is_Some (dirs w !! dest_dir))), w).
Proof.
  intros Hres. unfold dir_exists. destruct (dirs w !! dest_dir) as [node |] eqn:Hd.
  - rewrite (stat_found _ _ _ Hd). by rewrite bool_decide_eq_true_2.
  - destruct (stat_absent _ _ _ Hres Hd) as (e & -> & ->).
    rewrite bool_decide_eq_false_2; [done |]. by intros [? ?].
Qed.

Lemma is_dir_run dest_dir comps w :
  resolved dest_dir comps →
  is_dir dest_dir w
  = (inr match dirs w !! dest_dir with Some Directory => true | _ => false end, w).
Proof.
  intros Hres. unfold is_dir. destruct (dirs w !! dest_dir) as [node |] eqn:Hd.
  - rewrite (stat_found _ _ _ Hd). by destruct node.
  - by destruct (stat_absent _ _ _ Hres Hd) as (e & -> & ->).
Qed.

Lemma rmtree_directory dest_dir w :
  dirs w !! dest_dir = Some Directory →
  rmtree dest_dir w = (inr (), set_dirs (remove_tree dest_dir (dirs w)) w).
Proof. intros Hd. unfold rmtree. by rewrite (stat_found _ _ _ Hd). Qed.

Lemma rmtree_regular_file dest_dir content w :
  dirs w !! dest_dir = Some (RegularFile content) →
  rmtree dest_dir w = (inl (NotADirectoryError dest_dir), w).
Proof. intros Hd. unfold rmtree. by rewrite (stat_found _ _ _ Hd). Qed.

Lemma remove_tree_lookup dir fs path :
  remove_tree dir fs !! path
  = if String.eqb path dir || under dir path then None else fs !! path.
Proof.
  unfold remove_tree. rewrite map_lookup_imap.
  destruct (fs !! path) as [node |]; simpl; [done | by destruct (_ || _)].
Qed.

Lemma remove_tree_absent dir fs :
  fs !! dir = None → nothing_under_absent fs dir → remove_tree dir fs = fs.
Proof.
  intros Hd Hu. apply map_eq. intros path. rewrite remove_tree_lookup.
  destruct (String.eqb_spec path dir) as [-> | _]; [done |]. simpl.
  destruct (under dir path) eqn:Hunder; [| done]. symmetry. by apply Hu.
Qed.

(** ** [os.mkdir] and [Path.mkdir] on a resolved path *)

Lemma os_mkdir_run fs dest_dir init c :
  dest_dir = render (init ++ [c]) → Forall component init → component c →
  utf8_length dest_dir < PATH_MAX →
  os_mkdir fs dest_dir
  = match walk fs [] init with
    | inl e => inl (os_error e dest_dir)
    | inr _ =>
        match fs !! dest_dir with
        | Some _ => inl (FileExistsError dest_dir)
        | None => inr (<[dest_dir := Directory]> fs)
        end
    end.
Proof.
  intros -> Hinit Hc Hlen. unfold os_mkdir.
  assert (Forall component (init ++ [c])) as Hcs
    by (apply Forall_app; split; [done | by constructor]).
  rewrite lookup_parent_render;
    [| by apply components_pieces | by apply mem_char_render, components_nul | done].
  destruct (component_walk c Hc) as [Hdd Hfit].
  destruct (walk_cases fs init Hinit []) as [[-> _] | [[-> _] | [-> _]]]; [| done ..].
  rewrite Hdd, Hfit. simpl app. by destruct (fs !! render (init ++ [c])).
Qed.

Lemma syscall_run call w :
  syscall call w = match call (dirs w) with
                   | inl e => (inl e, w)
                   | inr fs => (inr (), set_dirs fs w)
                   end.
Proof. reflexivity. Qed.

(** [mkdir_parents] tries [os.mkdir] and goes to the parent only for
    [FileNotFoundError]. *)
Lemma mkdir_parents_eq rcomps exist_ok w :
  mkdir_parents rcomps exist_ok w
  = let path := render (reverse rcomps) in
    match os_mkdir (dirs w) path with
    | inl (FileNotFoundError msg) =>
        match rcomps with
        | [] => (inl (FileNotFoundError msg), w)
        | _ :: rparent => (mkdir_parents rparent true;; mkdir_single path exist_ok) w
        end
    | _ => mkdir_single path exist_ok w
    end.
Proof.
  destruct rcomps as [| c rparent]; cbn [mkdir_parents]; cbv zeta;
    unfold mkdir_single, try_except; rewrite syscall_run;
    destruct (os_mkdir _ _) as [[] |]; reflexivity.
Qed.

Lemma mkdir_single_run dest_dir init c w :
  dest_dir = render (init ++ [c]) → Forall component init → component c →
  utf8_length dest_dir < PATH_MAX →
  mkdir_single dest_dir true w
  = match walk (dirs w) [] init with
    | inl ENOENT => (inl (FileNotFoundError dest_dir), w)
    | inl e =>
        match dirs w !! dest_dir with
        | Some Directory => (inr (), w)
        | _ => (inl (os_error e dest_dir), w)
        end
    | inr _ =>
        match dirs w !! dest_dir with
        | None => (inr (), set_dirs (<[dest_dir := Directory]> (dirs w)) w)
        | Some Directory => (inr (), w)
        | Some (RegularFile _) => (inl (FileExistsError dest_dir), w)
        end
    end.
Proof.
  intros Hd Hinit Hc Hlen.
  assert (resolved dest_dir (init ++ [c])) as Hres.
  { split; [exact Hd |]. split; [by destruct init |]. split; [| exact Hlen].
    apply Forall_app; split; [done | by constructor]. }
  unfold mkdir_single, try_except. rewrite syscall_run.
  rewrite (os_mkdir_run _ _ init c) by done.
  destruct (walk (dirs w) [] init) as [e | dir].
  - destruct e; cbn [os_error]; try reflexivity;
      unfold mkdir_exists; rewrite bind_run, (is_dir_run _ _ _ Hres);
      by destruct (dirs w !! dest_dir) as [[] |].
  - destruct (dirs w !! dest_dir) as [node |] eqn:Hnode; [| done].
    unfold mkdir_exists. rewrite bind_run, (is_dir_run _ _ _ Hres), Hnode.
    by destruct node.
Qed.

End Calls.

Section Mkdir.
Context {P : Platform}.
Import PyStr Posix.
Local Open Scope nat_scope.

Lemma grown_refl paths fs : grown paths fs fs.
Proof. intros path. by left. Qed.

Lemma grown_insert path fs : fs !! path = None → grown [path] fs (<[path := Directory]> fs).
Proof.
  intros Habs q. destruct (decide (q = path)) as [-> | Hne].
  - right. rewrite lookup_insert_eq. split; [apply list_elem_of_here | done].
  - left. by rewrite lookup_insert_ne.
Qed.

Lemma grown_trans l1 l2 fs1 fs2 fs3 :
  grown l1 fs1 fs2 → grown l2 fs2 fs3 → grown (l1 ++ l2) fs1 fs3.
Proof.
  intros H12 H23 path. destruct (H23 path) as [-> | (Hin & Hnone & ->)].
  - destruct (H12 path) as [-> | (Hin & Hnone & ->)]; [by left | right].
    split; [apply elem_of_app; by left | done].
  - destruct (H12 path) as [Heq | (_ & _ & Hdir)]; [| congruence]. right.
    split; [apply elem_of_app; by right |]. split; [congruence | done].
Qed.

Lemma grown_mono l l' fs fs' : l ⊆ l' → grown l fs fs' → grown l' fs fs'.
Proof.
  intros Hsub H path. destruct (H path) as [-> | (Hin & ? & ?)]; [by left | right].
  split; [by apply Hsub | done].
Qed.

Lemma with_dirs_cons path paths fs :
  with_dirs (path :: paths) fs = <[path := Directory]> (with_dirs paths fs).
Proof. reflexivity. Qed.

Lemma with_dirs_lookup paths fs path :
  with_dirs paths fs !! path = if bool_decide (path ∈ paths) then Some Directory else fs !! path.
Proof.
  induction paths as [| q paths IH].
  - rewrite bool_decide_eq_false_2; [done | by intros ?%elem_of_nil].
  - rewrite with_dirs_cons. destruct (decide (path = q)) as [-> | Hne].
    + rewrite lookup_insert_eq, bool_decide_eq_true_2; [done | apply list_elem_of_here].
    + rewrite lookup_insert_ne by done. rewrite IH.
      destruct (decide (path ∈ paths)) as [Hin | Hout].
      * rewrite !bool_decide_eq_true_2; [done | by apply list_elem_of_further | done].
      * rewrite !bool_decide_eq_false_2; [done | | done].
        by intros [? | ?]%elem_of_cons.
Qed.

Lemma render_inj (l1 l2 : list string) :
  Forall piece l1 → Forall piece l2 → render l1 = render l2 → l1 = l2.
Proof.
  intros H1 H2 Heq. rewrite <- (parts_render l1 H1), <- (parts_render l2 H2). by rewrite Heq.
Qed.

(** The path is not one of the directories on the way to its parent. *)
Lemma lineage_fresh (init : list string) (c : string) :
  Forall piece (init ++ [c]) → render (init ++ [c]) ∉ lineage init.
Proof.
  intros Hp (pre & c' & post & Hinit & Heq)%lineage_elem.
  apply render_inj in Heq; [| done |].
  - apply (f_equal length) in Heq. rewrite Hinit in Heq. rewrite !length_app in Heq.
    simpl in Heq. lia.
  - rewrite Hinit in Hp. rewrite <- app_assoc in Hp. simpl in Hp.
    apply Forall_app in Hp as [Hpre [Hc _]%Forall_cons].
    apply Forall_app. split; [done | by constructor].
Qed.

Lemma mkdir_root w : (mkdir_parents [] true w).2 = w.
Proof.
  unfold mkdir_parents. change (render (reverse [])) with "/".
  unfold try_except. rewrite syscall_run.
  assert (os_mkdir (dirs w) "/" = inl (FileExistsError "/")) as -> by reflexivity.
  unfold mkdir_exists. rewrite bind_run. unfold is_dir.
  destruct (stat (dirs w) "/") as [e | [found []]]; [destruct (ignored e) | ..]; reflexivity.
Qed.

Lemma mkdir_single_grown dest_dir init c w :
  dest_dir = render (init ++ [c]) → Forall component init → component c →
  utf8_length dest_dir < PATH_MAX →
  let r := mkdir_single dest_dir true w in
  r.2 = set_dirs (dirs r.2) w ∧ grown [dest_dir] (dirs w) (dirs r.2).
Proof.
  intros Hd Hinit Hc Hlen r. unfold r. rewrite (mkdir_single_run _ init c) by done.
  assert (w = set_dirs (dirs w) w ∧ grown [dest_dir] (dirs w) (dirs w)) as Hsame
    by (split; [by destruct w | apply grown_refl]).
  destruct (walk (dirs w) [] init) as [[] | dir];
    destruct (dirs w !! dest_dir) as [[] |] eqn:Hnode; try exact Hsame.
  cbn [snd dirs set_dirs]. split; [reflexivity | by apply grown_insert].
Qed.

Lemma init_shorter (init : list string) (c : string) :
  utf8_length (render init) ≤ utf8_length (render (init ++ [c])).
Proof. destruct (render_app init [c]) as [t ->]. rewrite utf8_length_app. lia. Qed.

(** Whatever its outcome, [mkdir] with [parents=True] changes nothing but
    the directories on the way that were missing. *)
Lemma mkdir_parents_grown rcomps :
  ∀ w, Forall component (reverse rcomps) →
       utf8_length (render (reverse rcomps)) < PATH_MAX →
       let r := mkdir_parents rcomps true w in
       r.2 = set_dirs (dirs r.2) w ∧ grown (lineage (reverse rcomps)) (dirs w) (dirs r.2).
Proof.
  induction rcomps as [| c rparent IH]; intros w Hcs Hlen r; unfold r.
  - rewrite mkdir_root. split; [by destruct w | apply grown_refl].
  - rewrite reverse_cons in Hcs, Hlen. apply Forall_app in Hcs as [Hinit [Hc _]%Forall_cons].
    pose proof (init_shorter (reverse rparent) c) as Hshort.
    rewrite mkdir_parents_eq. cbv zeta. rewrite reverse_cons.
    set (path := render (reverse rparent ++ [c])).
    pose proof (mkdir_single_grown path (reverse rparent) c) as Hsingle.
    assert (∀ w', let r := mkdir_single path true w' in
                  r.2 = set_dirs (dirs r.2) w'
                  ∧ grown (lineage (reverse rparent ++ [c])) (dirs w') (dirs r.2)) as Hone.
    { intros w'. destruct (Hsingle w' eq_refl Hinit Hc Hlen) as [H1 H2]. split; [exact H1 |].
      eapply grown_mono; [| exact H2]. intros q ->%list_elem_of_singleton. apply lineage_last. }
    destruct (os_mkdir (dirs w) path) as [[] |]; try apply Hone.
    rewrite bind_run. destruct (IH w Hinit ltac:(lia)) as [H1 H2].
    destruct (mkdir_parents rparent true w) as [[e | []] w1]; cbn [snd] in *.
    + split; [exact H1 |]. eapply grown_mono; [| exact H2].
      rewrite lineage_snoc. intros q Hq. apply elem_of_app. by left.
    + destruct (Hone w1) as [H3 H4]. split.
      * rewrite H3. rewrite H1. reflexivity.
      * rewrite lineage_snoc. eapply grown_trans; [exact H2 |].
        destruct (Hsingle w1 eq_refl Hinit Hc Hlen) as [_ H5]. exact H5.
Qed.

Lemma with_dirs_snoc_insert paths path fs :
  <[path := Directory]> (with_dirs paths fs) = with_dirs (paths ++ [path]) fs.
Proof.
  apply map_eq. intros q. rewrite with_dirs_lookup.
  destruct (decide (q = path)) as [-> | Hne].
  - rewrite lookup_insert_eq, bool_decide_eq_true_2; [done |].
    apply elem_of_app. right. apply list_elem_of_here.
  - rewrite lookup_insert_ne by done. rewrite with_dirs_lookup.
    destruct (decide (q ∈ paths)) as [Hin | Hout].
    + rewrite !bool_decide_eq_true_2; [done | apply elem_of_app; by left | done].
    + rewrite !bool_decide_eq_false_2; [done | | done].
      intros [? | ?%list_elem_of_singleton]%elem_of_app; done.
Qed.

Lemma with_dirs_there paths fs :
  (∀ q, q ∈ paths → fs !! q = Some Directory) → with_dirs paths fs = fs.
Proof.
  intros Hall. apply map_eq. intros q. rewrite with_dirs_lookup.
  destruct (decide (q ∈ paths)) as [Hin | Hout].
  - rewrite bool_decide_eq_true_2 by done. symmetry. by apply Hall.
  - by rewrite bool_decide_eq_false_2.
Qed.

Lemma mkdir_single_ok dest_dir init c w :
  dest_dir = render (init ++ [c]) → Forall component init → component c →
  utf8_length dest_dir < PATH_MAX →
  (∀ q, q ∈ lineage init → dirs w !! q = Some Directory) →
  (∀ content, dirs w !! dest_dir ≠ Some (RegularFile content)) →
  mkdir_single dest_dir true w = (inr (), set_dirs (<[dest_dir := Directory]> (dirs w)) w).
Proof.
  intros Hd Hinit Hc Hlen Hall Hfree. rewrite (mkdir_single_run _ init c) by done.
  rewrite (walk_dirs _ _ Hinit Hall).
  destruct (dirs w !! dest_dir) as [[content |] |] eqn:Hnode.
  - by destruct (Hfree content).
  - rewrite insert_id by done. by destruct w.
  - reflexivity.
Qed.

(** With no regular file in the way, [mkdir] with [parents=True] returns
    and leaves the directories down to the path. *)
Lemma mkdir_parents_ok rcomps :
  ∀ w, rcomps ≠ [] →
       Forall component (reverse rcomps) →
       utf8_length (render (reverse rcomps)) < PATH_MAX →
       (∀ q content, q ∈ lineage (reverse rcomps) → dirs w !! q ≠ Some (RegularFile content)) →
       mkdir_parents rcomps true w
       = (inr (), set_dirs (with_dirs (lineage (reverse rcomps)) (dirs w)) w).
Proof.
  induction rcomps as [| c rparent IH]; intros w Hne Hcs Hlen Hfree; [done |].
  rewrite reverse_cons in Hcs, Hlen, Hfree. rewrite reverse_cons.
  pose proof (components_pieces _ Hcs) as Hp.
  apply Forall_app in Hcs as [Hinit [Hc _]%Forall_cons].
  pose proof (init_shorter (reverse rparent) c) as Hshort.
  rewrite lineage_snoc in Hfree. rewrite lineage_snoc.
  rewrite mkdir_parents_eq. cbv zeta. rewrite reverse_cons.
  set (init := reverse rparent) in *. set (path := render (init ++ [c])) in *.
  assert (∀ q content, q ∈ lineage init → dirs w !! q ≠ Some (RegularFile content)) as Hfree1.
  { intros q content Hq. apply Hfree, elem_of_app. by left. }
  assert (∀ content, dirs w !! path ≠ Some (RegularFile content)) as Hfree2.
  { intros content. apply Hfree, elem_of_app. right. apply list_elem_of_here. }
  rewrite (os_mkdir_run _ path init c) by done.
  destruct (walk_cases (dirs w) init Hinit [])
    as [[Hw Hall] | [[Hw (q & Hin & Hq)] | [Hw (q & x & Hin & Hq)]]]; rewrite Hw.
  - assert (mkdir_single path true w
            = (inr (), set_dirs (<[path := Directory]> (dirs w)) w)) as Hsingle
      by (by apply (mkdir_single_ok path init c)).
    rewrite <- with_dirs_snoc_insert, (with_dirs_there (lineage init)) by done.
    by destruct (dirs w !! path).
  - cbn [os_error]. rewrite bind_run.
    assert (rparent ≠ []) as Hne1.
    { intros Hnil. unfold init in Hin. rewrite Hnil in Hin. by apply elem_of_nil in Hin. }
    rewrite (IH w Hne1 Hinit ltac:(lia) Hfree1).
    rewrite (mkdir_single_ok path init c); [| done .. | |].
    + cbn [dirs set_dirs]. by rewrite with_dirs_snoc_insert.
    + intros q' Hq'. cbn [dirs set_dirs]. rewrite with_dirs_lookup.
      by rewrite bool_decide_eq_true_2.
    + intros content. cbn [dirs set_dirs]. rewrite with_dirs_lookup.
      rewrite bool_decide_eq_false_2; [apply Hfree2 | by apply lineage_fresh].
  - by destruct (Hfree1 q x Hin).
Qed.

End Mkdir.

(** ** The names of the files, and one write *)

Section Filenames.
Import PyStr Posix.
Local Open Scope nat_scope.

Lemma split_go_acc (s : string) :
  ∀ cur, split_go cur s
         = match split_go "" s with p :: l => (cur +:+ p) :: l | [] => [] end.
Proof.
  induction s as [| a s IH]; intros cur; simpl.
  - by rewrite sapp_nil_r.
  - destruct (eqc a "/"); [by rewrite sapp_nil_r |]. rewrite sapp_nil_l.
    rewrite (IH (cur +:+ String a "")), (IH (String a "")).
    destruct (split_go "" s); [reflexivity |]. by rewrite sapp_snoc.
Qed.

Lemma split_go_nonempty (s : string) : ∀ cur, split_go cur s ≠ [].
Proof. induction s as [| a s IH]; intros cur; simpl; [done |]. destruct (eqc a "/"); [done | apply IH]. Qed.

Lemma split_go_prefix (x : string) :
  mem_char "/" x = false → ∀ cur s, split_go cur (x +:+ s) = split_go (cur +:+ x) s.
Proof.
  induction x as [| a x IH]; intros Hx cur s; snorm.
  - by rewrite sapp_nil_r.
  - simpl in Hx. apply orb_false_iff in Hx as [Ha Hx]. simpl. rewrite Ha.
    rewrite IH by done. by rewrite sapp_snoc.
Qed.

(** What follows the last separator grows with the text. *)
Lemma split_go_last (s : string) :
  ∀ cur, ∃ l p, split_go cur s = l ++ [p]
                ∧ ∀ t, mem_char "/" t = false → split_go cur (s +:+ t) = l ++ [p +:+ t].
Proof.
  induction s as [| a s IH]; intros cur; snorm.
  - exists [], cur. split; [reflexivity |]. intros t Ht. snorm.
    by destruct (split_go_plain t Ht cur) as [-> _].
  - simpl. destruct (eqc a "/") eqn:Ha.
    + destruct (IH "") as (l & p & Hs & Ht). exists (cur :: l), p. rewrite Hs.
      split; [reflexivity |]. intros t Hplain. by rewrite Ht.
    + destruct (IH (cur +:+ String a "")) as (l & p & Hs & Ht). exists l, p.
      split; [exact Hs |]. intros t Hplain. by apply Ht.
Qed.

Lemma split_go_single (s : string) :
  ∀ cur p, split_go cur s = [p] → mem_char "/" s = false.
Proof.
  induction s as [| a s IH]; intros cur p; simpl; [done |].
  destruct (eqc a "/") eqn:Ha.
  - intros [= _ Hnil]. by apply split_go_nonempty in Hnil.
  - intros H. simpl. by rewrite (IH _ _ H).
Qed.

Lemma fmt_04d_head (n : Z) : ∃ a r, fmt_04d n = String a r ∧ digit_or_sign a = true.
Proof.
  pose proof (fmt_04d_chars n) as Hchars.
  assert (fmt_04d n ≠ "") as Hne.
  { rewrite fmt_04d_eq. destruct (n <? 0)%Z; [discriminate | apply padded_nonempty]. }
  destruct (fmt_04d n) as [| a r]; [done |]. exists a, r. split; [reflexivity |].
  simpl in Hchars. by apply andb_true_iff in Hchars as [? _].
Qed.

(** A name that starts with the number is kept by [pathlib] and is not a
    dot name. *)
Lemma numbered_kept (n : Z) (p : string) :
  let b := fmt_04d n +:+ String "-" p in
  kept b = true ∧ String.eqb b ".." = false ∧ startswith "/" b = false.
Proof.
  intros b. unfold b. destruct (fmt_04d_head n) as (a & r & -> & Ha). snorm.
  assert (a ≠ "."%char ∧ a ≠ "/"%char) as [Hdot Hsep].
  { split; intros ->; discriminate Ha. }
  split; [| split].
  - unfold kept. cbn [is_empty negb andb].
    destruct (String.eqb_spec (String a (r +:+ String "-" p)) "."); [congruence | done].
  - destruct (String.eqb_spec (String a (r +:+ String "-" p)) ".."); [congruence | done].
  - cbn [startswith]. rewrite andb_true_r. unfold eqc. apply Ascii.eqb_neq. congruence.
Qed.

Lemma patch_filename_numbered (n : Z) (label : string) :
  patch_filename n label = fmt_04d n +:+ String "-" (label +:+ ".patch").
Proof. reflexivity. Qed.

Lemma fmt_04d_plain (n : Z) : mem_char "/" (fmt_04d n +:+ "-") = false.
Proof.
  rewrite mem_char_app. rewrite (all_chars_mem _ _ _ (fmt_04d_chars n)); reflexivity.
Qed.

(** The components of the name of a patch: the name itself when the label
    has no separator, and otherwise at least two, the first of which starts
    with the number. *)
Lemma filename_parts (n : Z) (label : string) :
  if mem_char "/" label
  then ∃ p m z, parts (patch_filename n label) = (fmt_04d n +:+ String "-" p) :: m ++ [z]
  else parts (patch_filename n label) = [patch_filename n label].
Proof.
  destruct (mem_char "/" label) eqn:Hsep.
  - unfold parts, split_sep.
    change (patch_filename n label) with (fmt_04d n +:+ "-" +:+ label +:+ ".patch").
    rewrite <- sapp_assoc. rewrite (split_go_prefix _ (fmt_04d_plain n)). snorm.
    rewrite split_go_acc.
    destruct (split_go_last label "") as (l & q & Hl & Ht). rewrite (Ht ".patch" eq_refl).
    destruct l as [| p l].
    + apply split_go_single in Hl. congruence.
    + cbn [app]. rewrite sapp_assoc. snorm. exists p, (List.filter kept l), (q +:+ ".patch").
      cbn [List.filter]. destruct (numbered_kept n p) as [-> _].
      rewrite List.filter_app. cbn [List.filter].
      assert (kept (q +:+ ".patch") = true) as ->; [| reflexivity].
      assert (5 < String.length (q +:+ ".patch")) as Hlong
        by (rewrite length_sapp; simpl; lia).
      unfold kept. destruct (q +:+ ".patch") as [| a s]; [simpl in Hlong; lia |].
      cbn [is_empty negb andb]. destruct (String.eqb_spec (String a s) ".") as [Heq |]; [| done].
      rewrite Heq in Hlong. simpl in Hlong. lia.
  - apply parts_plain. split.
    + unfold patch_filename. rewrite !mem_char_app, Hsep.
      by rewrite (all_chars_mem _ _ _ (fmt_04d_chars n)).
    + rewrite patch_filename_numbered. apply numbered_kept.
Qed.

End Filenames.

Section Writes.
Context {P : Platform}.
Import PyStr Posix.
Local Open Scope nat_scope.

Lemma path_truediv_parts dest_dir comps filename :
  resolved dest_dir comps → startswith "/" filename = false →
  path_truediv dest_dir filename = render (comps ++ parts filename).
Proof.
  intros (init & c & -> & -> & _ & _ & Hp & _)%resolved_snoc Hstart.
  unfold path_truediv. rewrite Hstart. by rewrite parts_render.
Qed.

Lemma path_truediv_file dest_dir comps n label :
  resolved dest_dir comps → mem_char "/" label = false →
  path_truediv dest_dir (patch_filename n label)
  = dest_dir +:+ "/" +:+ patch_filename n label
  ∧ path_truediv dest_dir (patch_filename n label) = render (comps ++ [patch_filename n label]).
Proof.
  intros Hres Hsep. pose proof (filename_parts n label) as Hparts. rewrite Hsep in Hparts.
  rewrite (path_truediv_parts _ comps) by (done || apply numbered_kept). rewrite Hparts.
  split; [| reflexivity]. destruct Hres as (-> & Hne & _). by apply render_snoc.
Qed.

Lemma write_text_run path content w :
  write_text path content w
  = match write_file (dirs w) path content with
    | inl e => (inl e, w)
    | inr fs => (inr (), set_dirs fs w)
    end.
Proof. reflexivity. Qed.

(** A name with a safe label that fits is written into a directory that
    is there. *)
Lemma write_text_ok dest_dir comps n label content w :
  resolved dest_dir comps →
  (∀ q, q ∈ lineage comps → dirs w !! q = Some Directory) →
  name_safe label →
  let filename := patch_filename n label in
  utf8_length filename ≤ NAME_MAX →
  utf8_length (dest_dir +:+ "/" +:+ filename) < PATH_MAX →
  dirs w !! (dest_dir +:+ "/" +:+ filename) ≠ Some Directory →
  write_text (path_truediv dest_dir filename) content w
  = (inr (), set_dirs (<[dest_dir +:+ "/" +:+ filename := RegularFile content]> (dirs w)) w).
Proof.
  intros Hres Hall Hsafe filename Hfit Hlen Hnode.
  destruct (patch_filename_valid n label Hsafe) as (Hsep & Hnul & _).
  destruct (path_truediv_file dest_dir comps n label Hres (proj1 Hsafe)) as [Hpath Hrender].
  fold filename in Hsep, Hnul, Hpath, Hrender.
  pose proof Hres as (init & c & Hcomps & Hd & _ & _ & Hp & Hdnul & _)%resolved_snoc.
  pose proof Hres as (_ & _ & Hcs & _).
  rewrite write_text_run. unfold write_file. rewrite Hrender.
  assert (piece filename) as Hpiece.
  { split; [exact Hsep |]. unfold filename. rewrite patch_filename_numbered. apply numbered_kept. }
  rewrite lookup_parent_render.
  - rewrite (walk_dirs _ _ Hcs Hall).
    assert (String.eqb filename ".." = false) as ->.
    { unfold filename. rewrite patch_filename_numbered. apply numbered_kept. }
    assert (Nat.ltb NAME_MAX (utf8_length filename) = false) as -> by (by apply Nat.ltb_ge).
    rewrite <- Hrender, Hpath. by destruct (dirs w !! _) as [[] |].
  - rewrite Hcomps in *. apply Forall_app. split; [exact Hp | by constructor].
  - rewrite <- Hrender, Hpath. rewrite !mem_char_app, Hdnul, Hnul. reflexivity.
  - by rewrite <- Hrender, Hpath.
Qed.

(** Whatever the label, a patch is written under its name in the directory
    or not at all, as long as the directory holds no directory. *)
Lemma write_text_cases dest_dir comps n label content w :
  resolved dest_dir comps →
  (∀ k, under dest_dir k = true → dirs w !! k ≠ Some Directory) →
  let filename := patch_filename n label in
  let r := write_text (path_truediv dest_dir filename) content w in
  (∃ e, r = (inl e, w))
  ∨ r = (inr (), set_dirs (<[dest_dir +:+ "/" +:+ filename := RegularFile content]> (dirs w)) w).
Proof.
  intros Hres Hinv filename r. unfold r. rewrite write_text_run.
  pose proof Hres as (init & c & Hcomps & Hd & _ & _ & Hp & Hdnul & _ & Hroot)%resolved_snoc.
  pose proof Hres as (_ & Hne & Hcs & _).
  rewrite <- Hcomps in Hp.
  assert (startswith "/" filename = false) as Hstart.
  { unfold filename. rewrite patch_filename_numbered. apply numbered_kept. }
  rewrite (path_truediv_parts _ comps) by done.
  unfold write_file, lookup_parent.
  destruct (mem_char "000" (render (comps ++ parts filename))); [left; by eexists |].
  destruct (Nat.leb PATH_MAX (utf8_length (render (comps ++ parts filename))));
    [left; by eexists |].
  rewrite parts_render by (apply Forall_app; split; [exact Hp | apply parts_pieces]).
  pose proof (filename_parts n label) as Hparts. fold filename in Hparts.
  destruct (mem_char "/" label) eqn:Hsep.
  - destruct Hparts as (p & m & z & ->).
    replace (comps ++ (fmt_04d n +:+ String "-" p) :: m ++ [z])
      with ((comps ++ (fmt_04d n +:+ String "-" p) :: m) ++ [z])
      by (by rewrite <- app_assoc).
    rewrite reverse_snoc, reverse_involutive, walk_app.
    destruct (walk_cases (dirs w) comps Hcs []) as [[-> _] | [[-> _] | [-> _]]];
      [| left; by eexists ..].
    cbn [walk app]. destruct (numbered_kept n p) as (_ & -> & _).
    destruct (Nat.ltb NAME_MAX _); [left; by eexists |].
    destruct (dirs w !! render (comps ++ [fmt_04d n +:+ String "-" p])) as [[] |] eqn:Hnode;
      [left; by eexists | | left; by eexists].
    exfalso.
    rewrite (proj1 Hres) in Hinv. rewrite render_snoc in Hnode by done.
    apply (Hinv (render comps +:+ "/" +:+ (fmt_04d n +:+ String "-" p))); [| exact Hnode].
    apply under_file. rewrite <- (proj1 Hres). exact Hroot.
  - rewrite Hparts. rewrite reverse_snoc, reverse_involutive.
    destruct (walk_cases (dirs w) comps Hcs []) as [[-> _] | [[-> _] | [-> _]]];
      [| left; by eexists ..].
    assert (String.eqb filename ".." = false) as ->.
    { unfold filename. rewrite patch_filename_numbered. apply numbered_kept. }
    destruct (Nat.ltb NAME_MAX _); [left; by eexists |].
    cbn [app]. rewrite render_snoc by done. rewrite <- (proj1 Hres).
    destruct (dirs w !! _) as [[] |]; [by right | left; by eexists | by right].
Qed.

(** A label with a separator asks for a directory in the directory; when
    the rest is in order the name is not found. *)
Lemma write_text_missing_parent dest_dir comps n label content w :
  resolved dest_dir comps →
  (∀ q, q ∈ lineage comps → dirs w !! q = Some Directory) →
  mem_char "/" label = true → mem_char "000" label = false →
  let filename := patch_filename n label in
  (∀ b, head (parts filename) = Some b →
        utf8_length b ≤ NAME_MAX ∧ dirs w !! (dest_dir +:+ "/" +:+ b) = None) →
  utf8_length (path_truediv dest_dir filename) < PATH_MAX →
  write_text (path_truediv dest_dir filename) content w
  = (inl (FileNotFoundError (path_truediv dest_dir filename)), w).
Proof.
  intros Hres Hall Hsep Hnul filename Hhead Hlen. rewrite write_text_run.
  pose proof Hres as (init & c & Hcomps & Hd & _ & _ & Hp & Hdnul & _ & Hroot)%resolved_snoc.
  pose proof Hres as (_ & Hne & Hcs & _).
  rewrite <- Hcomps in Hp.
  assert (startswith "/" filename = false) as Hstart.
  { unfold filename. rewrite patch_filename_numbered. apply numbered_kept. }
  rewrite (path_truediv_parts _ comps) in * by done.
  unfold write_file, lookup_parent.
  assert (mem_char "000" (render (comps ++ parts filename)) = false) as ->.
  { apply mem_char_render; [done |]. apply Forall_app. split; [by apply components_nul |].
    apply parts_chars. unfold filename, patch_filename. rewrite !mem_char_app, Hnul.
    by rewrite (all_chars_mem _ _ _ (fmt_04d_chars n)). }
  assert (Nat.leb PATH_MAX (utf8_length (render (comps ++ parts filename))) = false) as ->
    by (by apply Nat.leb_gt).
  rewrite parts_render by (apply Forall_app; split; [exact Hp | apply parts_pieces]).
  pose proof (filename_parts n label) as Hparts. fold filename in Hparts. rewrite Hsep in Hparts.
  destruct Hparts as (p & m & z & Hparts). rewrite Hparts in *.
  destruct (Hhead _ eq_refl) as [Hfit Habs].
  replace (comps ++ (fmt_04d n +:+ String "-" p) :: m ++ [z])
    with ((comps ++ (fmt_04d n +:+ String "-" p) :: m) ++ [z])
    by (by rewrite <- app_assoc).
  rewrite reverse_snoc, reverse_involutive, walk_app, (walk_dirs _ _ Hcs Hall).
  cbn [walk app]. destruct (numbered_kept n p) as (_ & -> & _).
  assert (Nat.ltb NAME_MAX (utf8_length (fmt_04d n +:+ String "-" p)) = false) as ->
    by (by apply Nat.ltb_ge).
  rewrite render_snoc by done. rewrite <- (proj1 Hres), Habs. reflexivity.
Qed.

End Writes.

(** ** The loop and what comes before it *)

Section Series.
Context {P : Platform}.
Import PyStr Posix.
Local Open Scope nat_scope.

Lemma with_files_cons dest_dir file files fs :
  with_files dest_dir (file :: files) fs
  = with_files dest_dir files (<[dest_dir +:+ "/" +:+ file.1 := RegularFile file.2]> fs).
Proof. reflexivity. Qed.

Lemma with_files_other dest_dir files :
  ∀ fs path, (∀ name, name ∈ files.*1 → path ≠ dest_dir +:+ "/" +:+ name) →
             with_files dest_dir files fs !! path = fs !! path.
Proof.
  induction files as [| file files IH]; intros fs path Hpath; [reflexivity |].
  rewrite with_files_cons, IH.
  - rewrite lookup_insert_ne; [done |]. intros Heq. apply (Hpath file.1); [| done].
    simpl. apply list_elem_of_here.
  - intros name Hname. apply Hpath. simpl. by apply list_elem_of_further.
Qed.


Lemma with_files_inv dest_dir files :
  ∀ fs path node,
    with_files dest_dir files fs !! path = Some node →
    (∃ name content, (name, content) ∈ files ∧ path = dest_dir +:+ "/" +:+ name
                     ∧ node = RegularFile content)
    ∨ fs !! path = Some node.
Proof.
  induction files as [| [name content] files IH]; intros fs path node; [by right |].
  rewrite with_files_cons. intros [(n & c & Hin & -> & ->) | Hfs]%IH.
  - left. exists n, c. split; [by apply list_elem_of_further | done].
  - cbn [fst snd] in Hfs. destruct (decide (path = dest_dir +:+ "/" +:+ name)) as [-> | Hne].
    + rewrite lookup_insert_eq in Hfs. injection Hfs as <-. left. exists name, content.
      split; [apply list_elem_of_here | done].
    + rewrite lookup_insert_ne in Hfs by done. by right.
Qed.

Lemma series_cons current label content (patches : list Patch) :
  series current ((label, content) :: patches)
  = (patch_filename current label, content) :: series (current + 1) patches.
Proof. reflexivity. Qed.

Lemma series_lookup_inv (patches : list Patch) :
  ∀ current i name content,
    series current patches !! i = Some (name, content) →
    ∃ label, patches !! i = Some (label, content)
             ∧ name = patch_filename (current + Z.of_nat i) label.
Proof.
  induction patches as [| [l c] rest IH]; intros current [| i] name content; simpl; try done.
  - intros [= <- <-]. exists l. by rewrite Z.add_0_r.
  - intros (label & Hl & ->)%IH. exists label. split; [exact Hl |]. f_equal. lia.
Qed.

Lemma ready_insert fs dest_dir comps name content :
  resolved dest_dir comps → ready fs dest_dir comps →
  ready (<[dest_dir +:+ "/" +:+ name := RegularFile content]> fs) dest_dir comps.
Proof.
  intros Hres [Hall Hinv].
  pose proof Hres as (init & c & Hcomps & Hd & _ & _ & Hp & _ & _ & Hroot)%resolved_snoc.
  split.
  - intros q Hq. rewrite lookup_insert_ne; [by apply Hall |]. intros <-.
    pose proof (lineage_not_under comps _ ltac:(by destruct Hres as (_ & ? & _))
                  ltac:(by rewrite Hcomps) Hq) as Hnot.
    rewrite <- (proj1 Hres) in Hnot. by rewrite under_file in Hnot.
  - intros k Hk. destruct (decide (k = dest_dir +:+ "/" +:+ name)) as [-> | Hne].
    + by rewrite lookup_insert_eq.
    + rewrite lookup_insert_ne by done. by apply Hinv.
Qed.

(** With safe labels and names that fit, the loop writes the series. *)
Lemma write_loop_ok dest_dir comps (patches : list Patch) :
  ∀ current w,
    resolved dest_dir comps → ready (dirs w) dest_dir comps →
    Forall (λ p, name_safe p.1) patches →
    fits dest_dir (series current patches) →
    for_each patches current (write_patch dest_dir) w
    = (inr (current + Z.of_nat (length patches))%Z,
       set_dirs (with_files dest_dir (series current patches) (dirs w)) w).
Proof.
  induction patches as [| [label content] rest IH]; intros current w Hres Hready Hsafe Hfits.
  - simpl. rewrite Z.add_0_r. by destruct w.
  - apply Forall_cons in Hsafe as [Hlabel Hsafe]. rewrite series_cons in Hfits.
    apply Forall_cons in Hfits as [[Hfit Hlen] Hfits]. cbn [fst] in Hfit, Hlen, Hlabel.
    rewrite for_each_cons. unfold write_patch at 1. cbv zeta. rewrite bind_run.
    rewrite (write_text_ok dest_dir comps); [| done | apply Hready | done ..|].
    + rewrite ret_run. rewrite IH; [| done | | done | done].
      * rewrite series_cons, with_files_cons. cbn [dirs set_dirs fst snd length].
        do 2 f_equal. lia.
      * cbn [dirs set_dirs]. by apply ready_insert.
    + apply Hready. apply under_file.
      by destruct (resolved_snoc _ _ Hres) as (_ & _ & _ & _ & _ & _ & _ & _ & _ & ?).
Qed.

(** Whatever the labels, the loop writes the first files of the series and
    nothing else. *)
Lemma write_loop_any dest_dir comps (patches : list Patch) :
  ∀ current w,
    resolved dest_dir comps →
    (∀ k, under dest_dir k = true → dirs w !! k ≠ Some Directory) →
    let r := for_each patches current (write_patch dest_dir) w in
    ∃ n, r.2 = set_dirs (with_files dest_dir (firstn n (series current patches)) (dirs w)) w.
Proof.
  induction patches as [| [label content] rest IH]; intros current w Hres Hinv r; unfold r.
  - exists 0. by destruct w.
  - rewrite for_each_cons. unfold write_patch at 1. cbv zeta. rewrite bind_run.
    destruct (write_text_cases dest_dir comps current label content w Hres Hinv)
      as [[e ->] | ->].
    + exists 0. by destruct w.
    + rewrite ret_run.
      set (w1 := set_dirs (<[dest_dir +:+ "/" +:+ patch_filename current label
                             := RegularFile content]> (dirs w)) w).
      destruct (IH (current + 1)%Z w1 Hres) as [n Hn].
      * intros k Hk. unfold w1. cbn [dirs set_dirs].
        destruct (decide (k = dest_dir +:+ "/" +:+ patch_filename current label)) as [-> | Hne].
        -- by rewrite lookup_insert_eq.
        -- rewrite lookup_insert_ne by done. by apply Hinv.
      * exists (S n). rewrite Hn. rewrite series_cons. cbn [firstn]. by rewrite with_files_cons.
Qed.

(** ** Before the loop *)

Lemma write_patches_eq patches dest_dir start_number w :
  write_patches patches dest_dir start_number w
  = match (there ← dir_exists dest_dir;
           (if there : bool then rmtree dest_dir else mret ());;
           mkdir_parents_exist_ok dest_dir) w with
    | (inl e, w') => (inl e, w')
    | (inr _, w') =>
        match for_each patches start_number (write_patch dest_dir) w' with
        | (inl e, w'') => (inl e, w'')
        | (inr _, w'') => (inr (), w'')
        end
    end.
Proof.
  unfold write_patches. rewrite !bind_run.
  destruct (dir_exists dest_dir w) as [[e | there] w0]; [reflexivity |].
  rewrite !bind_run.
  destruct ((if there then rmtree dest_dir else mret ()) w0) as [[e | []] w1]; [reflexivity |].
  rewrite !bind_run.
  destruct (mkdir_parents_exist_ok dest_dir w1) as [[e | []] w2]; [reflexivity |].
  rewrite !bind_run.
  destruct (for_each patches start_number (write_patch dest_dir) w2) as [[e | k] w3];
    reflexivity.
Qed.

Lemma mkdir_dest dest_dir comps :
  resolved dest_dir comps → mkdir_parents_exist_ok dest_dir = mkdir_parents (reverse comps) true.
Proof.
  intros (init & c & -> & -> & _ & _ & Hp & _)%resolved_snoc.
  unfold mkdir_parents_exist_ok. by rewrite parts_render.
Qed.

Lemma dest_in_lineage dest_dir comps : resolved dest_dir comps → dest_dir ∈ lineage comps.
Proof.
  intros (init & c & -> & -> & _)%resolved_snoc. apply lineage_last.
Qed.

(** With a clear way, the destination is emptied and made. *)
Lemma prepare_ok dest_dir comps w :
  resolved dest_dir comps → clear_way (dirs w) dest_dir comps →
  (there ← dir_exists dest_dir;
   (if there : bool then rmtree dest_dir else mret ());;
   mkdir_parents_exist_ok dest_dir) w
  = (inr (), set_dirs (with_dirs (lineage comps) (remove_tree dest_dir (dirs w))) w).
Proof.
  intros Hres [Hfree Hunder].
  pose proof Hres as (_ & Hne & Hcs & Hlen).
  assert (reverse comps ≠ []) as Hrev.
  { intros Hnil. apply (f_equal reverse) in Hnil. by rewrite reverse_involutive in Hnil. }
  rewrite bind_run, (dir_exists_run _ _ _ Hres), (mkdir_dest _ _ Hres).
  destruct (dirs w !! dest_dir) as [[content |] |] eqn:Hd.
  - by destruct (Hfree dest_dir content (dest_in_lineage _ _ Hres)).
  - rewrite bool_decide_eq_true_2 by done. rewrite bind_run, (rmtree_directory _ _ Hd).
    rewrite mkdir_parents_ok; rewrite ?reverse_involutive; try done.
    + by rewrite <- (proj1 Hres).
    + intros q content Hq. cbn [dirs set_dirs]. rewrite remove_tree_lookup.
      destruct (_ || _); [done | by apply Hfree].
  - rewrite bool_decide_eq_false_2 by (by intros [? ?]). rewrite bind_run, ret_run.
    rewrite (remove_tree_absent _ _ Hd Hunder).
    rewrite mkdir_parents_ok; rewrite ?reverse_involutive; try done.
    by rewrite <- (proj1 Hres).
Qed.

(** Whatever is in the way, only the destination, what lies under it and
    the missing directories on the way change. *)
Lemma prepare_any dest_dir comps w :
  resolved dest_dir comps → nothing_under_absent (dirs w) dest_dir →
  let r := (there ← dir_exists dest_dir;
            (if there : bool then rmtree dest_dir else mret ());;
            mkdir_parents_exist_ok dest_dir) w in
  (∃ content, dirs w !! dest_dir = Some (RegularFile content)
              ∧ r = (inl (NotADirectoryError dest_dir), w))
  ∨ (r.2 = set_dirs (dirs r.2) w
     ∧ grown (lineage comps) (remove_tree dest_dir (dirs w)) (dirs r.2)).
Proof.
  intros Hres Hunder r. unfold r.
  pose proof Hres as (_ & Hne & Hcs & Hlen).
  rewrite bind_run, (dir_exists_run _ _ _ Hres), (mkdir_dest _ _ Hres).
  pose proof (mkdir_parents_grown (reverse comps)) as Hgrown.
  rewrite reverse_involutive, <- (proj1 Hres) in Hgrown.
  destruct (dirs w !! dest_dir) as [[content |] |] eqn:Hd.
  - left. exists content. split; [reflexivity |].
    rewrite bool_decide_eq_true_2 by done. by rewrite bind_run, (rmtree_regular_file _ _ _ Hd).
  - right. rewrite bool_decide_eq_true_2 by done. rewrite bind_run, (rmtree_directory _ _ Hd).
    destruct (Hgrown (set_dirs (remove_tree dest_dir (dirs w)) w) Hcs Hlen) as [H1 H2].
    split; [by rewrite H1 | exact H2].
  - right. rewrite bool_decide_eq_false_2 by (by intros [? ?]). rewrite bind_run, ret_run.
    rewrite (remove_tree_absent _ _ Hd Hunder). by apply Hgrown.
Qed.

Lemma ready_made dest_dir comps fs :
  resolved dest_dir comps → ready (with_dirs (lineage comps) (remove_tree dest_dir fs)) dest_dir comps.
Proof.
  intros Hres.
  pose proof Hres as (init & c & Hcomps & Hd & _ & _ & Hp & _ & _ & Hroot)%resolved_snoc.
  split.
  - intros q Hq. rewrite with_dirs_lookup. by rewrite bool_decide_eq_true_2.
  - intros k Hk. rewrite with_dirs_lookup. rewrite bool_decide_eq_false_2.
    + rewrite remove_tree_lookup, Hk. by rewrite orb_true_r.
    + intros Hq. apply (lineage_not_under comps) in Hq;
        [| by destruct Hres as (_ & ? & _) | by rewrite Hcomps].
      rewrite <- (proj1 Hres) in Hq. congruence.
Qed.

(** With a clear way, safe labels and names that fit, [write_patches]
    returns and leaves the series installed. *)
Lemma write_patches_ok patches dest_dir comps start_number w :
  resolved dest_dir comps → clear_way (dirs w) dest_dir comps →
  Forall (λ p, name_safe p.1) patches →
  fits dest_dir (series start_number patches) →
  write_patches patches dest_dir start_number w
  = (inr (), set_dirs (installed dest_dir comps (series start_number patches) (dirs w)) w).
Proof.
  intros Hres Hclear Hsafe Hfits.
  rewrite write_patches_eq, (prepare_ok _ _ _ Hres Hclear).
  rewrite (write_loop_ok dest_dir comps); [reflexivity | done | | done | done].
  cbn [dirs set_dirs]. by apply ready_made.
Qed.

End Series.

(** ** What the series writer leaves *)

Section Installed.
Context {P : Platform}.
Import PyStr Posix.
Local Open Scope nat_scope.

Lemma file_not_in_lineage dest_dir comps name :
  resolved dest_dir comps → dest_dir +:+ "/" +:+ name ∉ lineage comps.
Proof.
  intros Hres Hq.
  pose proof Hres as (init & c & Hcomps & Hd & _ & _ & Hp & _ & _ & Hroot)%resolved_snoc.
  apply (lineage_not_under comps) in Hq; [| by destruct Hres as (_ & ? & _) | by rewrite Hcomps].
  rewrite <- (proj1 Hres) in Hq. by rewrite under_file in Hq.
Qed.

Lemma dest_not_file dest_dir comps name :
  resolved dest_dir comps → dest_dir ≠ dest_dir +:+ "/" +:+ name.
Proof.
  intros Hres Heq. apply (file_not_in_lineage dest_dir comps name Hres).
  rewrite <- Heq. by apply dest_in_lineage.
Qed.

Lemma made_under dest_dir comps fs path :
  resolved dest_dir comps → under dest_dir path = true →
  with_dirs (lineage comps) (remove_tree dest_dir fs) !! path = None.
Proof.
  intros Hres Hunder.
  pose proof Hres as (init & c & Hcomps & Hd & _ & _ & Hp & _ & _ & Hroot)%resolved_snoc.
  rewrite with_dirs_lookup, bool_decide_eq_false_2.
  - rewrite remove_tree_lookup, Hunder. by rewrite orb_true_r.
  - intros Hq. apply (lineage_not_under comps) in Hq;
      [| by destruct Hres as (_ & ? & _) | by rewrite Hcomps].
    rewrite <- (proj1 Hres) in Hq. congruence.
Qed.


Lemma installed_lineage dest_dir comps files fs path :
  resolved dest_dir comps → path ∈ lineage comps →
  installed dest_dir comps files fs !! path = Some Directory.
Proof.
  intros Hres Hq. unfold installed. rewrite with_files_other.
  - rewrite with_dirs_lookup. by rewrite bool_decide_eq_true_2.
  - intros name _ ->. by apply (file_not_in_lineage dest_dir comps name Hres).
Qed.





End Installed.

Section Checks.
Import PyStr Posix.
Local Open Scope nat_scope.

(** The hypotheses of the writer's theorems can be checked by computation. *)
Lemma resolved_check dest_dir comps :
  String.eqb dest_dir (render comps) = true →
  forallb (λ c, negb (String.eqb c "") && negb (String.eqb c ".") && negb (String.eqb c "..")
                && negb (mem_char "/" c) && negb (mem_char "000" c)
                && Nat.leb (utf8_length c) NAME_MAX) comps = true →
  negb (bool_decide (comps = [])) && Nat.ltb (utf8_length dest_dir) PATH_MAX = true →
  resolved dest_dir comps.
Proof.
  intros Hd%String.eqb_eq Hcs [Hne Hlen]%andb_true_iff. split; [exact Hd |].
  split; [by apply negb_true_iff, bool_decide_eq_false in Hne |].
  split; [| by apply Nat.ltb_lt]. apply Forall_forall. intros c Hc.
  rewrite forallb_forall in Hcs. specialize (Hcs c ltac:(by apply list_elem_of_In)).
  repeat (apply andb_true_iff in Hcs as [Hcs ?]).
  repeat split; try (by apply String.eqb_neq, negb_true_iff); try (by apply negb_true_iff).
  by apply Nat.leb_le.
Qed.

Lemma clear_way_check fs dest_dir comps :
  forallb (λ q, match fs !! q with Some (RegularFile _) => false | _ => true end)
    (lineage comps) = true →
  (is_Some (fs !! dest_dir) ∨ fs = ∅) →
  clear_way fs dest_dir comps.
Proof.
  intros Hfree Hdest. split.
  - intros path content Hpath Hfile. rewrite forallb_forall in Hfree.
    specialize (Hfree path ltac:(by apply list_elem_of_In)). by rewrite Hfile in Hfree.
  - intros Habsent path _. destruct Hdest as [[node Hnode] | ->]; [congruence | done].
Qed.

Lemma fits_check dest_dir files :
  forallb (λ file, Nat.leb (utf8_length file.1) NAME_MAX
                   && Nat.ltb (utf8_length (dest_dir +:+ "/" +:+ file.1)) PATH_MAX) files = true →
  fits dest_dir files.
Proof.
  intros Hfiles. apply Forall_forall. intros file Hfile. rewrite forallb_forall in Hfiles.
  specialize (Hfiles file ltac:(by apply list_elem_of_In)).
  apply andb_true_iff in Hfiles as [H1 H2]. split; [by apply Nat.leb_le | by apply Nat.ltb_lt].
Qed.

Lemma patches_dir_resolved :
  resolved "/root/package/patches" ["root"; "package"; "patches"].
Proof. apply resolved_check; vm_compute; reflexivity. Qed.

End Checks.

(** ** Concrete runs *)

Section Witnesses.
Import Toy ToyRuns.
#[local] Existing Instance toy_platform.
#[local] Existing Instance toy_plumbing.

Lemma simulate_apply_output_witness :
  simulate_apply "/repo" "base" toy_cachyos toy_tuxedo w_ab
  = (inr [("m1", "a>a1"); ("t1", "b>c"); ("t4", "a>q")],
     (simulate_apply "/repo" "base" toy_cachyos toy_tuxedo w_ab).2)
  ∧ [("m1", "a>a1"); ("t1", "b>c"); ("t4", "a>q")]
    = toy_cachyos ++ keep_applied toy_tuxedo [applied; skipped; failed; applied].
Proof.
  assert (simulate_apply "/repo" "base" toy_cachyos toy_tuxedo w_ab
          = (inr [("m1", "a>a1"); ("t1", "b>c"); ("t4", "a>q")],
             (simulate_apply "/repo" "base" toy_cachyos toy_tuxedo w_ab).2)) as Hrun
    by (vm_compute; reflexivity).
  split; [exact Hrun |].
  exact (proj1 (simulate_apply_output _ _ _ _ _ _ _ Hrun)).
Defined.

Lemma must_apply_failure_is_fatal_witness :
  ∃ w',
    main_package (script_config "/root") "base" ([("m1", "a>a1")] ++ ("m2", "zz>y") :: [("m3", "b>b1")])
      toy_tuxedo w_ab
    = (inl (RuntimeError
              "CachyOS patch failed to apply on base: m2 :: error: patch does not apply: zz>y"), w')
    ∧ dirs w' = dirs w_ab
    ∧ last (calls w') = Some (three_way_args "/root/linux").
Proof.
  destruct (must_apply_failure_is_fatal (script_config "/root") "base"
              [("m1", "a>a1")] "m2" "zz>y" [("m3", "b>b1")] toy_tuxedo w_ab)
    as (w' & _ & Hmain & Hdirs & Hlast & _).
  - vm_compute. reflexivity.
  - vm_compute. repeat constructor.
  - vm_compute. discriminate.
  - vm_compute. discriminate.
  - exists w'. split; [exact Hmain |]. by split.
Defined.



Lemma commit_count_guard_witness :
  main (script_config "/root") (toy_history 51)
  = (inl (SystemExit "unexpected tuxedo patch count: 51 (>50)"),
     (main_extract (script_config "/root") (toy_history 51)).2)
  ∧ main (script_config "/root") (toy_history 3)
    = main_collect (script_config "/root") "refs/remotes/origin/pin-linux" (toy_commits 3)
        (main_extract (script_config "/root") (toy_history 3)).2.
Proof.
  split.
  - refine (proj1 (commit_count_guard (script_config "/root") (toy_history 51)
                     "refs/remotes/origin/pin-linux" (toy_commits 51) _ _) _).
    + vm_compute. reflexivity.
    + vm_compute. lia.
  - refine (proj2 (commit_count_guard (script_config "/root") (toy_history 3)
                     "refs/remotes/origin/pin-linux" (toy_commits 3) _ _) _).
    + vm_compute. reflexivity.
    + vm_compute. lia.
Defined.



Lemma declared_patch_never_dropped_witness :
  (collect_cachyos_patches "/root/cachyos-patches" "6.19" "/root/cachyos-pkgbuilds/PKGBUILD"
     "thin" "bore" (toy_checkout toy_patch_files)).1
  = inr [("cachyos-base-all", "diff --git a/x b/x"); ("bore-cachy", "diff --git a/y b/y")]
  ∧ (collect_cachyos_patches "/root/cachyos-patches" "6.19" "/root/cachyos-pkgbuilds/PKGBUILD"
       "thin" "bore" (toy_checkout [hd ("", "") toy_patch_files])).1
    = inl (missing_patch "/root/cachyos-patches" "6.19"
             "https://raw.githubusercontent.com/cachyos/kernel-patches/master/6.19/sched/0001-bore-cachy.patch").
Proof.
  split; [vm_compute; reflexivity |].
  refine (proj2 (proj2 (declared_patch_never_dropped "/root/cachyos-patches" "6.19"
                          "/root/cachyos-pkgbuilds/PKGBUILD" "thin" "bore"
                          (toy_checkout [hd ("", "") toy_patch_files])))
            ["https://raw.githubusercontent.com/cachyos/kernel-patches/master/6.19/all/0001-cachyos-base-all.patch"]
            _ [] _ _ _ _).
  - vm_compute. reflexivity.
  - vm_compute. reflexivity.
  - constructor; [| constructor].
    exists ("cachyos-base-all", "diff --git a/x b/x"). vm_compute. repeat split; reflexivity.
  - vm_compute. reflexivity.
Defined.
End Witnesses.

(** ** White space and lines *)

Section Stripping.
Import PyStr.
Context (p : ascii → bool).

Lemma lstrip_lstrip (s : string) : lstrip_by p (lstrip_by p s) = lstrip_by p s.
Proof.
  induction s as [| a s IH]; [reflexivity |]. simpl.
  destruct (p a) eqn:Ha; [exact IH |]. simpl. by rewrite Ha.
Qed.

Lemma rstrip_step (a : ascii) (s : string) :
  rstrip_by p (String a s)
  = match rstrip_by p s with
    | "" => if p a then "" else String a ""
    | r' => String a r'
    end.
Proof. reflexivity. Qed.

Lemma rstrip_rstrip (s : string) : rstrip_by p (rstrip_by p s) = rstrip_by p s.
Proof.
  induction s as [| a s IH]; [reflexivity |]. rewrite rstrip_step.
  destruct (rstrip_by p s) as [| b u] eqn:Hr.
  - destruct (p a) eqn:Ha; [reflexivity |]. simpl. by rewrite Ha.
  - rewrite rstrip_step, IH. reflexivity.
Qed.

Lemma lstrip_rstrip (s : string) :
  lstrip_by p s = s → lstrip_by p (rstrip_by p s) = rstrip_by p s.
Proof.
  destruct s as [| a s]; [reflexivity |]. simpl.
  destruct (p a) eqn:Ha.
  - intros Heq. exfalso. apply (f_equal String.length) in Heq. simpl in Heq.
    assert (∀ t, String.length (lstrip_by p t) ≤ String.length t)%nat as Hle.
    { clear. induction t as [| c t IH]; simpl; [lia |]. destruct (p c); simpl; lia. }
    specialize (Hle s). lia.
  - intros _. destruct (rstrip_by p s); simpl; by rewrite Ha.
Qed.

(** [strip] is idempotent. *)
Lemma strip_by_strip_by (s : string) : strip_by p (strip_by p s) = strip_by p s.
Proof.
  unfold strip_by. rewrite (lstrip_rstrip (lstrip_by p s)) by apply lstrip_lstrip.
  apply rstrip_rstrip.
Qed.

Lemma rstrip_clean (s : string) : all_chars (λ c, negb (p c)) s = true → rstrip_by p s = s.
Proof.
  induction s as [| a s IH]; [reflexivity |]. simpl.
  intros [Ha Hs]%andb_true_iff. apply negb_true_iff in Ha. rewrite (IH Hs), Ha. by destruct s.
Qed.

Lemma lstrip_clean (s : string) : all_chars (λ c, negb (p c)) s = true → lstrip_by p s = s.
Proof.
  destruct s as [| a s]; [reflexivity |]. simpl.
  intros [Ha _]%andb_true_iff. apply negb_true_iff in Ha. by rewrite Ha.
Qed.

Lemma strip_clean (s : string) : all_chars (λ c, negb (p c)) s = true → strip_by p s = s.
Proof. intros Hs. unfold strip_by. by rewrite (lstrip_clean s Hs), rstrip_clean. Qed.

(** A text that starts with a character that stays keeps it. *)
Lemma strip_by_head (a : ascii) (s : string) :
  p a = false → ∃ t, strip_by p (String a s) = String a t.
Proof.
  intros Ha. unfold strip_by. simpl. rewrite Ha, rstrip_step.
  destruct (rstrip_by p s); [rewrite Ha |]; by eexists.
Qed.

End Stripping.

Section Lines.
Import PyStr.

Lemma splitlines_go_line (l : string) :
  ∀ cur rest, no_linebreak l →
              splitlines_go cur false (l +:+ rest) = splitlines_go (cur +:+ l) false rest.
Proof.
  unfold no_linebreak.
  induction l as [| a l IH]; intros cur rest; snorm; [by rewrite sapp_nil_r |].
  simpl. intros [Ha Hl]%andb_true_iff. apply negb_true_iff in Ha. rewrite Ha.
  rewrite (IH _ _ Hl), sapp_snoc. reflexivity.
Qed.

(** Lines that are each ended by a line feed are read back as they are. *)
Lemma splitlines_hash_lines (lines : list string) :
  Forall no_linebreak lines → splitlines (Script.hash_lines lines) = lines.
Proof.
  unfold splitlines. induction 1 as [| l rest Hl _ IH]; [reflexivity |].
  simpl Script.hash_lines. rewrite splitlines_go_line by exact Hl. snorm.
  unfold nl. snorm. simpl. by rewrite IH.
Qed.

Lemma hex_not_space c : is_hex c = true → isspace c = false.
Proof.
  destruct c as [b0 b1 b2 b3 b4 b5 b6 b7].
  destruct b0, b1, b2, b3, b4, b5, b6, b7; vm_compute; congruence.
Qed.

Lemma space_linebreak c : is_linebreak c = true → isspace c = true.
Proof.
  destruct c as [b0 b1 b2 b3 b4 b5 b6 b7].
  destruct b0, b1, b2, b3, b4, b5, b6, b7; vm_compute; congruence.
Qed.

Lemma all_chars_neg_impl (p q : ascii → bool) (s : string) :
  (∀ c, p c = true → q c = false) → all_chars p s = true →
  all_chars (λ c, negb (q c)) s = true.
Proof.
  intros Hpq. apply all_chars_impl. intros c Hc. by rewrite (Hpq c Hc).
Qed.

Lemma commit_id_strip (h : string) : commit_id h → strip h = h.
Proof.
  intros [_ Hhex]. apply strip_clean. by apply (all_chars_neg_impl is_hex); [apply hex_not_space |].
Qed.

Lemma commit_id_no_linebreak (h : string) : commit_id h → no_linebreak h.
Proof.
  intros [_ Hhex]. apply (all_chars_neg_impl is_hex); [| exact Hhex].
  intros c Hc. destruct (is_linebreak c) eqn:Hl; [| reflexivity].
  apply space_linebreak in Hl. by rewrite (hex_not_space c Hc) in Hl.
Qed.

Lemma stripped_lines_ids (ids : list string) :
  Forall commit_id ids → Script.stripped_lines (Script.hash_lines ids) = ids.
Proof.
  intros Hids. unfold Script.stripped_lines.
  rewrite splitlines_hash_lines by (eapply Forall_impl; [exact Hids | apply commit_id_no_linebreak]).
  induction Hids as [| h rest Hh _ IH]; [reflexivity |].
  simpl. rewrite (commit_id_strip h Hh), IH. destruct Hh as [Hne _]. by destruct h.
Qed.

(** Every line kept is not empty and is its own strip. *)
Lemma stripped_lines_clean (out : string) :
  Forall (λ line, line ≠ "" ∧ strip line = line) (Script.stripped_lines out).
Proof.
  unfold Script.stripped_lines. apply Forall_forall. intros line Hin.
  apply list_elem_of_In, filter_In in Hin as [Hin Hne].
  apply in_map_iff in Hin as (raw & <- & _). split.
  - intros Heq. by rewrite Heq in Hne.
  - apply strip_by_strip_by.
Qed.
End Lines.

(** ** The commands of the script *)

Section Commands.
Context {P : Platform}.
Import PyStr Script.

Lemma run_git_run args capture check input env w :
  run_git args capture check input env w
  = (if check && negb (proc_rc args input env (ext w) =? 0)%Z then
       inl (CalledProcessError (proc_rc args input env (ext w)) args
              (if capture then Some (proc_out args input env (ext w)) else None)
              (failure_message capture (proc_out args input env (ext w))
                 (proc_err args input env (ext w))))
     else inr (completed capture (proc_rc args input env (ext w))
                 (proc_out args input env (ext w)) (proc_err args input env (ext w))),
     logged w (proc_next args input env (ext w)) [args]).
Proof.
  unfold run_git, subprocess, print, logged, proc_rc, proc_out, proc_err, proc_next, cmdline,
    failure_message, completed.
  rewrite !bind_run. cbn [ext dirs stdout calls].
  destruct (subprocess_run args input env (ext w)) as [[[rc out] err] e'].
  cbn [fst snd returncode cp_stdout cp_stderr map].
  destruct (check && negb (rc =? 0)%Z); [| reflexivity].
  unfold raise. f_equal. f_equal. f_equal.
  destruct capture; [| reflexivity].
  assert (∀ t, por_str (Some t) "" = t) as Hor by (by intros []).
  rewrite !Hor. unfold por, por_str, truthy, first_nonempty. cbn [List.find].
  destruct (strip err), (strip out); reflexivity.
Qed.

(** [msg = stderr or stdout or "git command failed"]: git's own words are
    lost when the output is not captured. *)
Lemma failure_message_uncaptured out err : failure_message false out err = "git command failed".
Proof. reflexivity. Qed.

(** X1. [run_git] prints and starts its command exactly once.  It returns the
    completed process when [check] is off or the return code is zero;
    otherwise it raises [CalledProcessError] with the return code, whose
    message is the stripped error text, else the stripped output, else
    ["git command failed"] -- always the latter when nothing is captured. *)
Theorem run_git_failure args capture check input env w :
  let rc := proc_rc args input env (ext w) in
  let out := proc_out args input env (ext w) in
  let err := proc_err args input env (ext w) in
  let r := run_git args capture check input env w in
  r.2 = logged w (proc_next args input env (ext w)) [args]
  ∧ (check = false ∨ rc = 0%Z → r.1 = inr (completed capture rc out err))
  ∧ (check = true → rc ≠ 0%Z →
     ∃ msg, r.1 = inl (CalledProcessError rc args (if capture then Some out else None) msg)
            ∧ (capture = false → msg = "git command failed")
            ∧ (capture = true → strip err ≠ "" → msg = strip err)
            ∧ (capture = true → strip err = "" → strip out ≠ "" → msg = strip out)
            ∧ (capture = true → strip err = "" → strip out = "" → msg = "git command failed")).
Proof.
  intros rc out err r. unfold r. rewrite run_git_run. fold rc out err.
  split; [reflexivity |]. split.
  - intros [-> | ->]; [reflexivity | by rewrite andb_false_r].
  - intros -> Hrc. destruct (Z.eqb_spec rc 0) as [| _]; [contradiction |]. simpl.
    eexists. split; [reflexivity |]. unfold failure_message, first_nonempty.
    repeat split.
    + by intros ->.
    + intros -> Herr. cbn [List.find]. by destruct (strip err).
    + intros -> -> Hout. cbn [List.find is_empty negb]. by destruct (strip out).
    + by intros -> -> ->.
Qed.

Lemma rev_list_range_run repo include exclude reverse w :
  let args := rev_list_range_args repo include exclude reverse in
  rev_list_range repo include exclude reverse w
  = (if (proc_rc args None None (ext w) =? 0)%Z then
       inr (stripped_lines (proc_out args None None (ext w)))
     else
       inl (SystemExit (first_nonempty [proc_err args None None (ext w);
                                        proc_out args None None (ext w)]
                          ("rev-list failed for " +:+ include))),
     logged w (proc_next args None None (ext w)) [args]).
Proof.
  intros args. unfold rev_list_range. cbv zeta. fold (rev_list_range_args repo include exclude reverse).
  fold args. rewrite bind_run, run_git_run. cbn [andb completed returncode cp_stdout cp_stderr].
  destruct (proc_rc args None None (ext w) =? 0)%Z; cbn [negb]; [reflexivity |].
  unfold sys_exit, raise. do 3 f_equal.
  unfold por, por_str, truthy, first_nonempty. cbn [List.find].
  by destruct (proc_err _ _ _ _), (proc_out _ _ _ _).
Qed.

(** X2. When [git rev-list] succeeds and prints commit identifiers, one per
    line, [rev_list_range] returns them in the order printed, after one
    command; every exclusion that is not empty is passed as [^ref], and the
    empty ones make no difference. *)
Theorem rev_list_range_ids repo include exclude reverse ids w :
  let args := rev_list_range_args repo include exclude reverse in
  proc_rc args None None (ext w) = 0%Z →
  proc_out args None None (ext w) = hash_lines ids →
  Forall commit_id ids →
  (rev_list_range repo include exclude reverse w).1 = inr ids
  ∧ calls (rev_list_range repo include exclude reverse w).2 = calls w ++ [args]
  ∧ (∀ ex, ex ≠ "" → ex ∈ exclude → "^" +:+ ex ∈ args)
  ∧ rev_list_range repo include exclude reverse w
    = rev_list_range repo include (List.filter (λ ex, negb (is_empty ex)) exclude) reverse w.
Proof.
  intros args Hrc Hout Hids. rewrite rev_list_range_run. fold args. rewrite Hrc, Hout.
  cbn [fst snd Z.eqb]. split; [by rewrite stripped_lines_ids |]. split; [reflexivity |].
  assert (∀ a, a ∈ args ↔ a ∈ ["git"; "-C"; repo; "rev-list"; "--no-merges"]
                          ∨ a ∈ (if reverse then ["--reverse"] else [])
                          ∨ a = include
                          ∨ ∃ ex, a = "^" +:+ ex ∧ ex ≠ "" ∧ ex ∈ exclude) as Hargs.
  { intros a. unfold args, rev_list_range_args.
    rewrite !elem_of_app, list_elem_of_singleton, list_elem_of_fmap.
    do 3 apply or_iff_compat_l. split.
    - intros (ex & -> & Hin). exists ex. split; [reflexivity |].
      apply list_elem_of_In, filter_In in Hin as [Hin Hne]. split.
      + intros ->. discriminate Hne.
      + by apply list_elem_of_In.
    - intros (ex & -> & Hne & Hin). exists ex. split; [reflexivity |].
      apply list_elem_of_In, filter_In. split; [by apply list_elem_of_In | by destruct ex]. }
  split.
  - intros ex Hne Hin. apply Hargs. right. right. right. by exists ex.
  - assert (rev_list_range_args repo include
              (List.filter (λ ex, negb (is_empty ex)) exclude) reverse = args) as Hsame.
    { unfold args, rev_list_range_args. do 4 f_equal.
      clear. induction exclude as [| ex rest IH]; [reflexivity |]. simpl.
      destruct (is_empty ex) eqn:Hex; simpl; [exact IH |]. by rewrite Hex, IH. }
    rewrite rev_list_range_run. cbv zeta. rewrite Hsame. fold args. by rewrite Hrc, Hout.
Qed.

(** X3. [rev_list_range] returns only when the return code is zero, and then
    lines that are not empty and carry no white space around them; otherwise
    it ends with [SystemExit], whose message is the error text, else the
    output, else ["rev-list failed for <include>"]. *)
Theorem rev_list_range_outcome repo include exclude reverse w :
  let args := rev_list_range_args repo include exclude reverse in
  let rc := proc_rc args None None (ext w) in
  let out := proc_out args None None (ext w) in
  let err := proc_err args None None (ext w) in
  match (rev_list_range repo include exclude reverse w).1 with
  | inr lines => rc = 0%Z ∧ Forall (λ line, line ≠ "" ∧ strip line = line) lines
  | inl e =>
      rc ≠ 0%Z
      ∧ e = SystemExit (if negb (is_empty err) then err
                        else if negb (is_empty out) then out
                        else "rev-list failed for " +:+ include)
  end.
Proof.
  intros args rc out err. rewrite rev_list_range_run. fold args rc out err. cbn [fst].
  destruct (Z.eqb_spec rc 0) as [Hrc | Hrc].
  - split; [exact Hrc | apply stripped_lines_clean].
  - split; [exact Hrc |]. unfold first_nonempty. cbn [List.find].
    by destruct (is_empty err), (is_empty out).
Qed.

Lemma list_refs_run repo pattern sort w :
  let args := for_each_ref_args repo pattern sort in
  list_refs repo pattern sort w
  = (inr (stripped_lines (proc_out args None None (ext w))),
     logged w (proc_next args None None (ext w)) [args]).
Proof.
  intros args. unfold list_refs. cbv zeta. fold (for_each_ref_args repo pattern sort). fold args.
  by rewrite bind_run, run_git_run.
Qed.

(** X4. [list_refs] never raises, whatever the command returns; the refs it
    gives are not empty and stripped.  An empty sort key is the same as
    none, and a key that is not empty is passed as [--sort=<key>] before the
    pattern. *)
Theorem list_refs_lenient repo pattern sort w :
  (∃ refs, (list_refs repo pattern sort w).1 = inr refs
           ∧ Forall (λ r, r ≠ "" ∧ strip r = r) refs)
  ∧ list_refs repo pattern (Some "") w = list_refs repo pattern None w
  ∧ (∀ key, key ≠ "" →
       calls (list_refs repo pattern (Some key) w).2
       = calls w ++ [["git"; "-C"; repo; "for-each-ref"; "--format=%(refname)";
                      "--sort=" +:+ key; pattern]]).
Proof.
  split; [| split].
  - rewrite list_refs_run. eexists. split; [reflexivity | apply stripped_lines_clean].
  - reflexivity.
  - intros key Hkey. rewrite list_refs_run. cbn [snd logged calls].
    unfold for_each_ref_args, truthy. by destruct key.
Qed.

Lemma rev_list_run repo ref w :
  rev_list repo ref w
  = (inr (if (proc_rc (rev_list_args repo ref) None None (ext w) =? 0)%Z
          then list_to_set (stripped_lines (proc_out (rev_list_args repo ref) None None (ext w)))
          else ∅),
     logged w (proc_next (rev_list_args repo ref) None None (ext w)) [rev_list_args repo ref]).
Proof.
  unfold rev_list. fold (rev_list_args repo ref). rewrite bind_run, run_git_run.
  cbn [andb completed returncode cp_stdout]. by destruct (_ =? _)%Z.
Qed.

(** X5. [rev_list] never raises: a failed [git rev-list] gives the empty set,
    every member of the result comes from a successful run and is a
    stripped line, and a list of commit identifiers is returned as the set
    of its members. *)
Theorem rev_list_outcome repo ref w :
  let rc := proc_rc (rev_list_args repo ref) None None (ext w) in
  let out := proc_out (rev_list_args repo ref) None None (ext w) in
  ∃ hashes : gset string,
    (rev_list repo ref w).1 = inr hashes
    ∧ (rc ≠ 0%Z → hashes = ∅)
    ∧ (∀ h, h ∈ hashes → rc = 0%Z ∧ h ≠ "" ∧ strip h = h)
    ∧ (∀ ids, rc = 0%Z → out = hash_lines ids → Forall commit_id ids →
              hashes = list_to_set ids).
Proof.
  intros rc out. rewrite rev_list_run. fold rc out. eexists. split; [reflexivity |].
  destruct (Z.eqb_spec rc 0) as [Hrc | Hrc].
  - split; [contradiction |]. split.
    + intros h Hin%elem_of_list_to_set.
      pose proof (stripped_lines_clean out) as Hclean. rewrite Forall_forall in Hclean.
      destruct (Hclean h Hin). by repeat split.
    + intros ids _ -> Hids. by rewrite stripped_lines_ids.
  - split; [reflexivity |]. split; [intros h Hin; set_solver | contradiction].
Qed.

Lemma filter_sublist {A : Type} (f : A → bool) (l : list A) : sublist (List.filter f l) l.
Proof.
  induction l as [| x l IH]; simpl; [constructor |].
  destruct (f x); by constructor.
Qed.

(** X6. [order_on_ref] returns the lines of [git rev-list --reverse] that are
    in [include_set], in the order printed: a sublist of the lines, without
    duplicates when the lines have none, and with exactly the members of
    [include_set] when all of them are reachable. *)
Theorem order_on_ref_sound repo ref (include_set : gset string) w :
  let lines := splitlines (proc_out (order_args repo ref) None None (ext w)) in
  ∃ ordered,
    (order_on_ref repo ref include_set w).1 = inr ordered
    ∧ sublist ordered lines
    ∧ (∀ h, h ∈ ordered ↔ h ∈ lines ∧ h ∈ include_set)
    ∧ (NoDup lines → NoDup ordered)
    ∧ (include_set ⊆ list_to_set lines → list_to_set ordered = include_set).
Proof.
  intros lines. unfold order_on_ref. fold (order_args repo ref).
  rewrite bind_run, run_git_run. cbn [andb completed cp_stdout captured default fst].
  fold lines. eexists. split; [reflexivity |].
  assert (∀ h, h ∈ List.filter (λ h, bool_decide (h ∈ include_set)) lines
               ↔ h ∈ lines ∧ h ∈ include_set) as Hmem.
  { intros h. by rewrite list_elem_of_In, filter_In, <- list_elem_of_In, bool_decide_eq_true. }
  split; [apply filter_sublist |]. split; [exact Hmem |]. split.
  - intros Hnd. eapply sublist_NoDup; [exact Hnd | apply filter_sublist].
  - intros Hsub. apply set_eq. intros h. rewrite elem_of_list_to_set. split.
    + by intros [_ ?]%Hmem.
    + intros Hin. apply Hmem. split; [| exact Hin].
      pose proof (Hsub h Hin) as Hl. by apply elem_of_list_to_set in Hl.
Qed.
End Commands.

(** ** The subjects of the commits *)

Section Subjects.
Context {P : Platform} {S : Storage}.
Import PyStr Script.

Lemma partition_space (h s : string) :
  mem_char " " h = false → partition " " (h +:+ " " +:+ s) = Some (h, s).
Proof.
  induction h as [| a h IH]; snorm; [reflexivity |].
  simpl mem_char. intros [Ha Hh]%orb_false_iff. rewrite partition_eq.
  assert (startswith " " (String a (h +:+ String " " s)) = false) as ->.
  { cbn [startswith]. rewrite andb_true_r. unfold eqc in *.
    rewrite Ascii.eqb_sym. exact Ha. }
  change (" " +:+ s) with (String " " s) in IH. by rewrite (IH Hh).
Qed.

Lemma hex_not_blank c : is_hex c = true → eqc c " " = false.
Proof.
  destruct c as [b0 b1 b2 b3 b4 b5 b6 b7].
  destruct b0, b1, b2, b3, b4, b5, b6, b7; vm_compute; congruence.
Qed.

Lemma commit_id_no_blank (h : string) : commit_id h → mem_char " " h = false.
Proof.
  intros [_ Hhex]. apply (all_chars_mem is_hex); [exact Hhex | reflexivity].
Qed.

Lemma entry_kept (h s : string) : commit_id h → is_empty (strip (h +:+ " " +:+ s)) = false.
Proof.
  intros [Hne Hhex]. destruct h as [| a h]; [contradiction |]. snorm.
  simpl in Hhex. apply andb_true_iff in Hhex as [Ha _].
  unfold strip.
  match goal with
  | |- context [strip_by isspace (String a ?r)] =>
      destruct (strip_by_head isspace a r (hex_not_space a Ha)) as [t ->]
  end.
  reflexivity.
Qed.

Lemma entry_no_linebreak (h s : string) :
  commit_id h → no_linebreak s → no_linebreak (h +:+ " " +:+ s).
Proof.
  intros Hh Hs. unfold no_linebreak. rewrite !all_chars_app.
  rewrite (commit_id_no_linebreak h Hh), Hs. reflexivity.
Qed.

Lemma parse_subject_lines (pairs : list (string * string)) :
  Forall subject_pair pairs →
  parse_subjects (subject_lines pairs) = foldl store_subject ∅ pairs.
Proof.
  intros Hpairs. unfold parse_subjects, subject_lines.
  rewrite splitlines_hash_lines.
  - generalize (∅ : gmap string string) as m.
    induction Hpairs as [| [h s] rest [Hh Hs] _ IH]; intros m; [reflexivity |].
    simpl in *. rewrite (entry_kept h s Hh). unfold subject_entry.
    rewrite (partition_space h s (commit_id_no_blank h Hh)). apply IH.
  - apply Forall_fmap. eapply Forall_impl; [exact Hpairs |].
    intros [h s] [Hh Hs]. by apply entry_no_linebreak.
Qed.

Lemma store_absent (pairs : list (string * string)) :
  ∀ m k, k ∉ pairs.*1 → foldl store_subject m pairs !! k = m !! k.
Proof.
  induction pairs as [| [h s] rest IH]; intros m k Hk; [reflexivity |].
  simpl in *. apply not_elem_of_cons in Hk as [Hne Hk].
  rewrite (IH _ _ Hk). unfold store_subject. simpl. by rewrite lookup_insert_ne.
Qed.

Lemma store_present (pairs : list (string * string)) :
  ∀ m h s, NoDup pairs.*1 → (h, s) ∈ pairs → foldl store_subject m pairs !! h = Some s.
Proof.
  induction pairs as [| [h0 s0] rest IH]; intros m h s Hnd Hin; [by apply elem_of_nil in Hin |].
  simpl in *. apply NoDup_cons in Hnd as [Hfresh Hnd].
  apply elem_of_cons in Hin as [[= -> ->] | Hin].
  - rewrite (store_absent _ _ _ Hfresh). unfold store_subject. simpl. apply lookup_insert_eq.
  - by apply IH.
Qed.

Lemma bulk_subjects_run repo hashes w :
  hashes ≠ [] →
  let tmp_path := (named_temporary_file (ext w)).1 in
  let e1 := path_write_text tmp_path (hash_lines hashes) (named_temporary_file (ext w)).2 in
  let cmd := subjects_cmd tmp_path repo in
  bulk_subjects repo hashes w
  = (inr (parse_subjects (proc_out cmd None None e1)),
     {| ext := path_unlink tmp_path (proc_next cmd None None e1);
        dirs := dirs w;
        stdout := stdout w ++ [cmdline cmd; cmdline cmd];
        calls := calls w ++ [cmd] |}).
Proof.
  intros Hne tmp_path e1 cmd. unfold bulk_subjects.
  rewrite bool_decide_eq_false_2 by exact Hne. rewrite bind_run.
  destruct (named_temporary_file (ext w)) as [name e0].
  cbn [fst snd]. rewrite try_finally_run. cbv zeta.
  rewrite bind_run, print_run, bind_run, run_git_run.
  cbn [andb completed cp_stdout captured default fst snd ext dirs stdout calls logged set_ext map].
  rewrite !ret_run. subst tmp_path e1 cmd.
  unfold logged, set_ext, cmdline, id. cbn [fst snd ext dirs stdout calls map].
  by rewrite <- app_assoc.
Qed.

(** X7. For no hashes [bulk_subjects] returns the empty mapping and does
    nothing.  Otherwise it never raises and leaves the destinations alone;
    the mapping is read from the output of the one [xargs] command, run on
    the temporary file that holds a line per hash; the command line is
    printed twice, and the temporary file is removed last. *)
Theorem bulk_subjects_effects repo hashes w :
  bulk_subjects repo [] w = (inr ∅, w)
  ∧ ∃ mapping, (bulk_subjects repo hashes w).1 = inr mapping
               ∧ dirs (bulk_subjects repo hashes w).2 = dirs w
               ∧ (hashes ≠ [] →
                  let tmp_path := (named_temporary_file (ext w)).1 in
                  let e1 := path_write_text tmp_path (hash_lines hashes)
                              (named_temporary_file (ext w)).2 in
                  mapping = parse_subjects (proc_out (subjects_cmd tmp_path repo) None None e1)
                  ∧ ext (bulk_subjects repo hashes w).2
                    = path_unlink tmp_path (proc_next (subjects_cmd tmp_path repo) None None e1)
                  ∧ calls (bulk_subjects repo hashes w).2
                    = calls w ++ [subjects_cmd tmp_path repo]
                  ∧ stdout (bulk_subjects repo hashes w).2
                    = stdout w ++ [cmdline (subjects_cmd tmp_path repo);
                                   cmdline (subjects_cmd tmp_path repo)]).
Proof.
  split; [reflexivity |]. destruct hashes as [| h rest].
  - exists ∅. by repeat split.
  - rewrite bulk_subjects_run by discriminate. eexists. by repeat split.
Qed.

(** X8. When [git show] prints a line [<hash> <subject>] per commit, with
    distinct commit identifiers, the mapping of [bulk_subjects] gives every
    commit its subject, spaces included, and has no entry for any other
    hash, whose subject is then read as the empty text. *)
Theorem bulk_subjects_subjects repo hashes pairs w :
  let tmp_path := (named_temporary_file (ext w)).1 in
  let e1 := path_write_text tmp_path (hash_lines hashes) (named_temporary_file (ext w)).2 in
  hashes ≠ [] →
  proc_out (subjects_cmd tmp_path repo) None None e1 = subject_lines pairs →
  Forall subject_pair pairs →
  NoDup pairs.*1 →
  ∃ mapping : gmap string string,
    (bulk_subjects repo hashes w).1 = inr mapping
    ∧ (∀ h s, (h, s) ∈ pairs → mapping !! h = Some s)
    ∧ (∀ h, h ∉ pairs.*1 → mapping !! h = None ∧ default "" (mapping !! h) = "").
Proof.
  intros tmp_path e1 Hne Hout Hpairs Hnd. rewrite bulk_subjects_run by exact Hne.
  fold tmp_path e1. rewrite Hout, parse_subject_lines by exact Hpairs.
  eexists. split; [reflexivity |]. split.
  - intros h s Hin. by apply store_present.
  - intros h Hh. rewrite (store_absent _ _ _ Hh). by rewrite lookup_empty.
Qed.
End Subjects.

(** ** Remotes and references *)

Section Repository.
Context {P : Platform}.
Import PyStr Script.

Lemma ensure_remote_run repo remote url branch fetch_all w :
  let e0 := ext w in
  let clone := clone_args remote url repo in
  let e1 := cloned repo remote url e0 in
  let w1 := if path_exists repo e0 then w else logged w e1 [clone] in
  let e2 := proc_next (remote_args repo) None None e1 in
  let cfg := configure_args repo remote url e1 in
  let e3 := proc_next cfg None None e2 in
  let w3 := logged w1 e3 [remote_args repo; cfg] in
  let e4 := proc_next (fetch_tags_args repo remote) None None e3 in
  let e5 := proc_next (fetch_heads_args repo remote) None None e4 in
  ensure_remote repo remote url branch fetch_all w
  = if negb (path_exists repo e0) && negb (proc_rc clone None None e0 =? 0)%Z then
      (inl (CalledProcessError (proc_rc clone None None e0) clone None "git command failed"), w1)
    else if negb (path_exists (path_div repo ".git") e1) then
      (inl (ValueError (repo +:+ " exists but is not a git repository")), w1)
    else if negb (proc_rc cfg None None e2 =? 0)%Z then
      (inl (CalledProcessError (proc_rc cfg None None e2) cfg None "git command failed"), w3)
    else
      (inr (), if fetch_all
               then logged w3 e5 [fetch_tags_args repo remote; fetch_heads_args repo remote]
               else w3).
Proof.
  intros e0 clone e1 w1 e2 cfg e3 w3 e4 e5.
  unfold ensure_remote. cbv zeta. rewrite bind_run. unfold exists_ at 1. fold e0.
  assert (ext w1 = e1) as Hw1.
  { unfold w1, e1, cloned. fold e0. by destruct (path_exists repo e0). }
  assert (∀ B (k : M B),
            ((if negb (path_exists repo e0)
              then run_git clone false true None None;; mret ()
              else mret ());; k) w
            = if negb (path_exists repo e0) && negb (proc_rc clone None None e0 =? 0)%Z
              then (inl (CalledProcessError (proc_rc clone None None e0) clone None
                           "git command failed"), w1)
              else k w1) as Hclone.
  { intros B k. rewrite bind_run. unfold w1, e1, cloned. fold e0.
    destruct (path_exists repo e0); cbn [negb andb]; [by rewrite ret_run |].
    rewrite bind_run, run_git_run. fold e0. cbn [andb].
    by destruct (proc_rc clone None None e0 =? 0)%Z. }
  fold clone. rewrite Hclone.
  destruct (negb (path_exists repo e0) && negb (proc_rc clone None None e0 =? 0)%Z);
    [reflexivity |].
  rewrite bind_run. unfold exists_. rewrite Hw1.
  destruct (path_exists (path_div repo ".git") e1); cbn [negb]; [| reflexivity].
  rewrite bind_run, run_git_run, Hw1. cbn [andb completed cp_stdout captured default].
  unfold id. fold e2.
  assert ((if negb (bool_decide (remote ∈ stripped_lines (proc_out (remote_args repo) None None e1)))
           then run_git (remote_add_args repo remote url) false true None None
           else run_git (remote_set_url_args repo remote url) false true None None)
          = run_git cfg false true None None) as ->.
  { unfold cfg, configure_args. by destruct (bool_decide _). }
  rewrite bind_run, run_git_run, logged_logged. cbn [ext logged andb]. fold e3.
  change ([remote_args repo] ++ [cfg]) with [remote_args repo; cfg]. fold w3.
  destruct (proc_rc cfg None None e2 =? 0)%Z; cbn [negb]; [| reflexivity].
  destruct fetch_all; [| reflexivity].
  fold (fetch_tags_args repo remote) (fetch_heads_args repo remote).
  rewrite bind_run, run_git_run. cbn [andb]. rewrite bind_run, run_git_run. cbn [andb].
  rewrite ret_run, logged_logged. unfold w3 at 1. cbn [ext logged]. fold e4. fold e5.
  reflexivity.
Qed.


Lemma ensure_remote_cases repo remote url branch fetch_all w :
  let e1 := cloned repo remote url (ext w) in
  let e2 := proc_next (remote_args repo) None None e1 in
  let cfg := configure_args repo remote url e1 in
  ((ensure_remote repo remote url branch fetch_all w).1 = inr ()
   ↔ (path_exists repo (ext w) = true
      ∨ proc_rc (clone_args remote url repo) None None (ext w) = 0%Z)
     ∧ path_exists (path_div repo ".git") e1 = true
     ∧ proc_rc cfg None None e2 = 0%Z)
  ∧ ((ensure_remote repo remote url branch fetch_all w).1 = inr () →
     calls (ensure_remote repo remote url branch fetch_all w).2
     = calls w
       ++ (if path_exists repo (ext w) then [] else [clone_args remote url repo])
       ++ [remote_args repo; cfg]
       ++ (if fetch_all then [fetch_tags_args repo remote; fetch_heads_args repo remote]
           else []))
  ∧ dirs (ensure_remote repo remote url branch fetch_all w).2 = dirs w.
Proof.
  intros e1 e2 cfg. rewrite ensure_remote_run. fold e1 e2 cfg.
  destruct (path_exists repo (ext w)) eqn:Hthere; cbn [negb andb];
    [| destruct (Z.eqb_spec (proc_rc (clone_args remote url repo) None None (ext w)) 0)
         as [Hclone | Hclone]; cbn [negb andb]];
    try (destruct (path_exists (path_div repo ".git") e1) eqn:Hgit; cbn [negb];
         [destruct (Z.eqb_spec (proc_rc cfg None None e2) 0) as [Hcfg | Hcfg]; cbn [negb] |]);
    cbn [fst snd];
    (split; [split; [try discriminate; intros _; repeat split; auto
                    | intros (Ha & Hb & Hc); try reflexivity; try congruence;
                      try (destruct Ha; congruence)]
            | split; [try discriminate; intros _ | by destruct fetch_all]]).
  all: destruct fetch_all; cbn [logged calls]; by rewrite <- ?app_assoc.
Qed.

(** X9. When the directory exists without a [.git] entry, [ensure_remote]
    raises [ValueError] naming the directory, before any command is run and
    with the state as it was. *)
Theorem ensure_remote_not_repository repo remote url branch fetch_all w :
  path_exists repo (ext w) = true →
  path_exists (path_div repo ".git") (ext w) = false →
  ensure_remote repo remote url branch fetch_all w
  = (inl (ValueError (repo +:+ " exists but is not a git repository")), w).
Proof.
  intros Hthere Hgit. rewrite ensure_remote_run. unfold cloned. rewrite Hthere, Hgit.
  reflexivity.
Qed.

(** X10. [ensure_remote] returns exactly when the repository is there or its
    clone succeeds, [.git] is there afterwards, and the command that sets the
    remote -- [set-url] if [git remote] lists it, [add] otherwise --
    succeeds.  It then has run the clone only for a missing directory,
    [git remote], that command, and the two fetches when [fetch_all] is set,
    whose failures are ignored.  The destinations are untouched and the
    [branch] argument is never used. *)
Theorem ensure_remote_returns_iff repo remote url branch fetch_all w :
  let e1 := cloned repo remote url (ext w) in
  let e2 := proc_next (remote_args repo) None None e1 in
  let cfg := configure_args repo remote url e1 in
  let r := ensure_remote repo remote url branch fetch_all w in
  (r.1 = inr ()
   ↔ (path_exists repo (ext w) = true
      ∨ proc_rc (clone_args remote url repo) None None (ext w) = 0%Z)
     ∧ path_exists (path_div repo ".git") e1 = true
     ∧ proc_rc cfg None None e2 = 0%Z)
  ∧ (r.1 = inr () →
     calls r.2
     = calls w
       ++ (if path_exists repo (ext w) then [] else [clone_args remote url repo])
       ++ [remote_args repo; cfg]
       ++ (if fetch_all then [fetch_tags_args repo remote; fetch_heads_args repo remote]
           else []))
  ∧ dirs r.2 = dirs w
  ∧ ∀ branch', ensure_remote repo remote url branch' fetch_all w = r.
Proof.
  intros e1 e2 cfg r.
  destruct (ensure_remote_cases repo remote url branch fetch_all w) as (Hiff & Hcalls & Hdirs).
  split; [exact Hiff |]. split; [exact Hcalls |]. split; [exact Hdirs |].
  intros branch'. unfold r. by rewrite !ensure_remote_run.
Qed.

Lemma pin_ref_prefix remote label :
  pin_ref_of remote label = remote_prefix remote +:+ "pin-" +:+ label.
Proof.
  unfold pin_ref_of, remote_prefix. by rewrite !sapp_assoc.
Qed.

(** X11. With neither a ref nor a branch, [ensure_ref] exits at once with
    ["missing required ref for <label>"], having run nothing; [checkout]
    exits only after [ensure_remote] has run, so a missing repository has
    been cloned by then. *)
Theorem missing_ref_guard repo remote url label w :
  ensure_ref repo remote url "" "" label w
  = (inl (SystemExit ("missing required ref for " +:+ label)), w)
  ∧ checkout repo remote url "" "" w
    = match ensure_remote repo remote url "" false w with
      | (inl e, w') => (inl e, w')
      | (inr _, w') => (inl (SystemExit ("missing required ref for checkout in " +:+ repo)), w')
      end
  ∧ (path_exists repo (ext w) = false →
     ∃ cs, calls (checkout repo remote url "" "" w).2
           = calls w ++ clone_args remote url repo :: cs).
Proof.
  assert (checkout repo remote url "" "" w
          = match ensure_remote repo remote url "" false w with
            | (inl e, w') => (inl e, w')
            | (inr _, w') =>
                (inl (SystemExit ("missing required ref for checkout in " +:+ repo)), w')
            end) as Hcheckout.
  { unfold checkout. cbv zeta. rewrite bind_run.
    by destruct (ensure_remote repo remote url "" false w) as [[e | []] w']. }
  split; [reflexivity |]. split; [exact Hcheckout |].
  intros Hthere. rewrite Hcheckout, ensure_remote_run.
  unfold cloned. rewrite Hthere. cbn [negb andb].
  repeat match goal with
         | |- context [if ?b then _ else _] => destruct b
         end; cbn [snd logged calls]; eexists; by rewrite <- ?app_assoc.
Qed.

Lemma ensure_ref_returned repo remote url branch ref label r w :
  (ensure_ref repo remote url branch ref label w).1 = inr r →
  let target := target_of branch ref in
  let W := (ensure_ref repo remote url branch ref label w).2 in
  target ≠ ""
  ∧ startswith (remote_prefix remote) r = true
  ∧ ((r = target ∧ last (calls W) = Some (for_each_ref_args repo target None))
     ∨ (r = pin_ref_of remote label
        ∧ last (calls W) = Some (pin_fetch_args repo remote target (pin_ref_of remote label))))
  ∧ dirs W = dirs w.
Proof.
  intros Hr target W. revert Hr. unfold W. clear W. unfold ensure_ref. cbv zeta.
  fold (target_of branch ref). fold target.
  destruct (is_empty target) eqn:Hempty; [discriminate |].
  rewrite bind_run.
  pose proof (ensure_remote_cases repo remote url branch false w) as (_ & _ & Hdirs).
  destruct (ensure_remote repo remote url branch false w) as [[e | []] w1]; [discriminate |].
  cbn [snd] in Hdirs.
  assert (target ≠ "") as Hne by (intros Heq; by rewrite Heq in Hempty).
  assert (∀ w', last (calls (logged w' (proc_next (pin_fetch_args repo remote target (pin_ref_of remote label)) None None (ext w')) [pin_fetch_args repo remote target (pin_ref_of remote label)]))
                = Some (pin_fetch_args repo remote target (pin_ref_of remote label))) as Hlast.
  { intros w'. cbn [logged calls]. apply last_snoc. }
  rewrite bind_run.
  destruct (startswith (remote_prefix remote) target) eqn:Hprefix.
  - rewrite bind_run, list_refs_run, ret_run.
    destruct (bool_decide (stripped_lines _ = [])); cbn [negb].
    + rewrite bind_run, run_git_run. cbn [andb completed returncode].
      destruct (_ =? _)%Z; cbn [negb]; [| discriminate].
      rewrite ret_run. cbn [fst snd]. intros [= <-]. split; [exact Hne |].
      split; [rewrite pin_ref_prefix; apply startswith_app |].
      split; [right; split; [reflexivity | apply Hlast] | exact Hdirs].
    + rewrite ret_run. cbn [fst snd]. intros [= <-]. split; [exact Hne |].
      split; [exact Hprefix |]. split; [| exact Hdirs].
      left. split; [reflexivity |]. cbn [logged calls]. apply last_snoc.
  - rewrite ret_run, bind_run, run_git_run. cbn [andb completed returncode].
    destruct (_ =? _)%Z; cbn [negb]; [| discriminate].
    rewrite ret_run. cbn [fst snd]. intros [= <-]. split; [exact Hne |].
    split; [rewrite pin_ref_prefix; apply startswith_app |].
    split; [right; split; [reflexivity | apply Hlast] | exact Hdirs].
Qed.

(** X12. A ref returned by [ensure_ref] lies under [refs/remotes/<remote>/]:
    it is the target itself, found there by [for-each-ref], the last
    command, or the pin [refs/remotes/<remote>/pin-<label>], fetched by the
    last command.  The destinations are untouched, and the branch makes no
    difference when a ref is given. *)
Theorem ensure_ref_result repo remote url branch ref label r w :
  (ensure_ref repo remote url branch ref label w).1 = inr r →
  let target := target_of branch ref in
  let W := (ensure_ref repo remote url branch ref label w).2 in
  target ≠ ""
  ∧ startswith (remote_prefix remote) r = true
  ∧ ((r = target ∧ last (calls W) = Some (for_each_ref_args repo target None))
     ∨ (r = pin_ref_of remote label
        ∧ last (calls W) = Some (pin_fetch_args repo remote target (pin_ref_of remote label))))
  ∧ dirs W = dirs w
  ∧ (ref ≠ "" → ∀ branch', ensure_ref repo remote url branch' ref label w
                           = ensure_ref repo remote url branch ref label w).
Proof.
  intros Hr target W.
  destruct (ensure_ref_returned repo remote url branch ref label r w Hr)
    as (Hne & Hprefix & Hlast & Hdirs).
  repeat (split; [assumption |]).
  intros Href branch'. unfold ensure_ref, target_of.
  destruct ref as [| a ref]; [contradiction |]. cbn [is_empty]. cbv zeta.
  by rewrite !bind_run, !ensure_remote_run.
Qed.

End Repository.

(** ** Check-out and the Ubuntu base *)

Section Repository.
Context {P : Platform}.
Import PyStr Script.

(** X13. When [checkout] returns, the target -- the ref, or the branch when
    the ref is empty -- is not empty, and the last two commands are the fetch
    of the target and [git switch --detach FETCH_HEAD]; the destinations are
    untouched. *)
Theorem checkout_returns repo remote url branch ref w :
  (checkout repo remote url branch ref w).1 = inr () →
  let target := target_of branch ref in
  let W := (checkout repo remote url branch ref w).2 in
  target ≠ ""
  ∧ (∃ cs, calls W = calls w ++ cs ++ [checkout_fetch_args repo remote target; switch_args repo])
  ∧ dirs W = dirs w.
Proof.
  intros Hr target W. revert Hr. unfold W. clear W. unfold checkout. cbv zeta.
  fold (target_of branch ref). fold target.
  fold (checkout_fetch_args repo remote target) (switch_args repo).
  rewrite bind_run.
  pose proof (ensure_remote_cases repo remote url branch false w) as (_ & Hcalls & Hdirs).
  destruct (ensure_remote repo remote url branch false w) as [[e | []] w1]; [discriminate |].
  cbn [fst snd] in Hcalls, Hdirs. specialize (Hcalls eq_refl).
  destruct (is_empty target) eqn:Hempty; [discriminate |].
  rewrite bind_run, run_git_run. cbn [andb completed returncode].
  destruct (_ =? _)%Z; cbn [negb]; [| discriminate].
  rewrite bind_run, run_git_run, logged_logged. cbn [andb ext logged].
  destruct (_ =? _)%Z; cbn [negb]; [| discriminate].
  rewrite ret_run. cbn [fst snd logged calls dirs]. intros _.
  split; [intros Heq; by rewrite Heq in Hempty |]. split; [| exact Hdirs].
  rewrite Hcalls, <- !app_assoc.
  exists ((if path_exists repo (ext w) then [] else [clone_args remote url repo])
          ++ [remote_args repo; configure_args repo remote url (cloned repo remote url (ext w))]).
  by rewrite <- !app_assoc.
Qed.

End Repository.

Section FirstLine.
Import PyStr Script.

Lemma lstrip_head p (s : string) :
  match lstrip_by p s with "" => True | String a _ => p a = false end.
Proof.
  induction s as [| a s IH]; simpl; [exact I |].
  destruct (p a) eqn:Ha; [exact IH | exact Ha].
Qed.

Lemma strip_head p (s : string) :
  match strip_by p s with "" => True | String a _ => p a = false end.
Proof.
  unfold strip_by. pose proof (lstrip_head p s) as Hl.
  destruct (lstrip_by p s) as [| a u]; [exact I |]. rewrite rstrip_step.
  destruct (rstrip_by p u); [| exact Hl]. destruct (p a) eqn:Ha; [exact I | exact Ha].
Qed.

Lemma splitlines_go_first (s : string) :
  ∀ cur, cur ≠ "" → no_linebreak cur →
         ∃ l rest, splitlines_go cur false s = l :: rest ∧ l ≠ "" ∧ no_linebreak l.
Proof.
  induction s as [| a s IH]; intros cur Hne Hcur; simpl.
  - destruct cur; [contradiction |]. simpl. by eexists _, _.
  - destruct (is_linebreak a) eqn:Ha; [by eexists _, _ |].
    apply IH.
    + by destruct cur.
    + unfold no_linebreak in *. rewrite all_chars_app, Hcur. simpl. by rewrite Ha.
Qed.

(** The first line of a text that is not blank: it is there, it is not
    empty and holds no line boundary. *)
Lemma first_line_spec (text : string) :
  is_empty (strip text) = false →
  ∃ rest, splitlines (strip text) = first_line text :: rest
          ∧ first_line text ≠ "" ∧ no_linebreak (first_line text).
Proof.
  intros Hne. unfold first_line, splitlines, strip in *.
  pose proof (strip_head isspace text) as Hhead.
  destruct (strip_by isspace text) as [| a u]; [discriminate |].
  assert (is_linebreak a = false) as Ha.
  { destruct (is_linebreak a) eqn:Hl; [| reflexivity].
    apply space_linebreak in Hl. congruence. }
  simpl. rewrite Ha. snorm.
  destruct (splitlines_go_first u (String a "")) as (l & rest & -> & Hl & Hnl);
    [discriminate | unfold no_linebreak; simpl; by rewrite Ha |].
  by exists rest.
Qed.

End FirstLine.

Section Base.
Context {P : Platform}.
Import PyStr Script.

(** X14. The loop of [resolve_ubuntu_base] over the merged tags passes over
    blank lines and asks [git rev-parse] for the first tag only.  When the
    command succeeds with an answer that is not blank, it gives the first
    line of the stripped answer, [stdout.strip().splitlines()[0]], which is
    not empty; otherwise it gives nothing, whatever tags follow.  It never
    raises. *)
Theorem newest_tag_hash_single repo lines w :
  let tags := stripped_lines_of lines in
  match tags with
  | [] => newest_tag_hash repo lines w = (inr None, w)
  | tag :: _ =>
      calls (newest_tag_hash repo lines w).2 = calls w ++ [rev_parse_args repo tag]
      ∧ match (newest_tag_hash repo lines w).1 with
        | inr (Some hash) =>
            proc_rc (rev_parse_args repo tag) None None (ext w) = 0%Z
            ∧ strip (proc_out (rev_parse_args repo tag) None None (ext w)) ≠ ""
            ∧ (∃ others,
                 splitlines (strip (proc_out (rev_parse_args repo tag) None None (ext w)))
                 = hash :: others)
            ∧ hash ≠ "" ∧ no_linebreak hash
        | inr None =>
            proc_rc (rev_parse_args repo tag) None None (ext w) ≠ 0%Z
            ∨ strip (proc_out (rev_parse_args repo tag) None None (ext w)) = ""
        | inl _ => False
        end
  end.
Proof.
  unfold stripped_lines_of. induction lines as [| line rest IH]; [reflexivity |].
  simpl. destruct (is_empty (strip line)) eqn:Hline; cbn [negb]; [exact IH |].
  fold (rev_parse_args repo (strip line)).
  rewrite bind_run, run_git_run. cbn [andb completed returncode cp_stdout captured default].
  unfold id. split.
  - by destruct (_ && _).
  - destruct (Z.eqb_spec (proc_rc (rev_parse_args repo (strip line)) None None (ext w)) 0)
      as [Hrc | Hrc]; cbn [andb].
    + destruct (is_empty (strip (proc_out _ None None (ext w)))) eqn:Hout;
        cbn [negb]; rewrite ret_run; cbn [fst].
      * right. destruct (strip (proc_out _ _ _ _)); [reflexivity | discriminate].
      * destruct (first_line_spec _ Hout) as (others & Hfirst & Hne & Hnl).
        split; [exact Hrc |]. split; [intros Heq; by rewrite Heq in Hout |].
        split; [by exists others | by split].
    + rewrite ret_run. by left.
Qed.

Lemma newest_tag_hash_found repo lines w :
  dirs (newest_tag_hash repo lines w).2 = dirs w
  ∧ match (newest_tag_hash repo lines w).1 with
    | inr (Some hash) => hash ≠ "" ∧ no_linebreak hash
    | inr None => True
    | inl _ => False
    end.
Proof.
  induction lines as [| line rest IH]; [by split |].
  simpl. destruct (is_empty (strip line)); [exact IH |].
  rewrite bind_run, run_git_run. cbn [andb completed returncode cp_stdout captured default].
  unfold id. destruct (_ =? _)%Z; cbn [andb]; [| by rewrite ret_run].
  destruct (is_empty (strip (proc_out _ None None (ext w)))) eqn:Hout;
    cbn [negb]; rewrite ret_run; cbn [fst snd]; [by split |].
  destruct (first_line_spec _ Hout) as (_ & _ & Hne & Hnl). by repeat split.
Qed.

Lemma resolve_ubuntu_base_returned cfg u tuxedo_ref r w :
  (resolve_ubuntu_base cfg u tuxedo_ref w).1 = inr r →
  r ≠ ""
  ∧ (UBUNTU_REF u = "" → no_linebreak r)
  ∧ (UBUNTU_REF u ≠ "" → startswith "refs/remotes/ubuntu/" r = true)
  ∧ dirs (resolve_ubuntu_base cfg u tuxedo_ref w).2 = dirs w.
Proof.
  unfold resolve_ubuntu_base. cbv zeta.
  destruct (is_empty (UBUNTU_REF u)) eqn:Href; cbn [negb].
  - assert (UBUNTU_REF u = "") as Hempty by (by destruct (UBUNTU_REF u)).
    rewrite bind_run.
    pose proof (ensure_remote_cases (LINUX_REPO cfg) "ubuntu" (UBUNTU_REMOTE u)
                  (UBUNTU_BRANCH u) false w) as (_ & _ & Hd1).
    destruct (ensure_remote _ _ _ _ _ w) as [[e | []] w1]; [discriminate |].
    cbn [snd] in Hd1.
    rewrite bind_run, run_git_run. cbn [andb].
    rewrite bind_run, run_git_run, logged_logged. cbn [andb completed cp_stdout captured default].
    unfold id. rewrite bind_run.
    match goal with
    | |- context [newest_tag_hash ?repo ?lines ?w2] =>
        pose proof (newest_tag_hash_found repo lines w2) as (Hd2 & Hfound);
        destruct (newest_tag_hash repo lines w2) as [[e | [hash |]] w3]
    end; cbn [fst snd logged dirs] in Hd2, Hfound; [contradiction | |].
    + rewrite ret_run. cbn [fst snd]. intros [= <-]. destruct Hfound as [Hne Hnl].
      split; [exact Hne |]. split; [done |]. split; [congruence | congruence].
    + rewrite bind_run.
      match goal with
      | |- context [ensure_ref ?a ?b ?c ?d ?e ?f w3] =>
          pose proof (λ t, ensure_ref_returned a b c d e f t w3) as Href3;
          destruct (ensure_ref a b c d e f w3) as [[e' | tip] w4]
      end; [discriminate |].
      destruct (Href3 tip eq_refl) as (_ & _ & _ & Hd4). cbn [snd] in Hd4.
      rewrite bind_run, run_git_run. cbn [andb completed returncode cp_stdout captured default].
      unfold id.
      destruct (_ =? _)%Z; cbn [negb orb]; [| discriminate].
      destruct (is_empty (strip (proc_out _ None None (ext w4)))) eqn:Hout; [discriminate |].
      rewrite ret_run. cbn [fst snd logged dirs]. intros [= <-].
      destruct (first_line_spec _ Hout) as (_ & _ & Hne & Hnl).
      split; [exact Hne |]. split; [done |]. split; [congruence | congruence].
  - assert (UBUNTU_REF u ≠ "") as Hset by (intros Heq; by rewrite Heq in Href).
    intros Hr.
    destruct (ensure_ref_returned _ _ _ _ _ _ _ _ Hr) as (_ & Hprefix & _ & Hdirs).
    split; [| split; [done | split; [intros _; exact Hprefix | exact Hdirs]]].
    intros ->. discriminate Hprefix.
Qed.

(** X15. A base returned by [resolve_ubuntu_base] is not empty.  Without
    [UBUNTU_REF] it is a single line, the answer of [git rev-parse] or of
    [git merge-base]; with [UBUNTU_REF] it lies under [refs/remotes/ubuntu/].
    The destinations are untouched. *)
Theorem resolve_ubuntu_base_result cfg u tuxedo_ref r w :
  (resolve_ubuntu_base cfg u tuxedo_ref w).1 = inr r →
  r ≠ ""
  ∧ (UBUNTU_REF u = "" → no_linebreak r)
  ∧ (UBUNTU_REF u ≠ "" → startswith "refs/remotes/ubuntu/" r = true)
  ∧ dirs (resolve_ubuntu_base cfg u tuxedo_ref w).2 = dirs w.
Proof. apply resolve_ubuntu_base_returned. Qed.

End Base.

(** ** What the engine touches, and when it returns *)

Section EngineFrame.
Context {P : Platform}.
Import PyStr.

Lemma keep_applied_sublist (group : list Patch) :
  ∀ statuses, sublist (keep_applied group statuses) group.
Proof.
  induction group as [| p rest IH]; intros [| st sts]; simpl; try apply sublist_nil_l.
  destruct st; by constructor.
Qed.

Lemma ran_refl w : ran [] w w.
Proof. split; [reflexivity | by rewrite app_nil_r]. Qed.

Lemma ran_trans cs1 cs2 w1 w2 w3 : ran cs1 w1 w2 → ran cs2 w2 w3 → ran (cs1 ++ cs2) w1 w3.
Proof. intros [Hd1 Hc1] [Hd2 Hc2]. split; [congruence |]. by rewrite Hc2, Hc1, app_assoc. Qed.

Lemma ran_logged w e cs : ran cs w (logged w e cs).
Proof. by split. Qed.

Lemma ran_printed line w : ran [] w (printed line w).
Proof. split; [reflexivity | by rewrite app_nil_r]. Qed.

Lemma best_effort_attempts_calls repo env content e :
  Forall (apply_call repo) (best_effort_attempts repo env content e).
Proof.
  unfold best_effort_attempts, apply_call.
  repeat destruct (_ =? _)%Z; repeat (constructor; [tauto |]); constructor.
Qed.

Lemma apply_cachyos_ran repo env base cachyos w :
  ∃ cs, ran cs w (apply_cachyos repo env base cachyos w).2 ∧ Forall (apply_call repo) cs.
Proof.
  destruct (apply_cachyos_frame repo env base cachyos w) as (Hd & cs & lines & Hc & _ & Hcs & _).
  exists cs. split; [by split |].
  eapply Forall_impl; [exact Hcs |]. intros c [-> | ->]; unfold apply_call; tauto.
Qed.

Lemma test_tuxedo_ran repo env tuxedo :
  ∀ acc w, ∃ cs, ran cs w (test_tuxedo repo env tuxedo acc w).2 ∧ Forall (apply_call repo) cs.
Proof.
  induction tuxedo as [| [label content] rest IH]; intros [a f] w.
  - exists []. split; [apply ran_refl | constructor].
  - rewrite test_tuxedo_step. cbv zeta.
    set (w1 := logged (printed ("[testing Tuxedo patch] " +:+ label) w) _ _).
    assert (ran (best_effort_attempts repo env content (ext w)) w w1) as Hw1.
    { apply (ran_trans [] _ w (printed ("[testing Tuxedo patch] " +:+ label) w));
        [apply ran_printed | apply ran_logged]. }
    pose proof (best_effort_attempts_calls repo env content (ext w)) as Hcalls.
    destruct ((best_effort_outcome repo env content (ext w)).1.1).
    + destruct (IH (a ++ [(label, content)], f) w1) as (cs & Hran & Hcs).
      eexists. split; [exact (ran_trans _ _ _ _ _ Hw1 Hran) | by apply Forall_app].
    + match goal with
      | |- context [test_tuxedo repo env rest ?acc (printed ?line w1)] =>
          destruct (IH acc (printed line w1)) as (cs & Hran & Hcs);
          pose proof (ran_trans _ _ _ _ _ Hw1 (ran_printed line w1)) as Hw2
      end.
      rewrite app_nil_r in Hw2.
      eexists. split; [exact (ran_trans _ _ _ _ _ Hw2 Hran) | by apply Forall_app].
    + match goal with
      | |- context [test_tuxedo repo env rest ?acc w1] =>
          destruct (IH acc w1) as (cs & Hran & Hcs)
      end.
      eexists. split; [exact (ran_trans _ _ _ _ _ Hw1 Hran) | by apply Forall_app].
Qed.

Lemma simulate_body_ran repo base env cachyos tuxedo w :
  ∃ cs, ran (read_tree_args repo base :: cs) w (simulate_body repo base env cachyos tuxedo w).2
        ∧ Forall (apply_call repo) cs.
Proof.
  unfold simulate_body. fold (read_tree_args repo base).
  rewrite bind_run, run_git_checked.
  set (w1 := logged w _ _).
  assert (ran [read_tree_args repo base] w w1) as Hw1 by apply ran_logged.
  destruct (_ =? _)%Z; [| exists []; split; [exact Hw1 | constructor]].
  rewrite bind_run.
  destruct (apply_cachyos_ran repo env base cachyos w1) as (cs1 & Hran1 & Hcs1).
  destruct (apply_cachyos repo env base cachyos w1) as [[e | []] w2]; cbn [snd] in Hran1.
  - exists cs1. split; [exact (ran_trans _ _ _ _ _ Hw1 Hran1) | exact Hcs1].
  - rewrite bind_run.
    destruct (test_tuxedo_ran repo env tuxedo ([], []) w2) as (cs2 & Hran2 & Hcs2).
    destruct (test_tuxedo_run repo env tuxedo [] [] w2) as (f' & w3 & Hrun & _ & _).
    rewrite Hrun in Hran2 |- *. cbn [snd] in Hran2. cbv beta iota. rewrite bind_run.
    destruct (report_failed_run f' w3) as (w4 & Hrep & _ & Hd4 & Hc4).
    rewrite Hrep, ret_run. cbn [snd].
    exists (cs1 ++ cs2). split; [| by apply Forall_app].
    pose proof (ran_trans _ _ _ _ _ Hw1 (ran_trans _ _ _ _ _ Hran1 Hran2)) as [Hd Hc].
    split; [congruence | by rewrite Hc4, Hc].
Qed.

(** X16. Whatever its outcome, [simulate_apply] leaves the destinations alone,
    removes the temporary index last, and starts [git read-tree] first and
    then only applications of patches to the index: direct, reverse check or
    three-way. *)
Theorem simulate_apply_frame repo base cachyos tuxedo w :
  let W := (simulate_apply repo base cachyos tuxedo w).2 in
  dirs W = dirs w
  ∧ (∃ e, ext W = path_unlink (named_temporary_file (ext w)).1 e)
  ∧ ∃ cs, calls W = calls w ++ read_tree_args repo base :: cs
          ∧ Forall (apply_call repo) cs.
Proof.
  intros W. unfold W. rewrite simulate_apply_run. cbv zeta. cbn [snd].
  destruct (simulate_body_ran repo base
              (simulate_env (named_temporary_file (ext w)).1 repo) cachyos tuxedo
              (set_ext (named_temporary_file (ext w)).2 w)) as (cs & [Hd Hc] & Hcs).
  split; [exact Hd |]. split; [by eexists |]. exists cs. by split.
Qed.

Lemma simulate_apply_kept repo base cachyos tuxedo w out :
  (simulate_apply repo base cachyos tuxedo w).1 = inr out →
  ∃ kept, out = cachyos ++ kept ∧ sublist kept tuxedo.
Proof.
  rewrite simulate_apply_run. cbv zeta. cbn [fst].
  set (e0 := (named_temporary_file (ext w)).2).
  set (env := simulate_env (named_temporary_file (ext w)).1 repo).
  destruct (simulate_body_run repo base env cachyos tuxedo (set_ext e0 w))
    as (Hfail & Hraise & Hgo).
  set (w1 := logged (set_ext e0 w) _ _) in *.
  destruct (Z.eq_dec (cmd_rc (read_tree_args repo base) None env (ext (set_ext e0 w))) 0%Z)
    as [Hrc | Hrc]; [| by rewrite (Hfail Hrc)].
  destruct (apply_cachyos repo env base cachyos w1) as [[e | []] w2] eqn:Hc.
  - by rewrite (Hraise Hrc e w2 eq_refl).
  - destruct (Hgo Hrc w2 eq_refl) as (w' & -> & _). cbn [fst]. intros [= <-].
    eexists. split; [reflexivity | apply keep_applied_sublist].
Qed.

(** X17. [simulate_apply] returns exactly when [git read-tree] succeeds and
    every must-apply patch applies: no best-effort patch can make it fail.
    The list returned is the must-apply group followed by a sublist of the
    best-effort group.  When [git read-tree] fails it raises
    [CalledProcessError] after that one command, with the temporary index
    removed. *)
Theorem simulate_apply_returns_iff repo base cachyos tuxedo w :
  let index_path := (named_temporary_file (ext w)).1 in
  let env := simulate_env index_path repo in
  let e0 := (named_temporary_file (ext w)).2 in
  let rc := cmd_rc (read_tree_args repo base) None env e0 in
  let e1 := cmd_next (read_tree_args repo base) None env e0 in
  let r := simulate_apply repo base cachyos tuxedo w in
  ((∃ out, r.1 = inr out)
   ↔ rc = 0%Z ∧ Forall (eq applied) (outcomes (must_apply_outcome repo env) cachyos e1))
  ∧ (∀ out, r.1 = inr out →
       ∃ kept, out = cachyos ++ kept ∧ sublist kept tuxedo
               ∧ (length cachyos ≤ length out ≤ length cachyos + length tuxedo)%nat)
  ∧ (rc ≠ 0%Z →
     r.1 = inl (CalledProcessError rc (read_tree_args repo base) None "git command failed")
     ∧ calls r.2 = calls w ++ [read_tree_args repo base]
     ∧ ext r.2 = path_unlink index_path e1).
Proof.
  intros index_path env e0 rc e1 r. unfold r. rewrite simulate_apply_run. cbv zeta.
  fold index_path env e0. cbn [fst snd].
  destruct (simulate_body_run repo base env cachyos tuxedo (set_ext e0 w))
    as (Hfail & Hraise & Hgo).
  cbn [ext set_ext] in Hfail, Hraise, Hgo. fold rc e1 in Hfail, Hraise, Hgo.
  set (w1 := logged (set_ext e0 w) e1 [read_tree_args repo base]) in *.
  destruct (Z.eq_dec rc 0%Z) as [Hrc | Hrc].
  - split; [| split; [| contradiction]].
    + pose proof (apply_cachyos_returns repo env base cachyos w1) as Hret.
      pose proof (apply_cachyos_applied repo env base cachyos w1) as Happ.
      destruct (apply_cachyos repo env base cachyos w1) as [[e | []] w2] eqn:Hc.
      * rewrite (Hraise Hrc e w2 eq_refl). split.
        -- intros [out [=]].
        -- intros [_ Hall]. destruct (Happ Hall) as [[=] _].
      * destruct (Hgo Hrc w2 eq_refl) as (w' & -> & _). split.
        -- intros _. split; [exact Hrc | by apply Hret].
        -- intros _. by eexists.
    + intros out Hout.
      destruct (simulate_apply_kept repo base cachyos tuxedo w out) as (kept & -> & Hsub).
      { by rewrite simulate_apply_run. }
      exists kept. split; [reflexivity |]. split; [exact Hsub |].
      apply sublist_length in Hsub. rewrite length_app. lia.
  - rewrite (Hfail Hrc). cbn [fst snd]. split; [| split].
    + split; [intros [out [=]] | intros [? _]; contradiction].
    + intros out [=].
    + intros _. split; [reflexivity |]. by split.
Qed.

End EngineFrame.

(** ** What the writer touches, and how it fails *)

Section WriterFrame.
Context {P : Platform}.
Import PyStr Posix.
Local Open Scope nat_scope.

Lemma for_each_app {A S : Type} (l1 l2 : list A) (body : S → A → M S) :
  ∀ (s : S) (w : World),
    for_each (l1 ++ l2) s body w
    = match for_each l1 s body w with
      | (inl e, w') => (inl e, w')
      | (inr s', w') => for_each l2 s' body w'
      end.
Proof.
  induction l1 as [| x l1 IH]; intros s w; [reflexivity |].
  rewrite <- app_comm_cons, !for_each_cons.
  destruct (body s x w) as [[e | s'] w']; [reflexivity | apply IH].
Qed.

Lemma fmt_04d_split (n1 n2 : Z) (x y : string) :
  fmt_04d n1 +:+ String "-" x = fmt_04d n2 +:+ String "-" y → n1 = n2.
Proof.
  rewrite !fmt_04d_eq.
  destruct (Z.ltb_spec n1 0) as [H1 | H1]; destruct (Z.ltb_spec n2 0) as [H2 | H2]; snorm.
  - intros [= Heq]. apply digits_split in Heq; [| apply padded_digits ..].
    apply (f_equal digits_value) in Heq. rewrite !padded_value in Heq. lia.
  - pose proof (padded_digits 4 (Z.to_N n2)) as Hd. pose proof (padded_nonempty 4 (Z.to_N n2)).
    destruct (padded 4 (Z.to_N n2)) as [| c s]; [done |]. snorm. intros [= <- _].
    discriminate Hd.
  - pose proof (padded_digits 4 (Z.to_N n1)) as Hd. pose proof (padded_nonempty 4 (Z.to_N n1)).
    destruct (padded 4 (Z.to_N n1)) as [| c s]; [done |]. snorm. intros [= -> _].
    discriminate Hd.
  - intros Heq. apply digits_split in Heq; [| apply padded_digits ..].
    apply (f_equal digits_value) in Heq. rewrite !padded_value in Heq. lia.
Qed.

Lemma series_names_bound (patches : list Patch) :
  ∀ current name, name ∈ (series current patches).*1 →
                  ∃ n label, (current ≤ n < current + Z.of_nat (length patches))%Z
                             ∧ name = patch_filename n label.
Proof.
  induction patches as [| [label content] rest IH]; intros current name Hin.
  - by apply elem_of_nil in Hin.
  - simpl in Hin. apply elem_of_cons in Hin as [-> | Hin].
    + exists current, label. simpl length. split; [lia | reflexivity].
    + destruct (IH _ _ Hin) as (n & l & Hn & ->). exists n, l. simpl length. split; [lia | done].
Qed.

Lemma mem_char_partition (s : string) :
  mem_char "/" s = true → ∃ before after, partition "/" s = Some (before, after).
Proof.
  induction s as [| a s IH]; [discriminate |]. intros Hmem. rewrite partition_eq.
  destruct (startswith "/" (String a s)) eqn:Hstart; [by eexists _, _ |].
  simpl in Hmem, Hstart. rewrite andb_true_r in Hstart.
  assert (eqc a "/" = false) as Ha.
  { unfold eqc in *. by rewrite Ascii.eqb_sym. }
  rewrite Ha in Hmem. destruct (IH Hmem) as (b & c & ->). by eexists _, _.
Qed.

Lemma ready_with_files dest_dir comps files :
  resolved dest_dir comps →
  ∀ fs, ready fs dest_dir comps → ready (with_files dest_dir files fs) dest_dir comps.
Proof.
  intros Hres. induction files as [| file files IH]; intros fs Hready; [exact Hready |].
  rewrite with_files_cons. apply IH. by apply ready_insert.
Qed.

Lemma numbered_not_written (pre : list Patch) start p name :
  name ∈ (series start pre).*1 →
  name ≠ fmt_04d (start + Z.of_nat (length pre)) +:+ String "-" p.
Proof.
  intros (k & l & Hk & ->)%series_names_bound Heq. rewrite patch_filename_numbered in Heq.
  apply fmt_04d_split in Heq. lia.
Qed.

(** X18. Whatever the patches and the outcome, [write_patches] leaves the
    outside world, the output and the commands as they are, and of the file
    system it changes only the destination, what lies under it and the
    missing directories on the way to it, which it may create.  Unless the
    destination is a regular file, whatever lies under it afterwards is a
    file of the series, so nothing of an earlier run survives; and with a
    clear way the destination is a directory afterwards. *)
Theorem write_patches_frame patches dest_dir comps start_number w :
  resolved dest_dir comps →
  nothing_under_absent (dirs w) dest_dir →
  let W := (write_patches patches dest_dir start_number w).2 in
  ext W = ext w ∧ stdout W = stdout w ∧ calls W = calls w
  ∧ (∀ path, path ≠ dest_dir → under dest_dir path = false →
             dirs W !! path = dirs w !! path
             ∨ (path ∈ lineage comps ∧ dirs w !! path = None
                ∧ dirs W !! path = Some Directory))
  ∧ ((∀ content, dirs w !! dest_dir ≠ Some (RegularFile content)) →
     ∀ path node,
       under dest_dir path = true → dirs W !! path = Some node →
       ∃ i label content,
         patches !! i = Some (label, content)
         ∧ path = dest_dir +:+ "/" +:+ patch_filename (start_number + Z.of_nat i) label
         ∧ node = RegularFile content)
  ∧ (clear_way (dirs w) dest_dir comps → dirs W !! dest_dir = Some Directory).
Proof.
  intros Hres Habsent W.
  pose proof Hres as (init & c & Hcomps & Hd & _ & _ & Hp & _ & _ & Hroot)%resolved_snoc.
  assert (∀ q, q ∈ lineage comps → under dest_dir q = false) as Hlineage.
  { intros q Hq. rewrite (proj1 Hres). apply lineage_not_under; [| by rewrite Hcomps | done].
    by destruct Hres as (_ & ? & _). }
  destruct (prepare_any dest_dir comps w Hres Habsent) as [(content & Hfile & Hrun) | [Hw1 Hgrown]].
  { assert (W = w) as ->.
    { unfold W. rewrite write_patches_eq. cbv zeta in Hrun. by rewrite Hrun. }
    repeat split; try reflexivity.
    - intros path _ _. by left.
    - intros Hfree. by destruct (Hfree content).
    - intros [Hfree _]. by destruct (Hfree dest_dir content (dest_in_lineage _ _ Hres)). }
  cbv zeta in Hw1, Hgrown.
  assert (∃ w1 n, dirs w1 = dirs ((there ← dir_exists dest_dir;
                                    (if there : bool then rmtree dest_dir else mret ());;
                                    mkdir_parents_exist_ok dest_dir) w).2
                  ∧ W = set_dirs (with_files dest_dir
                                    (firstn n (series start_number patches)) (dirs w1)) w
                  ∧ (clear_way (dirs w) dest_dir comps → dirs w1 !! dest_dir = Some Directory))
    as (w1 & n & Hdirs & HW & Hmade).
  { unfold W. rewrite write_patches_eq.
    destruct ((there ← dir_exists dest_dir;
               (if there : bool then rmtree dest_dir else mret ());;
               mkdir_parents_exist_ok dest_dir) w) as [[e | []] w1] eqn:Hprep;
      cbn [snd] in Hw1, Hgrown.
    - exists w1, 0. split; [reflexivity |]. cbn [snd firstn]. split; [exact Hw1 |].
      intros Hclear. rewrite (prepare_ok dest_dir comps w Hres Hclear) in Hprep. discriminate.
    - destruct (write_loop_any dest_dir comps patches start_number w1 Hres) as [n Hn].
      + intros k Hk. destruct (Hgrown k) as [-> | (Hq & _)].
        * rewrite remove_tree_lookup, Hk. by rewrite orb_true_r.
        * apply Hlineage in Hq. congruence.
      + exists w1, n. split; [reflexivity |]. cbv zeta in Hn. split.
        * destruct (for_each patches start_number (write_patch dest_dir) w1) as [[e | k] w2];
            cbn [snd] in *; rewrite Hn, Hw1; reflexivity.
        * intros Hclear. rewrite (prepare_ok dest_dir comps w Hres Hclear) in Hprep.
          injection Hprep as <-. cbn [dirs set_dirs]. rewrite with_dirs_lookup.
          rewrite bool_decide_eq_true_2; [done | by apply dest_in_lineage]. }
  rewrite <- Hdirs in Hgrown. clear Hw1 Hdirs.
  assert (∀ path, under dest_dir path = true → dirs w1 !! path = None) as Hempty.
  { intros k Hk. destruct (Hgrown k) as [-> | (Hq & _)].
    - rewrite remove_tree_lookup, Hk. by rewrite orb_true_r.
    - apply Hlineage in Hq. congruence. }
  rewrite HW. cbn [ext stdout calls dirs set_dirs].
  split; [reflexivity |]. split; [reflexivity |]. split; [reflexivity |]. split; [| split].
  - intros path Hne Hunder. rewrite with_files_other.
    + destruct (Hgrown path) as [Heq | (Hq & Hnone & Hdir)].
      * left. rewrite Heq, remove_tree_lookup, Hunder.
        by destruct (String.eqb_spec path dest_dir).
      * right. split; [exact Hq |]. split; [| exact Hdir].
        rewrite remove_tree_lookup, Hunder in Hnone.
        by destruct (String.eqb_spec path dest_dir).
    + intros name _ ->. by rewrite under_file in Hunder.
  - intros _ path node Hunder [(name & content & Hin & -> & ->) | Hold]%with_files_inv.
    + apply list_elem_of_lookup_1 in Hin as [i Hi].
      rewrite lookup_take_Some in Hi. destruct Hi as [Hi _].
      apply series_lookup_inv in Hi as (label & Hlabel & ->).
      by exists i, label, content.
    + by rewrite (Hempty _ Hunder) in Hold.
  - intros Hclear. rewrite with_files_other; [by apply Hmade |].
    intros name _. by apply dest_not_file with comps.
Qed.

(** X19. When [dest_dir] is a regular file, [write_patches] raises
    [NotADirectoryError] for it and changes nothing. *)
Theorem write_patches_regular_file patches dest_dir start_number content w :
  dirs w !! dest_dir = Some (RegularFile content) →
  write_patches patches dest_dir start_number w = (inl (NotADirectoryError dest_dir), w).
Proof.
  intros Hdest. unfold write_patches. rewrite bind_run. unfold dir_exists.
  rewrite (stat_found _ _ _ Hdest). by rewrite bind_run, (rmtree_regular_file _ _ _ Hdest).
Qed.

(** X20. A label with a path separator, after patches with safe labels
    that were written, asks for a directory in the destination that is not
    there: when the label has no NUL and the first component of the name
    and the path fit, [write_patches] raises [FileNotFoundError] for the
    path of that patch; the destination then holds exactly the files of the
    patches before it, so the old series is gone and the new one is
    truncated. *)
Theorem write_patches_bad_label (pre post : list Patch) label content dest_dir comps
    start_number w :
  resolved dest_dir comps →
  clear_way (dirs w) dest_dir comps →
  Forall (λ p, name_safe p.1) pre →
  fits dest_dir (series start_number pre) →
  mem_char "/" label = true →
  mem_char "000" label = false →
  let filename := patch_filename (start_number + Z.of_nat (length pre)) label in
  (∀ first, head (parts filename) = Some first → utf8_length first ≤ NAME_MAX) →
  utf8_length (path_truediv dest_dir filename) < PATH_MAX →
  write_patches (pre ++ (label, content) :: post) dest_dir start_number w
  = (inl (FileNotFoundError (path_truediv dest_dir filename)),
     set_dirs (installed dest_dir comps (series start_number pre) (dirs w)) w).
Proof.
  intros Hres Hclear Hsafe Hfits Hsep Hnul filename Hfirst Hlen.
  rewrite write_patches_eq, (prepare_ok _ _ _ Hres Hclear), for_each_app.
  pose proof (ready_made dest_dir comps (dirs w) Hres) as Hready.
  rewrite (write_loop_ok dest_dir comps); [| done .. ]. cbn [dirs set_dirs].
  rewrite for_each_cons. unfold write_patch at 1. cbv zeta. rewrite bind_run.
  fold (installed dest_dir comps (series start_number pre) (dirs w)).
  unfold filename in *. clear filename.
  rewrite (write_text_missing_parent dest_dir comps); [reflexivity | done | | done .. | | done].
  - cbn [dirs set_dirs]. intros q Hq. by apply installed_lineage.
  - intros first Hhead. split; [by apply Hfirst |]. cbn [dirs set_dirs].
    pose proof (filename_parts (start_number + Z.of_nat (length pre)) label) as Hparts.
    rewrite Hsep in Hparts. destruct Hparts as (p & m & z & Hparts).
    rewrite Hparts in Hhead. injection Hhead as <-.
    unfold installed. rewrite with_files_other.
    + apply made_under; [done |]. apply under_file.
      by destruct (resolved_snoc _ _ Hres) as (_ & _ & _ & _ & _ & _ & _ & _ & _ & ?).
    + intros name Hname Heq%file_path_inj. by apply (numbered_not_written pre start_number p name).
Qed.

End WriterFrame.

(** ** The outcome of the materializer *)

Section MaterializerOutcome.
Context {P : Platform}.
Import PyStr Script.

Lemma materialize_step repo (subjects : gmap string string) commit rest collected n w :
  let args := format_patch_args repo commit in
  let w1 := logged w (proc_next args None None (ext w)) [args] in
  for_each (commit :: rest) (collected, n) (materialize repo subjects) w
  = if (proc_rc args None None (ext w) =? 0)%Z then
      for_each rest
        (collected ++ [(label_of_commit subjects commit, proc_out args None None (ext w))],
         (n + 1)%Z) (materialize repo subjects) w1
    else
      (inl (CalledProcessError (proc_rc args None None (ext w)) args
              (Some (proc_out args None None (ext w)))
              (failure_message true (proc_out args None None (ext w))
                 (proc_err args None None (ext w)))), w1).
Proof.
  intros args w1. rewrite for_each_cons. unfold materialize at 1. rewrite bind_run.
  fold (format_patch_args repo commit). fold args. rewrite run_git_run. cbn [andb]. fold w1.
  by destruct (proc_rc args None None (ext w) =? 0)%Z.
Qed.

Lemma ext_after_format_snoc repo pre commit e :
  ext_after_format repo (pre ++ [commit]) e
  = proc_next (format_patch_args repo commit) None None (ext_after_format repo pre e).
Proof. unfold ext_after_format. by rewrite foldl_app. Qed.

Lemma formatted_labels repo (subjects : gmap string string) commits :
  ∀ e, (formatted repo subjects commits e).*1 = map (label_of_commit subjects) commits.
Proof.
  induction commits as [| commit rest IH]; intros e; [reflexivity |].
  simpl. by rewrite IH.
Qed.

Lemma materialize_loop repo (subjects : gmap string string) commits :
  ∀ collected n w,
    let r := for_each commits (collected, n) (materialize repo subjects) w in
    dirs r.2 = dirs w
    ∧ match r.1 with
      | inr (out, _) =>
          all_formatted repo commits (ext w)
          ∧ out = collected ++ formatted repo subjects commits (ext w)
          ∧ ext r.2 = ext_after_format repo commits (ext w)
          ∧ calls r.2 = calls w ++ map (format_patch_args repo) commits
      | inl e =>
          ∃ pre commit post,
            commits = pre ++ commit :: post
            ∧ all_formatted repo pre (ext w)
            ∧ proc_rc (format_patch_args repo commit) None None
                (ext_after_format repo pre (ext w)) ≠ 0%Z
            ∧ e = format_failure repo commit (ext_after_format repo pre (ext w))
            ∧ ext r.2 = ext_after_format repo (pre ++ [commit]) (ext w)
            ∧ calls r.2 = calls w ++ map (format_patch_args repo) (pre ++ [commit])
      end.
Proof.
  induction commits as [| commit rest IH]; intros collected n w; cbv zeta.
  - simpl. split; [reflexivity |]. by rewrite !app_nil_r.
  - rewrite materialize_step. cbv zeta.
    destruct (Z.eqb_spec (proc_rc (format_patch_args repo commit) None None (ext w)) 0)
      as [Hrc | Hrc].
    + match goal with
      | |- context [for_each rest (?c, ?k) (materialize repo subjects) ?w1] =>
          specialize (IH c k w1); cbv zeta in IH;
          destruct (for_each rest (c, k) (materialize repo subjects) w1) as [[e | [out k']] w2]
      end; cbn [fst snd logged ext calls dirs] in *; destruct IH as [Hd IH];
        (split; [exact Hd |]).
      * destruct IH as (pre & c & post & -> & Hpre & Hne & -> & Hext & Hcalls).
        exists (commit :: pre), c, post. split; [done |]. split; [by split |].
        split; [exact Hne |]. split; [reflexivity |]. split; [exact Hext |].
        rewrite Hcalls. by rewrite <- app_assoc.
      * destruct IH as (Hall & -> & Hext & Hcalls). split; [by split |].
        split; [by rewrite <- app_assoc |]. split; [exact Hext |].
        rewrite Hcalls. by rewrite <- app_assoc.
    + cbn [fst snd logged ext calls]. split; [reflexivity |].
      exists [], commit, rest. repeat split; done.
Qed.

Lemma label_char_safe (s : string) : all_chars Re.label_char s = true → name_safe s.
Proof.
  intros Hs. split; by apply (all_chars_mem Re.label_char).
Qed.

Lemma label_of_commit_safe (subjects : gmap string string) commit :
  commit_id commit →
  label_of_commit subjects commit ≠ "" ∧ name_safe (label_of_commit subjects commit).
Proof.
  intros [Hne Hhex]. unfold label_of_commit, safe_subject.
  destruct (is_empty (strip_chars "-" (Re.sub_outside "-" (default "" (subjects !! commit)))))
    eqn:He.
  - split; [destruct commit; [contradiction | discriminate] |].
    apply label_char_safe, take_all. by apply (all_chars_impl is_hex); [apply hex_label_char |].
  - split; [intros Heq; by rewrite Heq in He |].
    apply label_char_safe, rstrip_all, lstrip_all, sub_outside_safe.
Qed.

(** X21. [collect_commit_patches] leaves the destinations alone.  When it
    returns, [git format-patch] has run once per commit, in order, and has
    returned zero each time; the patches are the labels of the commits with
    what the command printed for each.  When it raises, the commits before
    one of them were all formatted with success, the command failed for
    that one -- the first failure, and the last command run -- and the
    exception is the [CalledProcessError] of that command: its return code,
    its output, and as message its stripped error text, else its stripped
    output, else ["git command failed"]. *)
Theorem collect_commit_patches_outcome repo commits start_number
    (subjects : gmap string string) w :
  let r := collect_commit_patches repo commits start_number subjects w in
  dirs r.2 = dirs w
  ∧ match r.1 with
    | inr out =>
        all_formatted repo commits (ext w)
        ∧ out = formatted repo subjects commits (ext w)
        ∧ out.*1 = map (label_of_commit subjects) commits
        ∧ ext r.2 = ext_after_format repo commits (ext w)
        ∧ calls r.2 = calls w ++ map (format_patch_args repo) commits
    | inl e =>
        ∃ pre commit post,
          commits = pre ++ commit :: post
          ∧ all_formatted repo pre (ext w)
          ∧ proc_rc (format_patch_args repo commit) None None
              (ext_after_format repo pre (ext w)) ≠ 0%Z
          ∧ e = format_failure repo commit (ext_after_format repo pre (ext w))
          ∧ ext r.2 = ext_after_format repo (pre ++ [commit]) (ext w)
          ∧ calls r.2 = calls w ++ map (format_patch_args repo) (pre ++ [commit])
    end.
Proof.
  intros r. unfold r. rewrite collect_commit_patches_run. cbn [fst snd].
  pose proof (materialize_loop repo subjects commits [] start_number w) as [Hd Hloop].
  split; [exact Hd |].
  destruct (for_each commits ([], start_number) (materialize repo subjects) w).1
    as [e | [out k]]; cbn [collected_of]; [exact Hloop |].
  destruct Hloop as (Hall & -> & Hext & Hcalls). cbn [app].
  split; [exact Hall |]. split; [reflexivity |].
  split; [apply formatted_labels | by split].
Qed.

(** X22. For commit identifiers, the patches [collect_commit_patches] returns
    are one per commit, and their labels are not empty and free of path
    separators and NUL, so that each gets a file name of one component:
    [write_patches] returns on them and installs their series in every
    resolved destination with a clear way in which the names fit, whatever
    the first number. *)
Theorem commit_patches_can_be_written repo commits start_number
    (subjects : gmap string string) out w :
  Forall commit_id commits →
  (collect_commit_patches repo commits start_number subjects w).1 = inr out →
  length out = length commits
  ∧ Forall (λ p, p.1 ≠ "" ∧ name_safe p.1) out
  ∧ ∀ dest_dir comps first w',
      resolved dest_dir comps →
      clear_way (dirs w') dest_dir comps →
      fits dest_dir (series first out) →
      write_patches out dest_dir first w'
      = (inr (), set_dirs (installed dest_dir comps (series first out) (dirs w')) w').
Proof.
  intros Hids. rewrite collect_commit_patches_run. cbn [fst].
  pose proof (materialize_loop repo subjects commits [] start_number w) as [_ Hloop].
  destruct (for_each commits ([], start_number) (materialize repo subjects) w).1
    as [e | [out' k]]; cbn [collected_of]; [discriminate |].
  intros [= ->]. destruct Hloop as (_ & -> & _). cbn [app].
  set (loaded := formatted repo subjects commits (ext w)).
  pose proof (formatted_labels repo subjects commits (ext w)) as Hlabels. fold loaded in Hlabels.
  assert (Forall (λ p : Patch, p.1 ≠ "" ∧ name_safe p.1) loaded) as Hsafe.
  { apply Forall_forall. intros p Hp.
    assert (p.1 ∈ map (label_of_commit subjects) commits) as Hin.
    { rewrite <- Hlabels. by apply list_elem_of_fmap_2. }
    apply list_elem_of_fmap in Hin as (commit & -> & Hcommit).
    rewrite Forall_forall in Hids. by apply label_of_commit_safe, Hids. }
  split; [| split; [exact Hsafe |]].
  - apply (f_equal length) in Hlabels. by rewrite length_fmap, length_map in Hlabels.
  - intros dest_dir comps first w' Hres Hclear Hfits.
    apply write_patches_ok; [done | done | | done].
    eapply Forall_impl; [exact Hsafe | by intros p [_ ?]].
Qed.

End MaterializerOutcome.

(** ** The failures of the loader, and the exclusions *)

Section LoaderFailures.
Context {P : Platform}.
Import PyStr.

Lemma declared_patch_urls_clean (out : string) :
  Forall (λ url, endswith url ".patch" = true ∧ strip url = url) (declared_patch_urls out).
Proof.
  unfold declared_patch_urls. apply Forall_forall. intros url Hin.
  apply list_elem_of_In, in_map_iff in Hin as (line & <- & Hline).
  apply filter_In in Hline as [_ Hends]. split; [exact Hends | apply strip_by_strip_by].
Qed.

(** X23. [collect_cachyos_patches] runs one command, the shell on the
    PKGBUILD, and changes nothing else.  When the shell fails it exits with
    the error text, else the output, else a fixed message; when no line of
    the output ends in [.patch] it raises [RuntimeError].  When it returns,
    the list is not empty and has one patch per declared URL; the declared
    URLs are stripped and end in [.patch]. *)
Theorem collect_cachyos_patches_failures patches_repo folder pkgbuild_path lto_mode cpusched w :
  let env := pkgbuild_env pkgbuild_path lto_mode cpusched in
  let rc := cmd_rc pkgbuild_cmd None env (ext w) in
  let out := cmd_out pkgbuild_cmd None env (ext w) in
  let err := cmd_err pkgbuild_cmd None env (ext w) in
  let r := collect_cachyos_patches patches_repo folder pkgbuild_path lto_mode cpusched w in
  r.2 = logged w (cmd_next pkgbuild_cmd None env (ext w)) [pkgbuild_cmd]
  ∧ (rc ≠ 0%Z →
     r.1 = inl (SystemExit (if negb (is_empty err) then err
                            else if negb (is_empty out) then out
                            else "failed to parse CachyOS PKGBUILD sources")))
  ∧ (rc = 0%Z → declared_patch_urls out = [] →
     r.1 = inl (RuntimeError "No CachyOS patches discovered from PKGBUILD"))
  ∧ (∀ patches, r.1 = inr patches →
       rc = 0%Z ∧ patches ≠ [] ∧ length patches = length (declared_patch_urls out))
  ∧ Forall (λ url, endswith url ".patch" = true ∧ strip url = url) (declared_patch_urls out).
Proof.
  intros env rc out err r. unfold r. rewrite collect_cachyos_patches_run. cbv zeta.
  fold env rc out err.
  split; [| split; [| split; [| split; [| apply declared_patch_urls_clean]]]].
  - destruct (rc =? 0)%Z; cbn [negb]; [| reflexivity].
    destruct (bool_decide (declared_patch_urls out = [])); [reflexivity |].
    apply load_loop_state.
  - intros Hrc. destruct (Z.eqb_spec rc 0) as [| _]; [contradiction |]. cbn [negb fst].
    unfold first_nonempty. cbn [List.find]. by destruct (is_empty err), (is_empty out).
  - intros Hrc Hurls. rewrite Hrc, Hurls. reflexivity.
  - intros patches. destruct (Z.eqb_spec rc 0) as [Hrc | Hrc]; cbn [negb]; [| discriminate].
    destruct (bool_decide (declared_patch_urls out = [])) eqn:Hurls; [discriminate |].
    apply bool_decide_eq_false in Hurls. intros Hr.
    destruct (load_loop_complete _ _ _ _ _ _ Hr) as (loaded & -> & Hall). cbn [app].
    apply Forall2_length in Hall. split; [exact Hrc |]. split; [| done].
    intros ->. simpl in Hall. by destruct (declared_patch_urls out).
Qed.

End LoaderFailures.

Section Exclusions.
Import PyStr.

Lemma filter_filter_same {A : Type} (f : A → bool) (l : list A) :
  List.filter f (List.filter f l) = List.filter f l.
Proof.
  induction l as [| x l IH]; [reflexivity |]. simpl.
  destruct (f x) eqn:Hx; [| exact IH]. simpl. by rewrite Hx, IH.
Qed.

(** X24. The exclusion keeps the order of the commits: the result is a sublist
    of the input, with a commit kept exactly when neither it nor its first
    twelve characters is excluded.  Excluding again changes nothing, and an
    empty exclusion set keeps every commit. *)
Theorem exclude_commits_sound (excluded : gset string) (ordered : list string) :
  let kept := exclude_commits excluded ordered in
  sublist kept ordered
  ∧ (∀ h, h ∈ kept ↔ h ∈ ordered ∧ (h ∉ excluded) ∧ (take 12 h ∉ excluded))
  ∧ exclude_commits excluded kept = kept
  ∧ exclude_commits ∅ ordered = ordered
  ∧ (NoDup ordered → NoDup kept).
Proof.
  intros kept. unfold kept.
  assert (sublist (exclude_commits excluded ordered) ordered) as Hsub.
  { unfold exclude_commits. destruct (bool_decide (excluded ≠ ∅)); [apply filter_sublist | done]. }
  split; [exact Hsub |]. split; [intros h; apply exclude_commits_spec |]. split; [| split].
  - unfold exclude_commits. destruct (bool_decide (excluded ≠ ∅)); [| reflexivity].
    apply filter_filter_same.
  - unfold exclude_commits. rewrite bool_decide_eq_false_2; [reflexivity | by intros []].
  - intros Hnd. by eapply sublist_NoDup.
Qed.

End Exclusions.

(** ** The main program *)

Section Summary.
Context {P : Platform} {C : Plumbing} (cfg : Config).
Import PyStr.

(** X25. When [main_package] returns, its last four lines of output are the
    summary, and the counts are right: the best-effort patches reported as
    applied are those [simulate_apply] kept after the must-apply group, and
    the number reported as skipped is the rest of the group, never
    negative. *)
Theorem main_package_summary linux_base_ref (cachyos tuxedo : list Patch) w W :
  main_package cfg linux_base_ref cachyos tuxedo w = (inr (), W) →
  ∃ kept lines,
    (simulate_apply (LINUX_REPO cfg) linux_base_ref cachyos tuxedo w).1 = inr (cachyos ++ kept)
    ∧ sublist kept tuxedo
    ∧ stdout W = lines ++ summary_lines (len cachyos) (len tuxedo) (len kept)
    ∧ (0 ≤ len tuxedo - len kept)%Z.
Proof.
  unfold main_package. rewrite bind_run.
  pose proof (simulate_apply_kept (LINUX_REPO cfg) linux_base_ref cachyos tuxedo w) as Hkept.
  destruct (simulate_apply (LINUX_REPO cfg) linux_base_ref cachyos tuxedo w)
    as [[e | out] w1]; [discriminate |].
  destruct (Hkept out eq_refl) as (kept & -> & Hsub). clear Hkept.
  rewrite bind_run.
  destruct (write_patches _ _ _ w1) as [[e | []] w2]; [discriminate |].
  rewrite bind_run.
  destruct (create_patches_tarball _ _ w2) as [[e | []] w3]; [discriminate |].
  cbv zeta. rewrite bind_run.
  destruct (render_pkgbuild _ _ _ _ _ _ w3) as [[e | []] w4]; [discriminate |].
  rewrite !bind_run, !print_run. cbn [stdout]. intros [= <-]. cbn [stdout].
  exists kept, (stdout w4). split; [reflexivity |]. split; [exact Hsub |].
  assert (Z.max 0 (len (cachyos ++ kept) - len cachyos) = len kept) as ->.
  { unfold len. rewrite length_app. lia. }
  split; [by rewrite <- !app_assoc |].
  apply sublist_length in Hsub. unfold len. lia.
Qed.

End Summary.

Section Extraction.
Context {P : Platform} {S : Storage} (cfg : Config) (u : UbuntuConfig).
Context (stage tarball : string → string → M unit).
Context (render : string → string → string → string → list string → list string → M unit).
Import PyStr.

(** X26. [main] with the reference functions of the script: when the
    references and the range are resolved, the base lies under
    [refs/remotes/origin/], the commits are stripped lines that are not
    empty, the destinations are untouched, and the last command is
    [git rev-list --no-merges --reverse] on the Tuxedo ref with both the
    Ubuntu base and the kernel base excluded. *)
Theorem main_extract_result linux_base_ref ordered w W :
  main_extract (C := script_plumbing cfg u stage tarball render) cfg w
  = (inr (linux_base_ref, ordered), W) →
  startswith "refs/remotes/origin/" linux_base_ref = true
  ∧ Forall (λ h, h ≠ "" ∧ strip h = h) ordered
  ∧ dirs W = dirs w
  ∧ ∃ tuxedo_ref ubuntu_ref,
      startswith "refs/remotes/tuxedo/" tuxedo_ref = true
      ∧ ubuntu_ref ≠ ""
      ∧ last (calls W)
        = Some ["git"; "-C"; LINUX_REPO cfg; "rev-list"; "--no-merges"; "--reverse";
                tuxedo_ref; "^" +:+ ubuntu_ref; "^" +:+ linux_base_ref].
Proof.
  unfold main_extract. cbn [ensure_ref resolve_ubuntu_base script_plumbing].
  rewrite bind_run.
  pose proof (λ r, ensure_ref_returned (LINUX_REPO cfg) "origin" (LINUX_REMOTE cfg)
                     (LINUX_BRANCH cfg) (LINUX_REF cfg) "linux" r w) as H1.
  destruct (Script.ensure_ref _ _ _ _ _ _ w) as [[e | base] w1]; [discriminate |].
  destruct (H1 base eq_refl) as (_ & Hbase & _ & Hd1). cbn [snd] in Hd1. clear H1.
  rewrite bind_run.
  pose proof (λ r, ensure_ref_returned (LINUX_REPO cfg) "tuxedo" (TUXEDO_REMOTE cfg)
                     (TUXEDO_BRANCH cfg) (TUXEDO_REF cfg) "tuxedo" r w1) as H2.
  destruct (Script.ensure_ref _ _ _ _ _ _ w1) as [[e | tux] w2]; [discriminate |].
  destruct (H2 tux eq_refl) as (_ & Htux & _ & Hd2). cbn [snd] in Hd2. clear H2.
  rewrite bind_run.
  pose proof (λ r, resolve_ubuntu_base_returned cfg u tux r w2) as H3.
  destruct (Script.resolve_ubuntu_base cfg u tux w2) as [[e | ub] w3]; [discriminate |].
  destruct (H3 ub eq_refl) as (Hub & _ & _ & Hd3). cbn [snd] in Hd3. clear H3.
  rewrite bind_run, rev_list_range_run. cbv zeta.
  destruct (_ =? _)%Z; [| discriminate].
  rewrite ret_run. intros [= <- <- <-].
  assert (base ≠ "") as Hne by (intros ->; discriminate Hbase).
  split; [exact Hbase |]. split; [apply stripped_lines_clean |].
  split; [cbn [logged dirs]; congruence |].
  exists tux, ub. split; [exact Htux |]. split; [exact Hub |].
  cbn [logged calls]. rewrite last_snoc. f_equal.
  unfold rev_list_range_args. destruct ub; [contradiction |]. destruct base; [contradiction |].
  reflexivity.
Qed.

End Extraction.

(** ** Concrete runs of the functions around the engine *)

Section CannedWitnesses.
Import PyStr Posix Script Canned.
#[local] Existing Instance canned_platform.
#[local] Existing Instance canned_storage.

Lemma commit_a_id : commit_id commit_a.
Proof. split; [discriminate | reflexivity]. Qed.

Lemma commit_b_id : commit_id commit_b.
Proof. split; [discriminate | reflexivity]. Qed.

Lemma rev_list_range_ids_witness :
  (rev_list_range "/root/linux" "refs/remotes/tuxedo/pin-tuxedo"
     ["refs/remotes/ubuntu/pin-ubuntu"; ""; "refs/remotes/origin/pin-linux"] true
     (canned_world [(0%Z, hash_lines [commit_a; commit_b], "")] linux_paths)).1
  = inr [commit_a; commit_b].
Proof.
  apply (rev_list_range_ids "/root/linux" "refs/remotes/tuxedo/pin-tuxedo"
           ["refs/remotes/ubuntu/pin-ubuntu"; ""; "refs/remotes/origin/pin-linux"] true
           [commit_a; commit_b]
           (canned_world [(0%Z, hash_lines [commit_a; commit_b], "")] linux_paths)).
  - reflexivity.
  - reflexivity.
  - repeat constructor; (discriminate || reflexivity).
Defined.

Lemma bulk_subjects_subjects_witness :
  ∃ mapping : gmap string string,
    (bulk_subjects "/root/linux" [commit_a; commit_b]
       (canned_world [(0%Z, subject_lines [(commit_a, "TUXEDO: fix the fan");
                                             (commit_b, "drm/amd: a  b")], "")] linux_paths)).1
    = inr mapping
    ∧ mapping !! commit_b = Some "drm/amd: a  b".
Proof.
  destruct (bulk_subjects_subjects "/root/linux" [commit_a; commit_b]
              [(commit_a, "TUXEDO: fix the fan"); (commit_b, "drm/amd: a  b")]
              (canned_world [(0%Z, subject_lines [(commit_a, "TUXEDO: fix the fan");
                                                    (commit_b, "drm/amd: a  b")], "")]
                 linux_paths))
    as (mapping & Hrun & Hthere & _).
  - discriminate.
  - reflexivity.
  - repeat constructor; (discriminate || reflexivity).
  - apply NoDup_cons_2; [| apply NoDup_singleton].
    intros Hin. apply list_elem_of_singleton in Hin. discriminate Hin.
  - exists mapping. split; [exact Hrun |]. apply Hthere.
    apply list_elem_of_further, list_elem_of_here.
Defined.

Lemma ensure_remote_not_repository_witness :
  ensure_remote "/root/linux" "origin" "https://example.org/linux.git" "main" false
    (canned_world [] ["/root/linux"])
  = (inl (ValueError "/root/linux exists but is not a git repository"),
     canned_world [] ["/root/linux"]).
Proof.
  apply (ensure_remote_not_repository "/root/linux" "origin" "https://example.org/linux.git"
           "main" false (canned_world [] ["/root/linux"])); reflexivity.
Defined.

Lemma ensure_ref_result_witness :
  (ensure_ref "/root/linux" "origin" "https://example.org/linux.git" "main" "" "linux"
     (canned_world [] linux_paths)).1 = inr "refs/remotes/origin/pin-linux"
  ∧ startswith (remote_prefix "origin") "refs/remotes/origin/pin-linux" = true.
Proof.
  assert ((ensure_ref "/root/linux" "origin" "https://example.org/linux.git" "main" "" "linux"
             (canned_world [] linux_paths)).1 = inr "refs/remotes/origin/pin-linux") as Hrun
    by (vm_compute; reflexivity).
  split; [exact Hrun |].
  exact (proj1 (proj2 (ensure_ref_result "/root/linux" "origin" "https://example.org/linux.git"
                         "main" "" "linux" "refs/remotes/origin/pin-linux"
                         (canned_world [] linux_paths) Hrun))).
Defined.

Lemma checkout_returns_witness :
  (checkout "/root/linux" "origin" "https://example.org/linux.git" "master"
     "8e4d77a4aeef28c8e93fd9b724d61a84b11b384f" (canned_world [] linux_paths)).1 = inr ()
  ∧ target_of "master" "8e4d77a4aeef28c8e93fd9b724d61a84b11b384f" ≠ "".
Proof.
  assert ((checkout "/root/linux" "origin" "https://example.org/linux.git" "master"
             "8e4d77a4aeef28c8e93fd9b724d61a84b11b384f" (canned_world [] linux_paths)).1
          = inr ()) as Hrun by (vm_compute; reflexivity).
  split; [exact Hrun |].
  exact (proj1 (checkout_returns "/root/linux" "origin" "https://example.org/linux.git" "master"
                  "8e4d77a4aeef28c8e93fd9b724d61a84b11b384f" (canned_world [] linux_paths)
                  Hrun)).
Defined.

Lemma resolve_ubuntu_base_result_witness :
  (resolve_ubuntu_base (script_config "/root") script_ubuntu "refs/remotes/tuxedo/pin-tuxedo"
     (canned_world (skipn 6 extract_answers) linux_paths)).1
  = inr "9d3c1e0a7b2f4c5d6e7f8091a2b3c4d5e6f70812"
  ∧ "9d3c1e0a7b2f4c5d6e7f8091a2b3c4d5e6f70812" ≠ "".
Proof.
  assert ((resolve_ubuntu_base (script_config "/root") script_ubuntu
             "refs/remotes/tuxedo/pin-tuxedo"
             (canned_world (skipn 6 extract_answers) linux_paths)).1
          = inr "9d3c1e0a7b2f4c5d6e7f8091a2b3c4d5e6f70812") as Hrun
    by (vm_compute; reflexivity).
  split; [exact Hrun |].
  exact (proj1 (resolve_ubuntu_base_result (script_config "/root") script_ubuntu
                  "refs/remotes/tuxedo/pin-tuxedo" "9d3c1e0a7b2f4c5d6e7f8091a2b3c4d5e6f70812"
                  (canned_world (skipn 6 extract_answers) linux_paths) Hrun)).
Defined.

Lemma write_patches_regular_file_witness :
  write_patches [("cachyos-base-all", "diff a")] "/root/package/patches" 1 w_file_in_the_way
  = (inl (NotADirectoryError "/root/package/patches"), w_file_in_the_way).
Proof.
  apply (write_patches_regular_file [("cachyos-base-all", "diff a")] "/root/package/patches" 1
           "not a directory" w_file_in_the_way).
  reflexivity.
Defined.

Lemma write_patches_bad_label_witness :
  let filename := patch_filename 2 "drm/amd" in
  write_patches ([("cachyos-base-all", "diff a")] ++ ("drm/amd", "diff b") :: [("late", "diff c")])
    "/root/package/patches" 1 (canned_world [] [])
  = (inl (FileNotFoundError (path_truediv "/root/package/patches" filename)),
     set_dirs (installed "/root/package/patches" ["root"; "package"; "patches"]
                 (series 1 [("cachyos-base-all", "diff a")]) (dirs (canned_world [] [])))
       (canned_world [] []))
  ∧ path_truediv "/root/package/patches" filename = "/root/package/patches/0002-drm/amd.patch"
  ∧ series 1 [("cachyos-base-all", "diff a")] = [("0001-cachyos-base-all.patch", "diff a")].
Proof.
  intros filename. split; [| split; vm_compute; reflexivity].
  apply (write_patches_bad_label [("cachyos-base-all", "diff a")] [("late", "diff c")]
           "drm/amd" "diff b" "/root/package/patches" ["root"; "package"; "patches"] 1
           (canned_world [] [])).
  - exact patches_dir_resolved.
  - apply clear_way_check; [vm_compute; reflexivity |]. by right.
  - repeat constructor.
  - apply fits_check. vm_compute. reflexivity.
  - reflexivity.
  - reflexivity.
  - intros first Hfirst. apply Nat.leb_le. vm_compute in Hfirst. injection Hfirst as <-.
    vm_compute. reflexivity.
  - apply Nat.ltb_lt. vm_compute. reflexivity.
Defined.

Lemma commit_patches_can_be_written_witness :
  ∃ out,
    (collect_commit_patches "/root/linux" [commit_a; commit_b] 2
       {[ commit_a := "TUXEDO: fix the fan" ]} (canned_world [] linux_paths)).1 = inr out
    ∧ out.*1 = ["TUXEDO-fix-the-fan"; "1fe04fc050d8"]
    ∧ Forall (λ p, p.1 ≠ "" ∧ name_safe p.1) out.
Proof.
  assert ((collect_commit_patches "/root/linux" [commit_a; commit_b] 2
             {[ commit_a := "TUXEDO: fix the fan" ]} (canned_world [] linux_paths)).1
          = inr [("TUXEDO-fix-the-fan", ""); ("1fe04fc050d8", "")]) as Hrun
    by (vm_compute; reflexivity).
  eexists. split; [exact Hrun |]. split; [reflexivity |].
  refine (proj1 (proj2 (commit_patches_can_be_written "/root/linux" [commit_a; commit_b] 2
                          {[ commit_a := "TUXEDO: fix the fan" ]} _
                          (canned_world [] linux_paths) _ Hrun))).
  repeat constructor; (discriminate || reflexivity).
Defined.

Lemma main_extract_result_witness :
  (main_extract (C := script_plumbing (script_config "/root") script_ubuntu
                        no_stage no_stage no_render)
     (script_config "/root") (canned_world extract_answers linux_paths)).1
  = inr ("refs/remotes/origin/pin-linux", [commit_a; commit_b])
  ∧ startswith "refs/remotes/origin/" "refs/remotes/origin/pin-linux" = true
  ∧ Forall (λ h, h ≠ "" ∧ strip h = h) [commit_a; commit_b].
Proof.
  assert (main_extract (C := script_plumbing (script_config "/root") script_ubuntu
                                no_stage no_stage no_render)
            (script_config "/root") (canned_world extract_answers linux_paths)
          = (inr ("refs/remotes/origin/pin-linux", [commit_a; commit_b]),
             (main_extract (C := script_plumbing (script_config "/root") script_ubuntu
                                   no_stage no_stage no_render)
                (script_config "/root") (canned_world extract_answers linux_paths)).2)) as Hrun
    by (vm_compute; reflexivity).
  split; [vm_compute; reflexivity |].
  destruct (main_extract_result (script_config "/root") script_ubuntu no_stage no_stage
              no_render "refs/remotes/origin/pin-linux" [commit_a; commit_b]
              (canned_world extract_answers linux_paths) _ Hrun)
    as (Hbase & Hclean & _).
  split; [exact Hbase | exact Hclean].
Defined.

End CannedWitnesses.

Section ToyWitnesses.
Import PyStr Toy ToyRuns.
#[local] Existing Instance toy_platform.
#[local] Existing Instance toy_plumbing.

Lemma write_patches_frame_witness :
  let W := (write_patches [("cachyos-base-all", "diff a"); ("drm/amd", "diff b")]
              "/root/package/patches" 1 w_stale).2 in
  ext W = ext w_stale ∧ stdout W = stdout w_stale ∧ calls W = calls w_stale
  ∧ dirs W !! "/root/package/patches" = Some Directory.
Proof.
  intros W.
  assert (clear_way (dirs w_stale) "/root/package/patches" ["root"; "package"; "patches"])
    as Hclear.
  { apply clear_way_check; [vm_compute; reflexivity |]. left. vm_compute. by eexists. }
  destruct (write_patches_frame [("cachyos-base-all", "diff a"); ("drm/amd", "diff b")]
              "/root/package/patches" ["root"; "package"; "patches"] 1 w_stale
              patches_dir_resolved (proj2 Hclear))
    as (Hext & Hout & Hcalls & _ & _ & Hdir).
  split; [exact Hext |]. split; [exact Hout |]. split; [exact Hcalls |]. by apply Hdir.
Defined.

Lemma main_package_summary_witness :
  ∃ kept lines,
    sublist kept toy_tuxedo
    ∧ stdout (main_package (script_config "/root") "base" toy_cachyos toy_tuxedo w_ab).2
      = lines ++ summary_lines 1 4 (len kept)
    ∧ (0 ≤ 4 - len kept)%Z.
Proof.
  assert (main_package (script_config "/root") "base" toy_cachyos toy_tuxedo w_ab
          = (inr (), (main_package (script_config "/root") "base" toy_cachyos toy_tuxedo w_ab).2))
    as Hrun by (vm_compute; reflexivity).
  destruct (main_package_summary (script_config "/root") "base" toy_cachyos toy_tuxedo w_ab
              _ Hrun) as (kept & lines & _ & Hsub & Hout & Hpos).
  exists kept, lines. by repeat split.
Defined.

End ToyWitnesses.
